(** * Tiered associative memory: a shallow embedding of the memory subsystem

    The TypeScript sources embedded here are the classes [HebbianNetwork],
    [FleetingMemory], [ShortTermMemory], [LongTermMemory] and [MemoryManager]
    together with [createMemoryEntry], [calculateRelevance], [tokenize],
    [jaccardSimilarity] and [generateDeterministicId].

    Conventions of the embedding.
    - A JavaScript [number] is a rational ([Q]); counters and millisecond
      timestamps are integers ([Z]); sizes and limits handed to [slice] are
      natural numbers.  [Math.pow (x, 0.5)] has no rational counterpart and is
      a parameter [pow_half] of every definition that reaches
      [calculateRelevance].
    - The sums and products that make the weights of the graph and the
      scores of [recall] are the double-precision ones ([Double.add],
      [Double.sub], [Double.mul]): the operands are read as doubles and the
      exact result is rounded to the nearest double, ties to even,
      subnormal numbers included.  Infinities, NaN and the sign of zero
      have no counterpart.  The quotient of [jaccardSimilarity] and the
      expression of [calculateRelevance] are kept exact; where [recall]
      adds a boost to a similarity, the similarity is read as the double
      nearest to the quotient, which is what the division of the program
      returns.
    - A [Map<string, V>] is an insertion-ordered association list ([JsMap.t]);
      a plain object used as a record is [JsObject.t].
    - Strings are ASCII text.
    - Every read of [Date.now ()] and every result of [generateId ()] is an
      explicit argument of the operation that performs it.
    - Objects are values: an operation that mutates an entry that lives in a
      store returns the new store, and the entry it hands back is the entry
      after the mutation. *)

From Stdlib Require Import List String Ascii Bool Arith ZArith QArith Qminmax Qround Qpower.
From Stdlib Require Import Lia Lqa Permutation Sorted.
From Stdlib Require Decimal DecimalString DecimalN.
Import ListNotations.

Local Open Scope Q_scope.
Local Open Scope list_scope.

(** ** Numbers *)

(** [x < y] on numbers, as a boolean. *)
Definition Qlt_bool (x y : Q) : bool := negb (Qle_bool y x).

(** [x || 0] for a possibly missing number: [undefined] and [0] are falsy. *)
Definition or_zero (o : option Q) : Q :=
  match o with
  | Some v => if Qeq_bool v 0 then 0 else v
  | None => 0
  end.

(** ** Double-precision arithmetic

    The sums and products of the program are rounded as IEEE 754 binary64
    rounds them: to the nearest double, the one with an even significand
    when two are equally near.  An operand stands for the double nearest
    to it, so that a decimal literal denotes the double the program
    reads.  A result beyond the largest double is left as it is: every
    such sum of the program goes through [Math.min] with a finite bound. *)

Module Double.

(** [floor (log2 q)] for a positive rational [q]. *)
Definition ilog2 (q : Q) : Z :=
  let e0 := (Z.log2 (Qnum q) - Z.log2 (Zpos (Qden q)))%Z in
  if Qle_bool (2 ^ e0) q then e0 else (e0 - 1)%Z.

(** The integer nearest to [x], the even one of two that are equally
    near. *)
Definition rne (x : Q) : Z :=
  let f := Qfloor x in
  match Qcompare (x - inject_Z f) (1 # 2) with
  | Lt => f
  | Gt => (f + 1)%Z
  | Eq => if Z.even f then f else (f + 1)%Z
  end.

(** The exponent of the spacing of the doubles around a positive [q]:
    53 significant bits, and the fixed spacing [2 ^ -1074] of the
    subnormal range. *)
Definition ulp_exponent (q : Q) : Z := Z.max (ilog2 q - 52) (-1074).

Definition nearest_positive (q : Q) : Q :=
  let p := ulp_exponent q in
  inject_Z (rne (q / 2 ^ p)) * 2 ^ p.

(** The double nearest to [q], ties to even, as a fraction in lowest
    terms. *)
Definition nearest (q : Q) : Q :=
  let q := Qred q in
  match Qnum q with
  | Z0 => 0
  | Zpos _ => Qred (nearest_positive q)
  | Zneg _ => Qred (- nearest_positive (- q))
  end.

(** The number a rational stands for: itself when it is a double, the
    nearest double otherwise. *)
Definition round (q : Q) : Q :=
  if Qeq_bool (nearest q) q then q else nearest q.

(** [x + y], [x - y] and [x * y] on numbers. *)
Definition add (x y : Q) : Q := round (round x + round y).
Definition sub (x y : Q) : Q := round (round x - round y).
Definition mul (x y : Q) : Q := round (round x * round y).

(** [x < y] on numbers. *)
Definition ltb (x y : Q) : bool := Qlt_bool (round x) (round y).

End Double.

Arguments Double.nearest : simpl never.
Arguments Double.round : simpl never.
Arguments Double.add : simpl never.
Arguments Double.sub : simpl never.
Arguments Double.mul : simpl never.
Arguments Double.ltb : simpl never.

(** ** [Map<string, V>]: insertion-ordered, keys unique *)

Module JsMap.

Definition t (V : Type) : Type := list (string * V).

Definition empty {V : Type} : t V := [].

Fixpoint get {V : Type} (m : t V) (k : string) : option V :=
    match m with
    | [] => None
    | (k', v) :: m' => if String.eqb k' k then Some v else get m' k
    end.

Definition has {V : Type} (m : t V) (k : string) : bool :=
    match get m k with Some _ => true | None => false end.

  (** [set] on a present key keeps the key's position, on a new key it
      appends. *)
Fixpoint set {V : Type} (m : t V) (k : string) (v : V) : t V :=
    match m with
    | [] => [(k, v)]
    | (k', v') :: m' =>
        if String.eqb k' k then (k, v) :: m' else (k', v') :: set m' k v
    end.

Definition delete {V : Type} (m : t V) (k : string) : t V :=
    filter (fun kv => negb (String.eqb (fst kv) k)) m.

Definition keys {V : Type} (m : t V) : list string := map fst m.
Definition values {V : Type} (m : t V) : list V := map snd m.
Definition entries {V : Type} (m : t V) : list (string * V) := m.
Definition size {V : Type} (m : t V) : nat := List.length m.

  (** [new Map (pairs)]: the pairs are [set] one after the other. *)
Definition of_entries {V : Type} (l : list (string * V)) : t V :=
    fold_left (fun m kv => set m (fst kv) (snd kv)) l empty.

  (** The representation invariant of a [Map]: no key occurs twice. *)
Definition wf {V : Type} (m : t V) : Prop := NoDup (keys m).

End JsMap.

(** ** [Set<string>] *)

Module JsSet.

Definition t : Type := list string.

Definition empty : t := [].

Definition has (s : t) (k : string) : bool :=
    existsb (String.eqb k) s.

Definition add (s : t) (k : string) : t :=
    if has s k then s else s ++ [k].

Definition of_list (l : list string) : t := fold_left add l empty.

Definition size (s : t) : nat := List.length s.

End JsSet.

(** ** Plain objects used as string-keyed records *)

Module JsObject.

Definition t (V : Type) : Type := list (string * V).

Definition empty {V : Type} : t V := [].

Definition proto_key : string := "__proto__"%string.

  (** [o[k] = v] on an object literal, [v] an object.  The key ["__proto__"]
      reaches the accessor inherited from [Object.prototype]: the assignment
      replaces the prototype of [o] and creates no own property. *)
Definition assign {V : Type} (o : t V) (k : string) (v : V) : t V :=
    if String.eqb k proto_key then o else JsMap.set o k v.

  (** [Object.fromEntries]: every pair defines an own data property. *)
Definition fromEntries {V : Type} (l : list (string * V)) : t V :=
    fold_left (fun o kv => JsMap.set o (fst kv) (snd kv)) l empty.

  (** [Object.entries]: the own enumerable properties, in creation order
      (the order is exact for keys that are not canonical array indices). *)
Definition entries {V : Type} (o : t V) : list (string * V) := o.

End JsObject.

(** ** [Array.prototype.sort] and [slice (0, n)] *)

Section JsArray.
Context {A : Type}.
Variable cmp : A -> A -> Q.

  (** [insert_sorted x l] places [x], which preceded every element of [l] in
      the input, in front of the first element that must not precede it. *)
Fixpoint insert_sorted (x : A) (l : list A) : list A :=
    match l with
    | [] => [x]
    | y :: l' =>
        if Qlt_bool 0 (cmp x y) then y :: insert_sorted x l' else x :: l
    end.

  (** [l.sort (cmp)].  The language requires the sort to be stable, so for a
      comparator that is a consistent ordering the result is determined; it
      is computed here by stable insertion. *)
Definition js_sort (l : list A) : list A := fold_right insert_sorted [] l.

End JsArray.

Definition slice0 {A : Type} (n : nat) (l : list A) : list A := firstn n l.

(** ** Strings *)

Definition is_upper (c : ascii) : bool :=
  let n := nat_of_ascii c in (65 <=? n)%nat && (n <=? 90)%nat.

Definition lower_char (c : ascii) : ascii :=
  if is_upper c then ascii_of_nat (nat_of_ascii c + 32) else c.

Fixpoint toLowerCase (s : string) : string :=
  match s with
  | EmptyString => EmptyString
  | String c s' => String (lower_char c) (toLowerCase s')
  end.

Fixpoint starts_with (p s : string) : bool :=
  match p, s with
  | EmptyString, _ => true
  | String a p', String b s' => Ascii.eqb a b && starts_with p' s'
  | String _ _, EmptyString => false
  end.

(** [s.includes (p)] *)
Fixpoint includes (s p : string) : bool :=
  starts_with p s ||
  match s with
  | EmptyString => false
  | String _ s' => includes s' p
  end.

(** The class [\w]. *)
Definition is_word (c : ascii) : bool :=
  let n := nat_of_ascii c in
  ((48 <=? n)%nat && (n <=? 57)%nat) || ((65 <=? n)%nat && (n <=? 90)%nat)
  || ((97 <=? n)%nat && (n <=? 122)%nat) || (n =? 95)%nat.

(** The class [\s] on ASCII text. *)
Definition is_space (c : ascii) : bool :=
  let n := nat_of_ascii c in
  ((9 <=? n)%nat && (n <=? 13)%nat) || (n =? 32)%nat.

(** [s.replace (/[^\w\s]/g, ' ')] *)
Fixpoint strip_punctuation (s : string) : string :=
  match s with
  | EmptyString => EmptyString
  | String c s' =>
      String (if is_word c || is_space c then c else " "%char)
             (strip_punctuation s')
  end.

Fixpoint rev_string (acc s : string) : string :=
  match s with
  | EmptyString => acc
  | String c s' => rev_string (String c acc) s'
  end.

(** [s.split (/\s+/)]: [cur] is the piece being read, reversed; [in_sep]
    tells that the previous character belonged to a separator. *)
Fixpoint split_spaces (s cur : string) (in_sep : bool) : list string :=
  match s with
  | EmptyString => [rev_string EmptyString cur]
  | String c s' =>
      if is_space c then
        if in_sep then split_spaces s' EmptyString true
        else rev_string EmptyString cur :: split_spaces s' EmptyString true
      else split_spaces s' (String c cur) false
  end.

(** ** Bag-of-words similarity *)

Definition tokenize (text : string) : JsSet.t :=
  JsSet.of_list
    (filter (fun t => (0 <? String.length t)%nat)
       (split_spaces (strip_punctuation (toLowerCase text)) EmptyString false)).

Definition Qnat (n : nat) : Q := inject_Z (Z.of_nat n).

Definition jaccardSimilarity (a b : string) : Q :=
  let setA := tokenize a in
  let setB := tokenize b in
  if ((JsSet.size setA =? 0) && (JsSet.size setB =? 0))%nat then 1
  else if ((JsSet.size setA =? 0) || (JsSet.size setB =? 0))%nat then 0
  else
    let intersection := List.length (filter (JsSet.has setB) setA) in
    let union := (JsSet.size setA + JsSet.size setB - intersection)%nat in
    if (union =? 0)%nat then 0 else Qnat intersection / Qnat union.

(** ** Entries *)

Module Types.

Inductive MemoryTier : Type := fleeting | short_term | long_term.

Record MemoryEntry : Type := mkEntry {
  id : string;
  content : string;
  importance : Q;
  accessCount : Z;
  createdAt : Z;
  lastAccessed : Z;
  tags : list string;
  associations : JsObject.t Q;
  source : MemoryTier
}.

(** [now] is the reading of [Date.now ()]. *)
Definition createMemoryEntry (id : string) (content : string) (importance : Q)
    (tags : list string) (source : MemoryTier) (now : Z) : MemoryEntry :=
  {| id := id;
     content := content;
     importance := Qmax 0 (Qmin 1 importance);
     accessCount := 0;
     createdAt := now;
     lastAccessed := now;
     tags := tags;
     associations := JsObject.empty;
     source := source |}.

(** [entry.accessCount++; entry.lastAccessed = Date.now ()] *)
Definition touch (e : MemoryEntry) (now : Z) : MemoryEntry :=
  {| id := id e;
     content := content e;
     importance := importance e;
     accessCount := accessCount e + 1;
     createdAt := createdAt e;
     lastAccessed := now;
     tags := tags e;
     associations := associations e;
     source := source e |}.

(** [{ ...entry, source }] *)
Definition with_source (e : MemoryEntry) (s : MemoryTier) : MemoryEntry :=
  {| id := id e;
     content := content e;
     importance := importance e;
     accessCount := accessCount e;
     createdAt := createdAt e;
     lastAccessed := lastAccessed e;
     tags := tags e;
     associations := associations e;
     source := s |}.

End Types.

Import Types.

Definition ms_per_day : Q := inject_Z (1000 * 60 * 60 * 24).

Section Relevance.
  (** [pow_half x] stands for [Math.pow (x, 0.5)]. *)
Variable pow_half : Q -> Q.

  (** The quotient is taken in [Q], which has no infinities; the source
      divides by zero only when the clock reads exactly one day before
      [lastAccessed]. *)
Definition calculateRelevance (entry : MemoryEntry) (now : Z) : Q :=
    let daysSinceAccess :=
      (inject_Z now - inject_Z (lastAccessed entry)) / ms_per_day in
    importance entry
    * pow_half (inject_Z (accessCount entry) / (1 + daysSinceAccess)).

  (** The comparator [(a, b) => calculateRelevance (b, now) -
      calculateRelevance (a, now)]. *)
Definition by_relevance_desc (now : Z) (a b : MemoryEntry) : Q :=
    calculateRelevance b now - calculateRelevance a now.

End Relevance.

(** ** The associative graph *)

Module HebbianNetwork.

Record t : Type := mk {
    associations : JsMap.t (JsMap.t Q);
    decayRate : Q;
    maxStrength : Q
  }.

Definition default_decayRate : Q := 0.05.
Definition default_maxStrength : Q := 1.
Definition default_amount : Q := 0.1.

Definition new (decayRate maxStrength : Q) : t :=
    mk JsMap.empty decayRate maxStrength.

Definition with_associations (net : t) (a : JsMap.t (JsMap.t Q)) : t :=
    mk a (decayRate net) (maxStrength net).

Definition ensureNode (net : t) (id : string) : t :=
    if JsMap.has (associations net) id then net
    else with_associations net (JsMap.set (associations net) id JsMap.empty).

  (** [this.associations.get (id)!]: the adjacency of a node known to be
      present. *)
Definition links (net : t) (id : string) : JsMap.t Q :=
    match JsMap.get (associations net) id with
    | Some l => l
    | None => JsMap.empty
    end.

  (** [this.associations.get (a)!.set (b, v)]: the adjacency of [a] is
      updated in place. *)
Definition set_link (net : t) (a b : string) (v : Q) : t :=
    with_associations net
      (JsMap.set (associations net) a (JsMap.set (links net a) b v)).

Definition strengthen (net : t) (idA idB : string) (amount : Q) : t :=
    let net := ensureNode net idA in
    let net := ensureNode net idB in
    let currentAB := or_zero (JsMap.get (links net idA) idB) in
    let currentBA := or_zero (JsMap.get (links net idB) idA) in
    let net :=
      set_link net idA idB (Qmin (maxStrength net) (Double.add currentAB amount)) in
    set_link net idB idA (Qmin (maxStrength net) (Double.add currentBA amount)).

Definition getStrength (net : t) (idA idB : string) : Q :=
    or_zero
      (match JsMap.get (associations net) idA with
       | Some l => JsMap.get l idB
       | None => None
       end).

Definition getAssociations (net : t) (id : string) : JsMap.t Q :=
    links net id.

Definition getStrongestAssociations (net : t) (id : string) (limit : nat)
    : list (string * Q) :=
    match JsMap.get (associations net) id with
    | None => []
    | Some assocs =>
        slice0 limit (js_sort (fun a b => snd b - snd a) (JsMap.entries assocs))
    end.

  (** One turn of the inner loop of [decay] on the live adjacency [m]. *)
Definition decay_link (rate : Q) (m : JsMap.t Q) (link : string * Q)
    : JsMap.t Q :=
    let '(targetId, strength) := link in
    let newStrength := Double.mul strength (Double.sub 1 rate) in
    if Double.ltb newStrength 0.01 then JsMap.delete m targetId
    else JsMap.set m targetId newStrength.

  (** The inner loop visits the links present when it starts: a deletion
      removes the link being visited and a [set] of a present key adds
      none. *)
Definition decay_links (rate : Q) (m : JsMap.t Q) : JsMap.t Q :=
    fold_left (decay_link rate) (JsMap.entries m) m.

Definition decay (net : t) : t :=
    with_associations net
      (map (fun node => (fst node, decay_links (decayRate net) (snd node)))
         (associations net)).

  (** The inner loop of [coActivate] for one [i]. *)
Definition coActivate_row (net : t) (x : string) (rest : list string) : t :=
    fold_left (fun n y => strengthen n x y default_amount) rest net.

Fixpoint coActivate (net : t) (ids : list string) : t :=
    match ids with
    | [] => net
    | x :: rest => coActivate (coActivate_row net x rest) rest
    end.

Definition removeNode (net : t) (id : string) : t :=
    with_associations net
      (map (fun node => (fst node, JsMap.delete (snd node) id))
         (JsMap.delete (associations net) id)).

Definition size (net : t) : nat := JsMap.size (associations net).

Definition toJSON (net : t) : JsObject.t (JsObject.t Q) :=
    fold_left
      (fun result node =>
         JsObject.assign result (fst node)
           (JsObject.fromEntries (JsMap.entries (snd node))))
      (JsMap.entries (associations net)) JsObject.empty.

  (** Omitted constructor arguments take the constructor's defaults. *)
Definition fromJSON (data : JsObject.t (JsObject.t Q))
      (decayRate maxStrength : option Q) : t :=
    let network :=
      new (match decayRate with Some r => r | None => default_decayRate end)
          (match maxStrength with Some s => s | None => default_maxStrength end)
    in
    fold_left
      (fun net node =>
         with_associations net
           (JsMap.set (associations net) (fst node)
              (JsMap.of_entries (JsObject.entries (snd node)))))
      (JsObject.entries data) network.

  (** Representation invariant: the outer map and every adjacency are
      [Map]s. *)
Definition wf (net : t) : Prop :=
    JsMap.wf (associations net)
    /\ Forall (fun node => JsMap.wf (snd node)) (associations net).

  (** The mutators named by the symmetry invariant. *)
Inductive op : Type :=
  | Strengthen (idA idB : string) (amount : Q)
  | CoActivate (ids : list string)
  | Decay
  | RemoveNode (id : string).

Definition apply (net : t) (o : op) : t :=
    match o with
    | Strengthen a b amount => strengthen net a b amount
    | CoActivate ids => coActivate net ids
    | Decay => decay net
    | RemoveNode id => removeNode net id
    end.

Definition run (net : t) (ops : list op) : t := fold_left apply ops net.

End HebbianNetwork.

(** ** The fleeting store *)

Module FleetingMemory.

Record t : Type := mk { store : JsMap.t MemoryEntry }.

Definition new : t := mk JsMap.empty.

Definition add (m : t) (content : string) (importance : Q)
      (tags : list string) (id : string) (now : Z) : MemoryEntry * t :=
    let entry := createMemoryEntry id content importance tags fleeting now in
    (entry, mk (JsMap.set (store m) id entry)).

Definition get (m : t) (id : string) (now : Z) : option MemoryEntry * t :=
    match JsMap.get (store m) id with
    | Some entry =>
        let entry := touch entry now in
        (Some entry, mk (JsMap.set (store m) id entry))
    | None => (None, m)
    end.

Definition matches (queryLower : string) (entry : MemoryEntry) : bool :=
    includes (toLowerCase (content entry)) queryLower
    || existsb (fun t => includes (toLowerCase t) queryLower) (tags entry).

Definition search (m : t) (query : string) : list MemoryEntry :=
    let queryLower := toLowerCase query in
    filter (matches queryLower) (JsMap.values (store m)).

Definition getAll (m : t) : list MemoryEntry := JsMap.values (store m).

Definition remove (m : t) (id : string) : bool * t :=
    (JsMap.has (store m) id, mk (JsMap.delete (store m) id)).

Definition clear (m : t) : t := mk JsMap.empty.

Definition size (m : t) : nat := JsMap.size (store m).

End FleetingMemory.

(** ** The working-set store *)

Module ShortTermMemory.

Record ShortTermConfig : Type := mkConfig {
    maxSize : nat;
    compressionThreshold : Q
  }.

Definition DEFAULT_CONFIG : ShortTermConfig :=
    {| maxSize := 50; compressionThreshold := 0.8 |}.

Record t : Type := mk {
    entries : list MemoryEntry;
    config : ShortTermConfig
  }.

Definition new (config : ShortTermConfig) : t := mk [] config.

Definition size (m : t) : nat := List.length (entries m).

  (** [this.entries.find (e => e.id === id)] followed by the bookkeeping on
      the entry found, which stays at its place in the array. *)
Fixpoint touch_first (l : list MemoryEntry) (id : string) (now : Z)
    : option MemoryEntry * list MemoryEntry :=
    match l with
    | [] => (None, [])
    | e :: l' =>
        if String.eqb (Types.id e) id then (Some (touch e now), touch e now :: l')
        else let (r, l'') := touch_first l' id now in (r, e :: l'')
    end.

Definition get (m : t) (id : string) (now : Z) : option MemoryEntry * t :=
    let (r, l) := touch_first (entries m) id now in (r, mk l (config m)).

Definition search (m : t) (query : string) (limit : nat) : list MemoryEntry :=
    let scored :=
      map (fun entry => (entry, jaccardSimilarity query (content entry)))
        (entries m) in
    map fst
      (slice0 limit
         (js_sort (fun a b => snd b - snd a)
            (filter (fun s => Qlt_bool 0 (snd s)) scored))).

Definition getAll (m : t) : list MemoryEntry := entries m.

  (** [this.entries.length / this.config.maxSize <
      this.config.compressionThreshold].  With [maxSize = 0] the quotient of
      the source is [Infinity] or [NaN], and the comparison is false. *)
Definition below_compression (m : t) : bool :=
    if (maxSize (config m) =? 0)%nat then false
    else Qlt_bool (Qnat (List.length (entries m)) / Qnat (maxSize (config m)))
           (compressionThreshold (config m)).

Definition promotable (e : MemoryEntry) : bool :=
    (3 <=? accessCount e)%Z || Qle_bool 0.7 (importance e).

Definition remove (m : t) (id : string) : bool * t :=
    (existsb (fun e => String.eqb (Types.id e) id) (entries m),
     mk ((fix drop (l : list MemoryEntry) : list MemoryEntry :=
            match l with
            | [] => []
            | e :: l' => if String.eqb (Types.id e) id then l' else e :: drop l'
            end) (entries m)) (config m)).

Definition clear (m : t) : t := mk [] (config m).

Section WithPow.
Variable pow_half : Q -> Q.

Definition evict (m : t) (now : Z) : t :=
      mk (slice0 (maxSize (config m))
            (js_sort (by_relevance_desc pow_half now) (entries m)))
         (config m).

    (** [now] is read by [createMemoryEntry], [now_evict] by [evict]. *)
Definition add (m : t) (content : string) (importance : Q)
        (tags : list string) (id : string) (now now_evict : Z)
      : MemoryEntry * t :=
      let entry := createMemoryEntry id content importance tags short_term now in
      let m := mk (entries m ++ [entry]) (config m) in
      let m :=
        if (maxSize (config m) <? List.length (entries m))%nat
        then evict m now_evict else m in
      (entry, m).

Definition compress (m : t) (now : Z) : list MemoryEntry * t :=
      if below_compression m then ([], m)
      else
        let sorted := js_sort (by_relevance_desc pow_half now) (entries m) in
        let promotionCandidates := filter promotable sorted in
        let promotedIds := JsSet.of_list (map Types.id promotionCandidates) in
        (promotionCandidates,
         mk (filter (fun e => negb (JsSet.has promotedIds (Types.id e))) (entries m))
            (config m)).

End WithPow.

End ShortTermMemory.

(** ** Files and exceptions *)

(** The outcome of an operation that may throw. *)
Inductive completion (A : Type) : Type :=
| Normal (a : A)
| Throw.

Arguments Normal {A} a.
Arguments Throw {A}.

Definition bind {A B : Type} (c : completion A) (k : A -> completion B)
  : completion B :=
  match c with
  | Normal a => k a
  | Throw => Throw
  end.

(** The persisted document. *)
Module StorageFormat.

Record t : Type := mk {
  entries : list MemoryEntry;
  associations : option (JsObject.t (JsObject.t Q));
  version : Z
}.

End StorageFormat.

(** The text of a file: either [JSON.stringify] of a document, which
    [JSON.parse] gives back, or text that [JSON.parse] rejects. *)
Inductive text : Type :=
| Stringified (d : StorageFormat.t)
| Garbage.

Inductive file : Type :=
| Missing
| Unreadable
| Readable (data : text).

Definition disk : Type := string -> file.

Definition readFile (d : disk) (path : string) : completion text :=
  match d path with
  | Readable data => Normal data
  | Missing | Unreadable => Throw
  end.

Definition writeFile (d : disk) (path : string) (data : text) : disk :=
  fun p => if String.eqb p path then Readable data else d p.

Definition JSON_parse (data : text) : completion StorageFormat.t :=
  match data with
  | Stringified d => Normal d
  | Garbage => Throw
  end.

Definition JSON_stringify (d : StorageFormat.t) : text := Stringified d.

(** ** The long-term store *)

Module LongTermMemory.

Record LongTermConfig : Type := mkConfig {
  storagePath : string;
  pruneThreshold : Q;
  maxEntries : nat
}.

Definition DEFAULT_CONFIG : LongTermConfig :=
  {| storagePath := ""; pruneThreshold := 0.01; maxEntries := 1000 |}.

Record t : Type := mk {
  entries : JsMap.t MemoryEntry;
  config : LongTermConfig;
  network : HebbianNetwork.t;
  dirty : bool
}.

Definition new (config : LongTermConfig) (network : option HebbianNetwork.t) : t :=
  mk JsMap.empty config
     (match network with
      | Some n => n
      | None => HebbianNetwork.new HebbianNetwork.default_decayRate
                  HebbianNetwork.default_maxStrength
      end)
     false.

Definition with_network (m : t) (n : HebbianNetwork.t) : t :=
  mk (entries m) (config m) n (dirty m).

(** [!this.config.storagePath] *)
Definition no_path (m : t) : bool := String.eqb (storagePath (config m)) "".

(** The statements of [load] that follow [JSON.parse]. *)
Definition install (m : t) (stored : StorageFormat.t) : t :=
  let entries :=
    fold_left (fun mp entry => JsMap.set mp (Types.id entry) entry)
      (StorageFormat.entries stored) JsMap.empty in
  mk entries (config m)
     (match StorageFormat.associations stored with
      | Some a => HebbianNetwork.fromJSON a None None
      | None => network m
      end)
     (dirty m).

(** The [try] block of [load]. *)
Definition load_try (m : t) (d : disk) : completion t :=
  bind (readFile d (storagePath (config m))) (fun data =>
  bind (JSON_parse data) (fun stored =>
  Normal (install m stored))).

(** [load]: the [catch] clause is empty, and nothing has been assigned when
    [readFile] or [JSON.parse] throws. *)
Definition load (m : t) (d : disk) : completion t :=
  if no_path m then Normal m
  else
    match load_try m d with
    | Normal m' => Normal m'
    | Throw => Normal m
    end.

Definition save (m : t) (d : disk) : t * disk :=
  if no_path m || negb (dirty m) then (m, d)
  else
    let stored :=
      {| StorageFormat.entries := JsMap.values (entries m);
         StorageFormat.associations := Some (HebbianNetwork.toJSON (network m));
         StorageFormat.version := 1 |} in
    (mk (entries m) (config m) (network m) false,
     writeFile d (storagePath (config m)) (JSON_stringify stored)).

Definition add (m : t) (content : string) (importance : Q)
    (tags : list string) (id : string) (now : Z) : MemoryEntry * t :=
  let entry := createMemoryEntry id content importance tags long_term now in
  (entry, mk (JsMap.set (entries m) id entry) (config m) (network m) true).

Definition promote (m : t) (entry : MemoryEntry) : MemoryEntry * t :=
  let promoted := with_source entry long_term in
  (promoted,
   mk (JsMap.set (entries m) (Types.id promoted) promoted) (config m)
      (network m) true).

Definition get (m : t) (id : string) (now : Z) : option MemoryEntry * t :=
  match JsMap.get (entries m) id with
  | Some entry =>
      let entry := touch entry now in
      (Some entry, mk (JsMap.set (entries m) id entry) (config m) (network m) true)
  | None => (None, m)
  end.

(** The entries [search] selects, each with the key it is stored under and
    its similarity. *)
Definition search_hits (m : t) (query : string) (limit : nat)
  : list ((string * MemoryEntry) * Q) :=
  let scored :=
    map (fun kv => (kv, jaccardSimilarity query (content (snd kv))))
      (JsMap.entries (entries m)) in
  slice0 limit
    (js_sort (fun a b => snd b - snd a)
       (filter (fun s => Qlt_bool 0 (snd s)) scored)).

(** [search]: the final [map] does the bookkeeping on every entry it
    returns; the entries are those of the store, so the store sees it. *)
Definition search (m : t) (query : string) (limit : nat) (now : Z)
  : list MemoryEntry * t :=
  let touched :=
    map (fun s => (fst (fst s), touch (snd (fst s)) now))
      (search_hits m query limit) in
  (map snd touched,
   mk (fold_left (fun mp kv => JsMap.set mp (fst kv) (snd kv)) touched (entries m))
      (config m) (network m)
      (match touched with [] => dirty m | _ :: _ => true end)).

(** One turn of the inner loop of [searchWithAssociations]; the state is
    [(associated, resultIds)]. *)
Definition associate (m : t) (st : list MemoryEntry * JsSet.t)
    (assoc : string * Q) : list MemoryEntry * JsSet.t :=
  let (associated, resultIds) := st in
  let id := fst assoc in
  if negb (JsSet.has resultIds id) then
    match JsMap.get (entries m) id with
    | Some assocEntry => (associated ++ [assocEntry], JsSet.add resultIds id)
    | None => st
    end
  else st.

Definition searchWithAssociations (m : t) (query : string) (limit : nat)
    (now : Z) : list MemoryEntry * t :=
  let (directResults, m) := search m query limit now in
  let resultIds := JsSet.of_list (map Types.id directResults) in
  let (associated, _) :=
    fold_left
      (fun st entry =>
         fold_left (associate m)
           (HebbianNetwork.getStrongestAssociations (network m) (Types.id entry) 3)
           st)
      directResults ([], resultIds) in
  (slice0 limit (directResults ++ associated), m).

Definition getNetwork (m : t) : HebbianNetwork.t := network m.

Definition getAll (m : t) : list MemoryEntry := JsMap.values (entries m).

Definition remove (m : t) (id : string) : bool * t :=
  let result := JsMap.has (entries m) id in
  (result,
   if result then
     mk (JsMap.delete (entries m) id) (config m)
        (HebbianNetwork.removeNode (network m) id) true
   else m).

Definition size (m : t) : nat := JsMap.size (entries m).

Section WithPow.
Variable pow_half : Q -> Q.

(** The test of [prune] on one entry. *)
Definition prunable (m : t) (now : Z) (entry : MemoryEntry) : bool :=
  let relevance := calculateRelevance pow_half entry now in
  Qlt_bool relevance (pruneThreshold (config m)) && (0 <? accessCount entry)%Z.

(** One turn of the loop of [prune]; the state is the live map, the graph
    and the counter. *)
Definition prune_step (m : t) (now : Z)
    (st : JsMap.t MemoryEntry * HebbianNetwork.t * nat)
    (kv : string * MemoryEntry) : JsMap.t MemoryEntry * HebbianNetwork.t * nat :=
  let '(live, net, pruned) := st in
  let (id, entry) := kv in
  if prunable m now entry then
    (JsMap.delete live id, HebbianNetwork.removeNode net id, S pruned)
  else st.

(** The loop visits the entries present when it starts: the only mutation
    is the deletion of the entry being visited. *)
Definition prune (m : t) (now : Z) : nat * t :=
  let '(live, net, pruned) :=
    fold_left (prune_step m now) (JsMap.entries (entries m))
      (entries m, network m, O) in
  (pruned, mk live (config m) net (if (0 <? pruned)%nat then true else dirty m)).

End WithPow.

End LongTermMemory.

(** ** The memory manager *)

Module MemoryManager.

Record MemoryManagerConfig : Type := mkConfig {
  storagePath : string;
  shortTermMaxSize : nat
}.

Definition DEFAULT_CONFIG : MemoryManagerConfig :=
  {| storagePath := ""; shortTermMaxSize := 50 |}.

Record t : Type := mk {
  fleeting : FleetingMemory.t;
  shortTerm : ShortTermMemory.t;
  longTerm : LongTermMemory.t;
  recentlyRecalled : list string
}.

Definition new (cfg : MemoryManagerConfig) : t :=
  {| fleeting := FleetingMemory.new;
     shortTerm :=
       ShortTermMemory.new
         {| ShortTermMemory.maxSize := shortTermMaxSize cfg;
            ShortTermMemory.compressionThreshold :=
              ShortTermMemory.compressionThreshold ShortTermMemory.DEFAULT_CONFIG |};
     longTerm :=
       LongTermMemory.new
         {| LongTermMemory.storagePath := storagePath cfg;
            LongTermMemory.pruneThreshold :=
              LongTermMemory.pruneThreshold LongTermMemory.DEFAULT_CONFIG;
            LongTermMemory.maxEntries :=
              LongTermMemory.maxEntries LongTermMemory.DEFAULT_CONFIG |}
         None;
     recentlyRecalled := [] |}.

Definition initialize (m : t) (d : disk) : completion t :=
  bind (LongTermMemory.load (longTerm m) d) (fun lt =>
  Normal (mk (fleeting m) (shortTerm m) lt (recentlyRecalled m))).

Definition getFleeting (m : t) : FleetingMemory.t := fleeting m.
Definition getShortTerm (m : t) : ShortTermMemory.t := shortTerm m.
Definition getLongTerm (m : t) : LongTermMemory.t := longTerm m.

Definition getStats (m : t) : nat * nat * nat :=
  (FleetingMemory.size (fleeting m), ShortTermMemory.size (shortTerm m),
   LongTermMemory.size (longTerm m)).

Definition save (m : t) (d : disk) : t * disk :=
  let (lt, d) := LongTermMemory.save (longTerm m) d in
  (mk (fleeting m) (shortTerm m) lt (recentlyRecalled m), d).

(** [addResults (entries, tierBoost)]; the state is [(seen, merged)]. *)
Definition addResults (query : string) (tierBoost : Q)
    (st : JsSet.t * list (MemoryEntry * Q)) (entries : list MemoryEntry)
  : JsSet.t * list (MemoryEntry * Q) :=
  fold_left
    (fun (st : JsSet.t * list (MemoryEntry * Q)) entry =>
       let (seen, merged) := st in
       if negb (JsSet.has seen (Types.id entry)) then
         let similarity := jaccardSimilarity query (content entry) in
         (JsSet.add seen (Types.id entry), merged ++ [(entry, Double.add similarity tierBoost)])
       else st)
    entries st.

(** The three searches of [recall] and the merged, scored list. *)
Definition recall_merged (m : t) (query : string) (limit : nat) (now : Z)
  : list (MemoryEntry * Q) * LongTermMemory.t :=
  let (longTermResults, lt) :=
    LongTermMemory.searchWithAssociations (longTerm m) query limit now in
  let shortTermResults := ShortTermMemory.search (shortTerm m) query limit in
  let fleetingResults := FleetingMemory.search (fleeting m) query in
  let st : JsSet.t * list (MemoryEntry * Q) := (JsSet.empty, []) in
  let st := addResults query 0.2 st longTermResults in
  let st := addResults query 0.1 st shortTermResults in
  let st := addResults query 0 st fleetingResults in
  (snd st, lt).

Definition recall (m : t) (query : string) (limit : nat) (now : Z)
  : list MemoryEntry * t :=
  let (merged, lt) := recall_merged m query limit now in
  let merged := js_sort (fun a b => snd b - snd a) merged in
  let results := map fst (slice0 limit merged) in
  let recalledIds := map Types.id results in
  let lt :=
    if (1 <? List.length recalledIds)%nat then
      LongTermMemory.with_network lt
        (HebbianNetwork.coActivate (LongTermMemory.getNetwork lt) recalledIds)
    else lt in
  (results, mk (fleeting m) (shortTerm m) lt recalledIds).

Section WithPow.
Variable pow_half : Q -> Q.

(** [id] and [now] are the results of [generateId] and [Date.now] in the
    store's [add]; [now_evict] is read only if the working set evicts. *)
Definition remember (m : t) (content : string) (importance : Q)
    (tags : list string) (id : string) (now now_evict : Z) : MemoryEntry * t :=
  if Qle_bool 0.7 importance then
    let (entry, lt) := LongTermMemory.add (longTerm m) content importance tags id now in
    (entry, mk (fleeting m) (shortTerm m) lt (recentlyRecalled m))
  else if Qle_bool 0.4 importance then
    let (entry, st) :=
      ShortTermMemory.add pow_half (shortTerm m) content importance tags id now
        now_evict in
    (entry, mk (fleeting m) st (longTerm m) (recentlyRecalled m))
  else
    let (entry, fl) := FleetingMemory.add (fleeting m) content importance tags id now in
    (entry, mk fl (shortTerm m) (longTerm m) (recentlyRecalled m)).

(** The loop [for (const entry of promoted) this.longTerm.promote (entry)]. *)
Definition promote_all (lt : LongTermMemory.t) (promoted : list MemoryEntry)
  : LongTermMemory.t :=
  fold_left (fun lt entry => snd (LongTermMemory.promote lt entry)) promoted lt.

(** [now_compress] is read by [compress], [now_prune] by [prune]. *)
Definition consolidate (m : t) (now_compress now_prune : Z) (d : disk)
  : nat * t * disk :=
  let (promoted, st) := ShortTermMemory.compress pow_half (shortTerm m) now_compress in
  let lt := promote_all (longTerm m) promoted in
  let lt := LongTermMemory.with_network lt
              (HebbianNetwork.decay (LongTermMemory.getNetwork lt)) in
  let (pruned, lt) := LongTermMemory.prune pow_half lt now_prune in
  let fl := FleetingMemory.clear (fleeting m) in
  let (lt, d) := LongTermMemory.save lt d in
  (List.length promoted, mk fl st lt (recentlyRecalled m), d).

End WithPow.

End MemoryManager.

(** ** Sample states used by the examples *)

Definition sample_entry (k c : string) (i : Q) (n : Z) (tier : MemoryTier)
  : MemoryEntry :=
  {| id := k; content := c; importance := i; accessCount := n;
     createdAt := 0; lastAccessed := 0; tags := [];
     associations := JsObject.empty; source := tier |}.

(** A long-term store that holds one entry and is configured with a path
    at which there is no file. *)
Definition lt_one_entry : LongTermMemory.t :=
  snd (LongTermMemory.add
         (LongTermMemory.new
            {| LongTermMemory.storagePath := "/nonexistent/path.json";
               LongTermMemory.pruneThreshold := 0.01;
               LongTermMemory.maxEntries := 1000 |} None)
         "important discovery" 0.9 [] "id-1" 0).

Definition empty_disk : disk := fun _ => Missing.

(** The storage file cannot be read or cannot be parsed. *)
Definition unavailable (d : disk) (path : string) : Prop :=
  d path = Missing \/ d path = Unreadable \/ d path = Readable Garbage.

(** A working-set store that holds one entry, never read so far. *)
Definition st_one_entry : ShortTermMemory.t :=
  ShortTermMemory.mk [sample_entry "id-1" "cache system" 0.5 0 short_term]
    {| ShortTermMemory.maxSize := 5;
       ShortTermMemory.compressionThreshold := 0.8 |}.

(** A fleeting store that holds one entry, never read so far. *)
Definition fl_one_entry : FleetingMemory.t :=
  FleetingMemory.mk [("id-1"%string, sample_entry "id-1" "cache system" 0.2 0 fleeting)].

(** The first entry of a working set with a given id, as [find] sees it. *)
Definition find_by_id (l : list MemoryEntry) (k : string) : option MemoryEntry :=
  find (fun e => String.eqb (id e) k) l.

(** A rational stand-in for [Math.pow (x, 0.5)], used where an example
    needs a value: the square root rounded down to three decimals. *)
Definition pow_half_approx (x : Q) : Q :=
  inject_Z (Z.sqrt (Qfloor (x * 1000000))) / 1000.

Definition ninety_days : Z := 90 * 24 * 60 * 60 * 1000.

(** A long-term store with an entry of importance 0.01 that was read once
    and one that was never read, both last accessed at time 0. *)
Definition lt_two_aged : LongTermMemory.t :=
  LongTermMemory.mk
    [("old-read"%string, sample_entry "old-read" "old memory" 0.01 1 long_term);
     ("old-unread"%string, sample_entry "old-unread" "new memory" 0.01 0 long_term)]
    LongTermMemory.DEFAULT_CONFIG
    (HebbianNetwork.strengthen
       (HebbianNetwork.new 0.05 1) "old-read" "old-unread" 0.5)
    false.

(** The stored weight of the directed link from [a] to [b], if any:
    [this.associations.get (a)?.get (b)]. *)
Definition edge (net : HebbianNetwork.t) (a b : string) : option Q :=
  match JsMap.get (HebbianNetwork.associations net) a with
  | Some l => JsMap.get l b
  | None => None
  end.

(** What [decay] makes of one stored weight. *)
Definition decayed (rate : Q) (s : Q) : option Q :=
  let s' := Double.mul s (Double.sub 1 rate) in
  if Double.ltb s' 0.01 then None else Some s'.

(** The graph is symmetric, as [getStrength] reports it. *)
Definition symmetric (net : HebbianNetwork.t) : Prop :=
  forall a b, HebbianNetwork.getStrength net a b = HebbianNetwork.getStrength net b a.

(** A graph with one edge, one of whose ends has the id ["__proto__"]. *)
Definition proto_graph : HebbianNetwork.t :=
  HebbianNetwork.strengthen (HebbianNetwork.new 0.05 1) "__proto__" "b" 0.5.

(** The invariant carried through the operations of the graph. *)
Definition graph_inv (net : HebbianNetwork.t) : Prop :=
  HebbianNetwork.wf net /\ symmetric net.

(** One call of [add]: its arguments, the id it generates and the two
    clock readings it may take. *)
Record add_call : Type := mkCall {
  call_content : string;
  call_importance : Q;
  call_tags : list string;
  call_id : string;
  call_now : Z;
  call_now_evict : Z
}.

(** A sequence of [add] calls on a working-set store. *)
Definition run_adds (pow_half : Q -> Q) (m : ShortTermMemory.t)
    (calls : list add_call) : ShortTermMemory.t :=
  fold_left
    (fun m c =>
       snd (ShortTermMemory.add pow_half m (call_content c) (call_importance c)
              (call_tags c) (call_id c) (call_now c) (call_now_evict c)))
    calls m.

(** A working set configured with [maxSize = 5] that holds five entries,
    the third of which was read four times. *)
Definition st_full : ShortTermMemory.t :=
  ShortTermMemory.mk
    [sample_entry "e0" "entry 0" 0.5 1 short_term;
     sample_entry "e1" "entry 1" 0.5 2 short_term;
     sample_entry "e2" "entry 2" 0.5 4 short_term;
     sample_entry "e3" "entry 3" 0.6 1 short_term;
     sample_entry "e4" "entry 4" 0.4 1 short_term]
    {| ShortTermMemory.maxSize := 5;
       ShortTermMemory.compressionThreshold := 0.8 |}.

(** *** [recall], phrased as the specification phrases it *)

(** The results of the three tier searches in order of precedence, each
    entry with the boost of the tier it comes from. *)
Definition tier_candidates (longTermResults shortTermResults fleetingResults :
    list MemoryEntry) : list (MemoryEntry * Q) :=
  map (fun e => (e, 0.2)) longTermResults
  ++ map (fun e => (e, 0.1)) shortTermResults
  ++ map (fun e => (e, 0)) fleetingResults.

(** Merge by id, the first occurrence winning; [seen] holds the ids that
    already occurred. *)
Fixpoint first_by_id (seen : JsSet.t) (l : list (MemoryEntry * Q))
  : list (MemoryEntry * Q) :=
  match l with
  | [] => []
  | eb :: l' =>
      if JsSet.has seen (id (fst eb)) then first_by_id seen l'
      else eb :: first_by_id (JsSet.add seen (id (fst eb))) l'
  end.

(** The ids that occurred once [l] has been read. *)
Fixpoint seen_after (seen : JsSet.t) (l : list (MemoryEntry * Q)) : JsSet.t :=
  match l with
  | [] => seen
  | eb :: l' =>
      seen_after
        (if JsSet.has seen (id (fst eb)) then seen
         else JsSet.add seen (id (fst eb))) l'
  end.

(** Lexical similarity of the query to the content, plus the tier boost. *)
Definition combined_score (query : string) (eb : MemoryEntry * Q) : Q :=
  Double.add (jaccardSimilarity query (content (fst eb))) (snd eb).

Definition with_score (query : string) (eb : MemoryEntry * Q) : MemoryEntry * Q :=
  (fst eb, combined_score query eb).

(** The surviving entries, each with its combined score. *)
Definition merged_scored (query : string)
    (longTermResults shortTermResults fleetingResults : list MemoryEntry)
  : list (MemoryEntry * Q) :=
  map (with_score query)
    (first_by_id JsSet.empty
       (tier_candidates longTermResults shortTermResults fleetingResults)).

(** Descending order by a key. *)
Definition desc_by {A : Type} (key : A -> Q) (a b : A) : Prop := key b <= key a.

(** Descending order of scored entries. *)
Definition score_desc (a b : MemoryEntry * Q) : Prop := desc_by snd a b.


(** [k] is a node of the graph. *)
Definition is_node (net : HebbianNetwork.t) (k : string) : bool :=
  JsMap.has (HebbianNetwork.associations net) k.


(** *** [consolidate], phrased as the specification phrases it *)










(** The manager of the repository's recall test: one long-term and one
    working-set entry about the same subject. *)
Definition manager_two_tiers : MemoryManager.t :=
  let m := MemoryManager.new
             {| MemoryManager.storagePath := "/tmp/memory.json";
                MemoryManager.shortTermMaxSize := 10 |} in
  let m := snd (MemoryManager.remember pow_half_approx m
                  "cache architecture in long term" 0.9 [] "id-long" 1000 1000) in
  snd (MemoryManager.remember pow_half_approx m
         "cache architecture in short term" 0.5 [] "id-short" 1000 1000).

(** Seven calls of [add] with importances 0, 0.1, ..., 0.6. *)
Definition seven_calls : list add_call :=
  map (fun n => mkCall "entry" (inject_Z (Z.of_nat n) / 10) [] "id" 1000 1000)
    (seq 0 7).

(** *** Further sample states and predicates *)

(** The graph of the repository's graph tests. *)
Definition sample_graph : HebbianNetwork.t :=
  HebbianNetwork.run (HebbianNetwork.new 0.1 1)
    [HebbianNetwork.Strengthen "a" "b" 0.5; HebbianNetwork.Strengthen "a" "c" 0.3;
     HebbianNetwork.Strengthen "a" "d" 0.1].

(** Every [strengthen] of a run adds a non-negative amount. *)
Definition nonneg_amounts (ops : list HebbianNetwork.op) : Prop :=
  Forall (fun o =>
            match o with
            | HebbianNetwork.Strengthen _ _ amount => 0 <= amount
            | _ => True
            end) ops.

(** Every strength of the graph lies between 0 and [M]. *)
Definition bounded_by (M : Q) (net : HebbianNetwork.t) : Prop :=
  forall a b, 0 <= HebbianNetwork.getStrength net a b
              /\ HebbianNetwork.getStrength net a b <= M.

(** Every character of a string passes a test. *)
Fixpoint string_forall (P : ascii -> bool) (s : string) : bool :=
  match s with
  | EmptyString => true
  | String c s' => P c && string_forall P s'
  end.

(** A character of a token: a digit, a lowercase letter or an underscore. *)
Definition token_char (c : ascii) : bool := is_word c && negb (is_upper c).

(** *** Runs of operations on the long-term store *)

Inductive lt_op : Type :=
| LtAdd (content : string) (importance : Q) (tags : list string) (id : string)
    (now : Z)
| LtPromote (entry : MemoryEntry)
| LtGet (id : string) (now : Z)
| LtSearch (query : string) (limit : nat) (now : Z)
| LtSearchWithAssociations (query : string) (limit : nat) (now : Z)
| LtPrune (now : Z)
| LtRemove (id : string)
| LtLoad (d : disk)
| LtSave (d : disk).

Definition lt_apply (pow_half : Q -> Q) (m : LongTermMemory.t) (o : lt_op)
  : LongTermMemory.t :=
  match o with
  | LtAdd c i tg k now => snd (LongTermMemory.add m c i tg k now)
  | LtPromote e => snd (LongTermMemory.promote m e)
  | LtGet k now => snd (LongTermMemory.get m k now)
  | LtSearch q limit now => snd (LongTermMemory.search m q limit now)
  | LtSearchWithAssociations q limit now =>
      snd (LongTermMemory.searchWithAssociations m q limit now)
  | LtPrune now => snd (LongTermMemory.prune pow_half m now)
  | LtRemove k => snd (LongTermMemory.remove m k)
  | LtLoad d => match LongTermMemory.load m d with Normal m' => m' | Throw => m end
  | LtSave d => fst (LongTermMemory.save m d)
  end.

Definition lt_run (pow_half : Q -> Q) (m : LongTermMemory.t) (ops : list lt_op)
  : LongTermMemory.t :=
  fold_left (lt_apply pow_half) ops m.

(** Every entry of the map is stored under its own id. *)
Definition keyed_by_id (m : JsMap.t MemoryEntry) : Prop :=
  Forall (fun kv => fst kv = id (snd kv)) m.

(** The representation invariant of the long-term store. *)
Definition store_ok (m : LongTermMemory.t) : Prop :=
  JsMap.wf (LongTermMemory.entries m)
  /\ keyed_by_id (LongTermMemory.entries m)
  /\ HebbianNetwork.wf (LongTermMemory.network m).

(** The state of the loops of [searchWithAssociations]: the entries
    collected so far were read from the store under distinct ids, none the
    id of a direct result, each among the three strongest links of a direct
    result; the set holds these ids and those of the direct results. *)
Definition associated_inv (m1 : LongTermMemory.t) (direct : list MemoryEntry)
    (st : list MemoryEntry * JsSet.t) : Prop :=
  exists ks,
    Forall2 (fun k e => JsMap.get (LongTermMemory.entries m1) k = Some e) ks (fst st)
    /\ NoDup ks
    /\ (forall k, In k ks ->
          ~ In k (map id direct)
          /\ exists d, In d direct
                       /\ In k (map fst (HebbianNetwork.getStrongestAssociations
                                           (LongTermMemory.network m1) (id d) 3)))
    /\ (forall k, JsSet.has (snd st) k = true <-> In k (map id direct) \/ In k ks).

(** *** Runs of operations on the memory manager *)

(** The state is the manager and the files it reads and writes. *)
Inductive mm_op : Type :=
| MmRemember (content : string) (importance : Q) (tags : list string)
    (id : string) (now now_evict : Z)
| MmRecall (query : string) (limit : nat) (now : Z)
| MmConsolidate (now_compress now_prune : Z)
| MmSave
| MmInitialize.

Definition mm_apply (pow_half : Q -> Q) (s : MemoryManager.t * disk) (o : mm_op)
  : MemoryManager.t * disk :=
  let (m, d) := s in
  match o with
  | MmRemember c i tg k now now_evict =>
      (snd (MemoryManager.remember pow_half m c i tg k now now_evict), d)
  | MmRecall q limit now => (snd (MemoryManager.recall m q limit now), d)
  | MmConsolidate now_compress now_prune =>
      let '(_, m', d') := MemoryManager.consolidate pow_half m now_compress now_prune d in
      (m', d')
  | MmSave => MemoryManager.save m d
  | MmInitialize =>
      match MemoryManager.initialize m d with
      | Normal m' => (m', d)
      | Throw => (m, d)
      end
  end.

Definition mm_run (pow_half : Q -> Q) (s : MemoryManager.t * disk)
    (ops : list mm_op) : MemoryManager.t * disk :=
  fold_left (mm_apply pow_half) ops s.

(** ** Deterministic ids *)

Module IdGenerator.

(** The module-level variables of the id generator. *)
Record t : Type := mk {
  deterministicCounter : N;
  deterministicPrefix : string
}.

Definition initial : t := mk 0 "test".

Definition setDeterministicMode (prefix : string) (s : t) : t := mk 0 prefix.

(** [++x] on a number that holds an integer of at most 2^53: beyond
    2^53 - 1 the sum [x + 1] is not representable and rounds back to
    2^53. *)
Definition increment (c : N) : N :=
  if (c <? 9007199254740992)%N then (c + 1)%N else c.

(** [String (n)] for an integer below 10^21: its decimal digits. *)
Definition String_of (n : N) : string :=
  DecimalString.NilZero.string_of_uint (N.to_uint n).

Fixpoint zeros (k : nat) : string :=
  match k with
  | O => EmptyString
  | S k => String "0" (zeros k)
  end.

(** [s.padStart (targetLength, '0')] *)
Definition padStart (s : string) (targetLength : nat) : string :=
  (zeros (targetLength - String.length s) ++ s)%string.

Definition generateDeterministicId (s : t) : string * t :=
  let c := increment (deterministicCounter s) in
  ((deterministicPrefix s ++ "-" ++ padStart (String_of c) 4)%string,
   mk c (deterministicPrefix s)).

End IdGenerator.

(** [n] calls of [generateDeterministicId] in a row. *)
Fixpoint generate_ids (n : nat) (s : IdGenerator.t) : list string * IdGenerator.t :=
  match n with
  | O => ([], s)
  | S n =>
      let (i, s) := IdGenerator.generateDeterministicId s in
      let (l, s) := generate_ids n s in
      (i :: l, s)
  end.

(** The number a string of decimal digits denotes. *)
Definition decode_digits (s : string) : option N :=
  option_map N.of_uint (DecimalString.NilEmpty.uint_of_string s).

(** The id made of a prefix and a counter value. *)
Definition id_of (prefix : string) (c : N) : string :=
  (prefix ++ "-" ++ IdGenerator.padStart (IdGenerator.String_of c) 4)%string.

(** The assertion [expect (x).toBeCloseTo (expected)] of the repository's
    tests, with its default precision of two digits. *)
Definition toBeCloseTo (x expected : Q) : Prop :=
  - (1 # 200) < x - expected /\ x - expected < 1 # 200.

(** A manager with a long-term entry of similarity 0.7 and a working-set
    entry of similarity 0.8 to the query ["a b c d e f g h i j"]. *)
Definition manager_near_tie : MemoryManager.t :=
  let m := MemoryManager.new
             {| MemoryManager.storagePath := "/tmp/memory.json";
                MemoryManager.shortTermMaxSize := 10 |} in
  let m := snd (MemoryManager.remember pow_half_approx m
                  "a b c d e f g" 0.9 [] "id-long" 1000 1000) in
  snd (MemoryManager.remember pow_half_approx m
         "a b c d e f g h" 0.5 [] "id-short" 1000 1000).

(** * Properties *)

(** ** Tier routing *)

Lemma add_source_long (m : LongTermMemory.t) c i tg k now :
  source (fst (LongTermMemory.add m c i tg k now)) = long_term.
Proof. reflexivity. Qed.

Lemma add_source_short pow (m : ShortTermMemory.t) c i tg k now now' :
  source (fst (ShortTermMemory.add pow m c i tg k now now')) = short_term.
Proof. reflexivity. Qed.

Lemma add_source_fleeting (m : FleetingMemory.t) c i tg k now :
  source (fst (FleetingMemory.add m c i tg k now)) = fleeting.
Proof. reflexivity. Qed.



(** ** Facts about maps *)

Section JsMapFacts.
Context {V : Type}.
Implicit Types (m : JsMap.t V) (k : string) (v : V).

Lemma get_set_same m k v : JsMap.get (JsMap.set m k v) k = Some v.
Proof.
  induction m as [|[k' v'] m IH]; cbn.
  - now rewrite String.eqb_refl.
  - destruct (String.eqb k' k) eqn:E; cbn.
    + now rewrite String.eqb_refl.
    + now rewrite E.
Qed.

Lemma get_set_other m k k' v :
  k <> k' -> JsMap.get (JsMap.set m k v) k' = JsMap.get m k'.
Proof.
  intros Hne. induction m as [|[k0 v0] m IH]; cbn.
  - apply String.eqb_neq in Hne. now rewrite Hne.
  - destruct (String.eqb k0 k) eqn:E; cbn.
    + apply String.eqb_eq in E. subst k0.
      apply String.eqb_neq in Hne. now rewrite Hne.
    + destruct (String.eqb k0 k'); [reflexivity | exact IH].
Qed.

Lemma get_set m k k' v :
  JsMap.get (JsMap.set m k v) k' =
  if String.eqb k k' then Some v else JsMap.get m k'.
Proof.
  destruct (String.eqb k k') eqn:E.
  - apply String.eqb_eq in E. subst. apply get_set_same.
  - apply String.eqb_neq in E. now apply get_set_other.
Qed.

Lemma get_None_keys m k : JsMap.get m k = None <-> ~ In k (JsMap.keys m).
Proof.
  induction m as [|[k' v'] m IH]; cbn.
  - tauto.
  - destruct (String.eqb k' k) eqn:E.
    + apply String.eqb_eq in E. subst. split; [discriminate | tauto].
    + apply String.eqb_neq in E. rewrite IH. tauto.
Qed.

Lemma has_keys m k : JsMap.has m k = true <-> In k (JsMap.keys m).
Proof.
  unfold JsMap.has. destruct (JsMap.get m k) eqn:E.
  - split; [intros _ | reflexivity].
    destruct (in_dec string_dec k (JsMap.keys m)) as [H|H]; [exact H|].
    apply get_None_keys in H. congruence.
  - apply get_None_keys in E. split; [discriminate | contradiction].
Qed.

Lemma get_Some_In m k v : JsMap.get m k = Some v -> In (k, v) m.
Proof.
  induction m as [|[k' v'] m IH]; cbn; [discriminate|].
  destruct (String.eqb k' k) eqn:E.
  - apply String.eqb_eq in E. intros [= ->]. subst. now left.
  - intros H. right. now apply IH.
Qed.

Lemma get_In m k v : JsMap.wf m -> In (k, v) m -> JsMap.get m k = Some v.
Proof.
  unfold JsMap.wf. induction m as [|[k' v'] m IH]; cbn; [tauto|].
  intros Hnd [H|H].
  - injection H as -> ->. now rewrite String.eqb_refl.
  - inversion Hnd as [|? ? Hnot Hnd']; subst.
    destruct (String.eqb k' k) eqn:E.
    + apply String.eqb_eq in E. subst. exfalso. apply Hnot.
      change k with (fst (k, v)). now apply in_map.
    + now apply IH.
Qed.

Lemma keys_set m k v :
  JsMap.keys (JsMap.set m k v) =
  if JsMap.has m k then JsMap.keys m else JsMap.keys m ++ [k].
Proof.
  unfold JsMap.has, JsMap.keys.
  induction m as [|[k' v'] m IH]; cbn; [reflexivity|].
  destruct (String.eqb k' k) eqn:E; cbn.
  - apply String.eqb_eq in E. now subst.
  - rewrite IH. now destruct (JsMap.get m k).
Qed.

Lemma wf_set m k v : JsMap.wf m -> JsMap.wf (JsMap.set m k v).
Proof.
  unfold JsMap.wf. intros H. rewrite keys_set.
  destruct (JsMap.has m k) eqn:E; [exact H|].
  apply NoDup_app; [exact H | repeat constructor; intros [] |].
  intros x Hx [<-|[]].
  apply has_keys in Hx. congruence.
Qed.

Lemma keys_delete m k :
  JsMap.keys (JsMap.delete m k) =
  filter (fun k' => negb (String.eqb k' k)) (JsMap.keys m).
Proof.
  unfold JsMap.keys, JsMap.delete.
  induction m as [|[k' v'] m IH]; cbn; [reflexivity|].
  destruct (String.eqb k' k); cbn; now rewrite IH.
Qed.

Lemma wf_delete m k : JsMap.wf m -> JsMap.wf (JsMap.delete m k).
Proof.
  unfold JsMap.wf. rewrite keys_delete. apply NoDup_filter.
Qed.

Lemma get_delete m k k' :
  JsMap.get (JsMap.delete m k) k' =
  if String.eqb k k' then None else JsMap.get m k'.
Proof.
  unfold JsMap.delete.
  induction m as [|[k0 v0] m IH]; cbn.
  - now destruct (String.eqb k k').
  - destruct (String.eqb k0 k) eqn:E; cbn.
    + apply String.eqb_eq in E. subst k0. rewrite IH.
      now destruct (String.eqb k k').
    + destruct (String.eqb k0 k') eqn:E'; [|exact IH].
      apply String.eqb_eq in E'. subst k0.
      rewrite String.eqb_sym in E. now rewrite E.
Qed.

Lemma wf_nil : JsMap.wf (@nil (string * V)).
Proof. constructor. Qed.

End JsMapFacts.

(** ** Facts about [sort] and [slice] *)

Lemma Qlt_bool_iff x y : Qlt_bool x y = true <-> x < y.
Proof.
  unfold Qlt_bool. rewrite negb_true_iff. split.
  - intros H. apply Qnot_le_lt. intros Hle.
    apply Qle_bool_iff in Hle. congruence.
  - intros H. destruct (Qle_bool y x) eqn:E; [|reflexivity].
    apply Qle_bool_iff in E. lra.
Qed.

Lemma Qlt_bool_false x y : Qlt_bool x y = false <-> y <= x.
Proof.
  unfold Qlt_bool. rewrite negb_false_iff. apply Qle_bool_iff.
Qed.

(** ** Rounding to a double *)

Lemma two_pos k : 0 < 2 ^ k.
Proof. apply Qpower_0_lt. reflexivity. Qed.

Lemma two_succ k : 2 ^ (k + 1) == 2 * 2 ^ k.
Proof. rewrite Qpower_plus by discriminate. rewrite Qpower_1_r. ring. Qed.

Lemma two_Z k : (0 <= k)%Z -> 2 ^ k == inject_Z (2 ^ k).
Proof. intros H. now rewrite Zpower_Qpower. Qed.

Lemma Zlog2_Q (n : Z) :
  (0 < n)%Z -> 2 ^ Z.log2 n <= inject_Z n /\ inject_Z n < 2 * 2 ^ Z.log2 n.
Proof.
  intros Hn. destruct (Z.log2_spec n Hn) as [H1 H2].
  pose proof (Z.log2_nonneg n) as H0.
  rewrite Z.pow_succ_r in H2 by exact H0.
  rewrite (two_Z _ H0). split.
  - now rewrite <- Zle_Qle.
  - change 2 with (inject_Z 2) at 1.
    rewrite <- inject_Z_mult, <- Zlt_Qlt. exact H2.
Qed.

Lemma ilog2_spec q :
  0 < q -> 2 ^ Double.ilog2 q <= q /\ q < 2 ^ (Double.ilog2 q + 1).
Proof.
  intros Hq. destruct q as [n d].
  assert (Hn : (0 < n)%Z).
  { unfold Qlt in Hq. cbn in Hq. lia. }
  destruct (Zlog2_Q n Hn) as [Ha1 Ha2].
  destruct (Zlog2_Q (Zpos d) eq_refl) as [Hb1 Hb2].
  unfold Double.ilog2. cbn [Qnum Qden].
  set (a := Z.log2 n) in *. set (b := Z.log2 (Zpos d)) in *.
  pose proof (two_pos a) as HA. pose proof (two_pos b) as HB.
  assert (Hq' : n # d == inject_Z n / inject_Z (Zpos d)) by apply Qmake_Qdiv.
  assert (HD : 0 < inject_Z (Zpos d)) by reflexivity.
  assert (Hup : n # d < 2 ^ (a - b + 1)).
  { rewrite two_succ, Qpower_minus by discriminate. rewrite Hq'.
    apply Qlt_shift_div_r; [exact HD|].
    unfold Qdiv. 
    assert (E : 2 * (2 ^ a * / 2 ^ b) * inject_Z (Zpos d)
                == (2 * 2 ^ a) * (inject_Z (Zpos d) / 2 ^ b)) by (unfold Qdiv; ring).
    rewrite E.
    assert (H1 : 1 <= inject_Z (Zpos d) / 2 ^ b).
    { apply Qle_shift_div_l; [exact HB|]. now rewrite Qmult_1_l. }
    nra. }
  assert (Hlow : 2 ^ (a - b - 1) <= n # d).
  { assert (E : (a - b - 1 = a - (b + 1))%Z) by lia. rewrite E.
    rewrite Qpower_minus by discriminate. rewrite two_succ, Hq'.
    apply Qle_shift_div_l; [exact HD|].
    assert (E2 : 2 ^ a / (2 * 2 ^ b) * inject_Z (Zpos d)
                 == 2 ^ a * (inject_Z (Zpos d) / (2 * 2 ^ b))).
    { unfold Qdiv. ring. }
    rewrite E2.
    assert (H1 : inject_Z (Zpos d) / (2 * 2 ^ b) <= 1).
    { apply Qle_shift_div_r; [lra|]. lra. }
    assert (H2 : 0 <= inject_Z (Z.pos d) / (2 * 2 ^ b)).
    { apply Qle_shift_div_l; [lra|]. lra. }
    nra. }
  destruct (Qle_bool (2 ^ (a - b)) (n # d)) eqn:E.
  - apply Qle_bool_iff in E. split; [exact E | exact Hup].
  - split; [exact Hlow|].
    assert (E' : (a - b - 1 + 1 = a - b)%Z) by lia. rewrite E'.
    apply Qnot_le_lt. intros H. apply Qle_bool_iff in H. congruence.
Qed.

Lemma ilog2_le x y : 0 < x -> x <= y -> (Double.ilog2 x <= Double.ilog2 y)%Z.
Proof.
  intros Hx Hxy.
  destruct (ilog2_spec x Hx) as [H1 _].
  destruct (ilog2_spec y) as [_ H2]; [lra|].
  assert (H : 2 ^ Double.ilog2 x < 2 ^ (Double.ilog2 y + 1)) by lra.
  apply Qpower_lt_compat_l_inv in H; [lia | reflexivity].
Qed.

Lemma rne_bounds x : (Qfloor x <= Double.rne x <= Qfloor x + 1)%Z.
Proof.
  unfold Double.rne. cbv zeta.
  destruct (Qcompare _ _); [destruct (Z.even _)| |]; lia.
Qed.

Lemma rne_le x y : x <= y -> (Double.rne x <= Double.rne y)%Z.
Proof.
  intros Hxy. pose proof (Qfloor_resp_le x y Hxy) as Hf.
  pose proof (rne_bounds x) as Bx. pose proof (rne_bounds y) as By.
  destruct (Z.eq_dec (Qfloor x) (Qfloor y)) as [E|E]; [|lia].
  unfold Double.rne in *. cbv zeta in *. rewrite <- E in *.
  destruct (Qcompare (x - inject_Z (Qfloor x)) (1 # 2)) eqn:Cx;
    destruct (Qcompare (y - inject_Z (Qfloor x)) (1 # 2)) eqn:Cy;
    try (destruct (Z.even (Qfloor x))); try lia;
    exfalso;
    first [rewrite <- Qeq_alt in Cx | rewrite <- Qlt_alt in Cx | rewrite <- Qgt_alt in Cx];
    first [rewrite <- Qeq_alt in Cy | rewrite <- Qlt_alt in Cy | rewrite <- Qgt_alt in Cy];
    lra.
Qed.

Lemma rne_Z n : Double.rne (inject_Z n) = n.
Proof.
  unfold Double.rne. cbv zeta. rewrite Qfloor_Z.
  assert (C : Qcompare (inject_Z n - inject_Z n) (1 # 2) = Lt)
    by (rewrite <- Qlt_alt; lra).
  now rewrite C.
Qed.

Lemma rne_comp x y : x == y -> Double.rne x = Double.rne y.
Proof.
  intros H. apply Z.le_antisymm; apply rne_le; lra.
Qed.

Lemma nearest_positive_nonneg q : 0 < q -> 0 <= Double.nearest_positive q.
Proof.
  intros Hq. unfold Double.nearest_positive. cbv zeta.
  pose proof (two_pos (Double.ulp_exponent q)) as Hp.
  apply Qmult_le_0_compat; [|lra].
  change 0 with (inject_Z 0). rewrite <- Zle_Qle.
  rewrite <- (rne_Z 0). apply rne_le. change (inject_Z 0) with 0.
  apply Qle_shift_div_l; [exact Hp|]. lra.
Qed.

Lemma nearest_positive_le x y :
  0 < x -> x <= y -> Double.nearest_positive x <= Double.nearest_positive y.
Proof.
  intros Hx Hxy. assert (Hy : 0 < y) by lra.
  pose proof (ilog2_le x y Hx Hxy) as He.
  destruct (ilog2_spec x Hx) as [Hx1 Hx2].
  destruct (ilog2_spec y Hy) as [Hy1 Hy2].
  unfold Double.nearest_positive. cbv zeta.
  set (px := Double.ulp_exponent x). set (py := Double.ulp_exponent y).
  pose proof (two_pos px) as Hpx. pose proof (two_pos py) as Hpy.
  assert (Hp : (px <= py)%Z) by (unfold px, py, Double.ulp_exponent; lia).
  destruct (Z.eq_dec px py) as [E|E].
  - rewrite <- E. apply Qmult_le_compat_r; [|lra].
    rewrite <- Zle_Qle. apply rne_le.
    apply Qle_shift_div_l; [exact Hpx|].
    unfold Qdiv. rewrite <- Qmult_assoc, (Qmult_comm (/ _)), Qmult_inv_r by lra.
    lra.
  - assert (Hpy' : py = (Double.ilog2 y - 52)%Z)
      by (unfold px, py, Double.ulp_exponent in *; lia).
    assert (Hex : (Double.ilog2 x + 1 <= Double.ilog2 y)%Z)
      by (unfold px, py, Double.ulp_exponent in *; lia).
    assert (Hmid : 2 ^ (Double.ilog2 x + 1) <= 2 ^ Double.ilog2 y).
    { apply Qpower_le_compat_l; [exact Hex | discriminate]. }
    assert (Hlow : 2 ^ Double.ilog2 y <= inject_Z (Double.rne (y / 2 ^ py)) * 2 ^ py).
    { assert (E52 : 2 ^ Double.ilog2 y == inject_Z (2 ^ 52) * 2 ^ py).
      { rewrite <- two_Z by lia. rewrite <- Qpower_plus by discriminate.
        rewrite Hpy'. apply Qpower_comp; [reflexivity | lia]. }
      rewrite E52. apply Qmult_le_compat_r; [|lra].
      rewrite <- Zle_Qle. rewrite <- (rne_Z (2 ^ 52)). apply rne_le.
      apply Qle_shift_div_l; [exact Hpy|]. now rewrite <- E52. }
    assert (Hup : inject_Z (Double.rne (x / 2 ^ px)) * 2 ^ px
                  <= 2 ^ (Double.ilog2 x + 1)).
    { set (k := (Double.ilog2 x + 1 - px)%Z).
      assert (Ek : 2 ^ (Double.ilog2 x + 1) == 2 ^ k * 2 ^ px).
      { rewrite <- Qpower_plus by discriminate.
        apply Qpower_comp; [reflexivity | unfold k; lia]. }
      assert (Hq : x / 2 ^ px <= 2 ^ k).
      { apply Qle_shift_div_r; [exact Hpx|]. rewrite <- Ek. lra. }
      destruct (Z_lt_le_dec k 0) as [Hk|Hk].
      - assert (Hhalf : 2 ^ k <= 1 # 2).
        { change (1 # 2) with (2 ^ (-1)).
          apply Qpower_le_compat_l; [lia | discriminate]. }
        assert (Hr : Double.rne (x / 2 ^ px) = 0%Z).
        { assert (Hle : (Double.rne (x / 2 ^ px) <= Double.rne (1 # 2))%Z)
            by (apply rne_le; lra).
          assert (Hge : (Double.rne 0 <= Double.rne (x / 2 ^ px))%Z).
          { apply rne_le. apply Qle_shift_div_l; [exact Hpx|]. lra. }
          change (Double.rne (1 # 2)) with 0%Z in Hle.
          change (Double.rne 0) with 0%Z in Hge. lia. }
        rewrite Hr. change (inject_Z 0) with 0.
        pose proof (two_pos (Double.ilog2 x + 1)). lra.
      - rewrite Ek. apply Qmult_le_compat_r; [|lra].
        rewrite (two_Z k Hk). rewrite <- Zle_Qle.
        rewrite <- (rne_Z (2 ^ k)). apply rne_le.
        now rewrite <- (two_Z k Hk). }
    lra.
Qed.

Lemma Qred_num_sign q :
  match Qnum (Qred q) with
  | Z0 => q == 0
  | Zpos _ => 0 < q
  | Zneg _ => q < 0
  end.
Proof.
  pose proof (Qred_correct q) as H.
  destruct (Qred q) as [n d] eqn:E. cbn [Qnum].
  destruct n; rewrite <- H.
  - reflexivity.
  - reflexivity.
  - reflexivity.
Qed.

Lemma nearest_comp x y : x == y -> Double.nearest x = Double.nearest y.
Proof.
  intros H. unfold Double.nearest. now rewrite (Qred_complete x y H).
Qed.

Lemma nearest_sign q :
  (0 <= q -> 0 <= Double.nearest q) /\ (q <= 0 -> Double.nearest q <= 0).
Proof.
  unfold Double.nearest. cbv zeta.
  pose proof (Qred_num_sign q) as Hs. pose proof (Qred_correct q) as Hr.
  destruct (Qnum (Qred q)).
  - split; intros; lra.
  - rewrite Qred_correct. split; intros.
    + apply nearest_positive_nonneg. lra.
    + lra.
  - rewrite Qred_correct. split; intros.
    + lra.
    + assert (H0 : 0 <= Double.nearest_positive (- Qred q))
        by (apply nearest_positive_nonneg; lra).
      lra.
Qed.

Lemma nearest_le x y : x <= y -> Double.nearest x <= Double.nearest y.
Proof.
  intros Hxy.
  destruct (Qlt_le_dec 0 x) as [Hx|Hx].
  - (* both positive *)
    unfold Double.nearest. cbv zeta.
    pose proof (Qred_num_sign x) as Sx. pose proof (Qred_num_sign y) as Sy.
    pose proof (Qred_correct x) as Rx. pose proof (Qred_correct y) as Ry.
    destruct (Qnum (Qred x)); [lra| |lra].
    destruct (Qnum (Qred y)); [lra| |lra].
    rewrite (Qred_correct (Double.nearest_positive (Qred x))),
      (Qred_correct (Double.nearest_positive (Qred y))).
    apply nearest_positive_le; lra.
  - destruct (Qlt_le_dec y 0) as [Hy|Hy].
    + (* both negative *)
      unfold Double.nearest. cbv zeta.
      pose proof (Qred_num_sign x) as Sx. pose proof (Qred_num_sign y) as Sy.
      pose proof (Qred_correct x) as Rx. pose proof (Qred_correct y) as Ry.
      destruct (Qnum (Qred x)); [lra|lra|].
      destruct (Qnum (Qred y)); [lra|lra|].
      rewrite (Qred_correct (- Double.nearest_positive (- Qred x))),
        (Qred_correct (- Double.nearest_positive (- Qred y))).
      assert (H : Double.nearest_positive (- Qred y)
                  <= Double.nearest_positive (- Qred x))
        by (apply nearest_positive_le; lra).
      lra.
    + destruct (nearest_sign x) as [_ H1]. destruct (nearest_sign y) as [H2 _].
      specialize (H1 Hx). specialize (H2 Hy). lra.
Qed.

Lemma round_nearest q : Double.round q == Double.nearest q.
Proof.
  unfold Double.round. destruct (Qeq_bool (Double.nearest q) q) eqn:E;
    [|reflexivity].
  apply Qeq_bool_iff in E. now symmetry.
Qed.

Lemma round_le x y : x <= y -> Double.round x <= Double.round y.
Proof. intros H. rewrite !round_nearest. now apply nearest_le. Qed.

Lemma round_comp x y : x == y -> Double.round x == Double.round y.
Proof. intros H. rewrite !round_nearest. now rewrite (nearest_comp x y H). Qed.

Lemma round_0 : Double.round 0 == 0.
Proof. reflexivity. Qed.

Lemma round_1 : Double.round 1 == 1.
Proof. reflexivity. Qed.

Lemma round_nonneg q : 0 <= q -> 0 <= Double.round q.
Proof. intros H. rewrite <- round_0. now apply round_le. Qed.

Lemma ltb_iff x y : Double.ltb x y = true <-> Double.round x < Double.round y.
Proof. unfold Double.ltb. apply Qlt_bool_iff. Qed.

Lemma add_nonneg x y : 0 <= x -> 0 <= y -> 0 <= Double.add x y.
Proof.
  intros Hx Hy. unfold Double.add. apply round_nonneg.
  pose proof (round_nonneg x Hx). pose proof (round_nonneg y Hy). lra.
Qed.

(** The factor [1 - rate] of [decay] for a rate between 0 and 1. *)
Lemma sub_one_range rate :
  0 <= rate -> rate <= 1 ->
  0 <= Double.sub 1 rate /\ Double.sub 1 rate <= 1.
Proof.
  intros H0 H1. unfold Double.sub.
  pose proof (round_le _ _ H0) as R0. pose proof (round_le _ _ H1) as R1.
  rewrite round_0 in R0. rewrite round_1 in R1. split.
  - apply round_nonneg. rewrite round_1. lra.
  - rewrite <- round_1 at 2. apply round_le. rewrite round_1. lra.
Qed.

(** A product by a factor between 0 and 1 stays below a bound that is a
    double. *)
Lemma mul_range s f M :
  Double.round M == M -> 0 <= s -> s <= M -> 0 <= f -> f <= 1 ->
  0 <= Double.mul s f /\ Double.mul s f <= M.
Proof.
  intros HM Hs0 HsM Hf0 Hf1. unfold Double.mul.
  pose proof (round_nonneg s Hs0) as Rs0.
  pose proof (round_le _ _ HsM) as RsM. rewrite HM in RsM.
  pose proof (round_nonneg f Hf0) as Rf0.
  pose proof (round_le _ _ Hf1) as Rf1. rewrite round_1 in Rf1.
  split.
  - apply round_nonneg. now apply Qmult_le_0_compat.
  - rewrite <- HM. apply round_le. nra.
Qed.

(** A weight that reads as 0 decays below the threshold. *)
Lemma mul_zero_below s f : s == 0 -> Double.ltb (Double.mul s f) 0.01 = true.
Proof.
  intros H. apply ltb_iff. unfold Double.mul.
  assert (E : Double.round (Double.round s * Double.round f) == 0).
  { rewrite (round_comp (Double.round s * Double.round f) 0); [reflexivity|].
    rewrite (round_comp s 0 H), round_0. ring. }
  rewrite (round_comp _ _ E), round_0.
  reflexivity.
Qed.


Section SortFacts.
Context {A : Type}.
Variable cmp : A -> A -> Q.

Lemma insert_sorted_perm x l : Permutation (insert_sorted cmp x l) (x :: l).
Proof.
  induction l as [|y l IH]; cbn; [reflexivity|].
  destruct (Qlt_bool 0 (cmp x y)); [|reflexivity].
  rewrite IH. apply perm_swap.
Qed.

Lemma js_sort_perm l : Permutation (js_sort cmp l) l.
Proof.
  induction l as [|x l IH]; cbn; [reflexivity|].
  rewrite insert_sorted_perm. now constructor.
Qed.

Lemma js_sort_length l : List.length (js_sort cmp l) = List.length l.
Proof. apply Permutation_length, js_sort_perm. Qed.

Lemma js_sort_In x l : In x (js_sort cmp l) <-> In x l.
Proof.
  split; apply Permutation_in; [|symmetry]; apply js_sort_perm.
Qed.

(** A comparator [(a, b) => key (b) - key (a)] sorts by [key],
    descending. *)
Variable key : A -> Q.
Hypothesis cmp_key : forall a b, cmp a b == key b - key a.

Lemma insert_sorted_desc x l :
  StronglySorted (desc_by key) l -> StronglySorted (desc_by key) (insert_sorted cmp x l).
Proof.
  induction 1 as [|y l Hs IH Hall]; cbn.
  - repeat constructor.
  - destruct (Qlt_bool 0 (cmp x y)) eqn:E.
    + constructor; [exact IH|].
      apply Forall_forall. intros z Hz.
      apply (Permutation_in _ (insert_sorted_perm x l)) in Hz.
      destruct Hz as [<-|Hz].
      * apply Qlt_bool_iff in E. rewrite cmp_key in E. unfold desc_by. lra.
      * rewrite Forall_forall in Hall. now apply Hall.
    + apply Qlt_bool_false in E. rewrite cmp_key in E.
      constructor; [now constructor|].
      constructor; [unfold desc_by; lra|].
      apply Forall_forall. intros z Hz.
      rewrite Forall_forall in Hall. specialize (Hall z Hz).
      unfold desc_by in *. lra.
Qed.

Lemma js_sort_desc l : StronglySorted (desc_by key) (js_sort cmp l).
Proof.
  induction l as [|x l IH]; cbn; [constructor|].
  now apply insert_sorted_desc.
Qed.

End SortFacts.

Lemma in_firstn {A : Type} n (l : list A) x : In x (firstn n l) -> In x l.
Proof.
  intros H. rewrite <- (firstn_skipn n l). apply in_or_app. now left.
Qed.

Lemma in_skipn {A : Type} n (l : list A) x : In x (skipn n l) -> In x l.
Proof.
  intros H. rewrite <- (firstn_skipn n l). apply in_or_app. now right.
Qed.

Lemma firstn_skipn_sorted {A : Type} (R : A -> A -> Prop) n (l : list A) :
  StronglySorted R l ->
  StronglySorted R (firstn n l)
  /\ forall x y, In x (firstn n l) -> In y (skipn n l) -> R x y.
Proof.
  intros Hs. revert n. induction Hs as [|a l Hs IH Hall]; intros n.
  - rewrite firstn_nil, skipn_nil. split; [constructor | intros ? ? []].
  - destruct n as [|n]; cbn.
    + split; [constructor | intros ? ? []].
    + destruct (IH n) as [IH1 IH2]. split.
      * constructor; [exact IH1|].
        apply Forall_forall. intros z Hz. rewrite Forall_forall in Hall.
        apply Hall. eapply in_firstn; eauto.
      * intros x y [<-|Hx] Hy.
        -- rewrite Forall_forall in Hall. apply Hall.
           eapply in_skipn; eauto.
        -- now apply IH2.
Qed.

(** ** Loading *)

Lemma load_fresh_store_stays_empty cfg net d :
  unavailable d (LongTermMemory.storagePath cfg) ->
  exists m, LongTermMemory.load (LongTermMemory.new cfg net) d = Normal m
            /\ LongTermMemory.size m = 0%nat.
Proof.
  intros H. exists (LongTermMemory.new cfg net). split; [|reflexivity].
  unfold LongTermMemory.load, LongTermMemory.load_try, readFile.
  destruct (LongTermMemory.no_path _); [reflexivity|]. cbn.
  destruct H as [H|[H|H]]; rewrite H; reflexivity.
Qed.

(** C9, as the code has it.  [load] against a missing, unreadable or
    unparseable storage file completes normally and hands back the store
    exactly as it was before the call: nothing is thrown, nothing is
    recorded for the caller, and the entries, graph and dirty flag are the
    ones the store had. *)
Theorem load_unavailable_keeps_store :
  forall (m : LongTermMemory.t) (d : disk),
    unavailable d (LongTermMemory.storagePath (LongTermMemory.config m)) ->
    LongTermMemory.load m d = Normal m.
Proof.
  intros m d H.
  unfold LongTermMemory.load, LongTermMemory.load_try, readFile.
  destruct (LongTermMemory.no_path m); [reflexivity|].
  destruct H as [H|[H|H]]; rewrite H; reflexivity.
Qed.

Lemma load_unavailable_keeps_store_witness :
  unavailable empty_disk
    (LongTermMemory.storagePath (LongTermMemory.config lt_one_entry))
  /\ LongTermMemory.load lt_one_entry empty_disk = Normal lt_one_entry.
Proof.
  assert (H : unavailable empty_disk
    (LongTermMemory.storagePath (LongTermMemory.config lt_one_entry)))
    by (left; reflexivity).
  split; [exact H | exact (load_unavailable_keeps_store lt_one_entry empty_disk H)].
Defined.

(** C9 fails as stated: a store that holds an entry and is loaded against
    a missing file still holds it afterwards. *)
Lemma load_missing_file_store_not_empty :
  empty_disk (LongTermMemory.storagePath (LongTermMemory.config lt_one_entry))
  = Missing
  /\ LongTermMemory.load lt_one_entry empty_disk = Normal lt_one_entry
  /\ LongTermMemory.size lt_one_entry = 1%nat
  /\ ~ (exists m, LongTermMemory.load lt_one_entry empty_disk = Normal m
                  /\ LongTermMemory.size m = 0%nat).
Proof.
  repeat split.
  intros [m [H Hs]]. vm_compute in H. injection H as <-. discriminate Hs.
Qed.

(** ** Access bookkeeping *)

Lemma touch_id e now : id (touch e now) = id e.
Proof. reflexivity. Qed.

Lemma touch_first_spec l k now :
  ShortTermMemory.touch_first l k now =
  match find_by_id l k with
  | Some e => (Some (touch e now), snd (ShortTermMemory.touch_first l k now))
  | None => (None, l)
  end.
Proof.
  unfold find_by_id. induction l as [|e l IH]; cbn; [reflexivity|].
  destruct (String.eqb (id e) k); [reflexivity|].
  rewrite IH. destruct (find _ l); cbn; [|reflexivity].
  now destruct (ShortTermMemory.touch_first l k now).
Qed.

Lemma touch_first_find l k now e :
  find_by_id l k = Some e ->
  find_by_id (snd (ShortTermMemory.touch_first l k now)) k = Some (touch e now).
Proof.
  unfold find_by_id. induction l as [|x l IH]; cbn; [discriminate|].
  destruct (String.eqb (id x) k) eqn:E.
  - intros [= <-]. cbn. now rewrite E.
  - intros H. specialize (IH H).
    destruct (ShortTermMemory.touch_first l k now). cbn in *. now rewrite E.
Qed.

Section FoldSet.
Context {V : Type}.

Lemma wf_fold_set (l : list (string * V)) (m : JsMap.t V) :
  JsMap.wf m ->
  JsMap.wf (fold_left (fun mp kv => JsMap.set mp (fst kv) (snd kv)) l m).
Proof.
  revert m. induction l as [|[k v] l IH]; cbn; intros m H; [exact H|].
  apply IH. now apply wf_set.
Qed.

Lemma get_fold_set_other (l : list (string * V)) (m : JsMap.t V) k :
  ~ In k (map fst l) ->
  JsMap.get (fold_left (fun mp kv => JsMap.set mp (fst kv) (snd kv)) l m) k
  = JsMap.get m k.
Proof.
  revert m. induction l as [|[k' v'] l IH]; cbn; intros m H; [reflexivity|].
  rewrite IH by tauto. apply get_set_other. tauto.
Qed.

Lemma get_fold_set_in (l : list (string * V)) (m : JsMap.t V) k v :
  NoDup (map fst l) -> In (k, v) l ->
  JsMap.get (fold_left (fun mp kv => JsMap.set mp (fst kv) (snd kv)) l m) k
  = Some v.
Proof.
  revert m. induction l as [|[k' v'] l IH]; cbn; intros m Hnd Hin; [tauto|].
  inversion Hnd as [|? ? Hnot Hnd']; subst.
  destruct Hin as [H|H].
  - injection H as -> ->. rewrite get_fold_set_other by exact Hnot.
    apply get_set_same.
  - now apply IH.
Qed.

End FoldSet.

(** A part of a list without repeated keys has no repeated keys. *)
Lemma NoDup_map_sub {A B : Type} (f : A -> B) (l l' rest : list A) :
  Permutation (l' ++ rest) l -> NoDup (map f l) -> NoDup (map f l').
Proof.
  intros Hp Hnd.
  apply (Permutation_map f) in Hp. rewrite map_app in Hp.
  apply (Permutation_NoDup (Permutation_sym Hp)) in Hnd.
  now apply NoDup_app_remove_r in Hnd.
Qed.

Lemma filter_split_perm {A : Type} (p : A -> bool) (l : list A) :
  Permutation (filter p l ++ filter (fun x => negb (p x)) l) l.
Proof.
  induction l as [|x l IH]; cbn; [reflexivity|].
  destruct (p x); cbn.
  - now constructor.
  - rewrite <- Permutation_middle. now constructor.
Qed.

(** The hits of the long-term search are entries of the store, each taken
    once. *)
Lemma search_hits_sub m query limit :
  exists rest,
    Permutation (map fst (LongTermMemory.search_hits m query limit) ++ rest)
      (LongTermMemory.entries m).
Proof.
  unfold LongTermMemory.search_hits, slice0, JsMap.entries.
  set (scored := map _ (LongTermMemory.entries m)).
  set (kept := filter _ scored).
  set (sorted := js_sort _ kept).
  exists (map fst (skipn limit sorted)
          ++ map fst (filter (fun s => negb (Qlt_bool 0 (snd s))) scored)).
  rewrite app_assoc, <- map_app, firstn_skipn, <- map_app.
  assert (Hs : map fst scored = LongTermMemory.entries m).
  { unfold scored. rewrite map_map. cbn. apply map_id. }
  rewrite <- Hs. apply Permutation_map.
  etransitivity; [|apply (filter_split_perm (fun s => Qlt_bool 0 (snd s)))].
  apply Permutation_app_tail. apply js_sort_perm.
Qed.

Lemma long_term_search_touches m query limit now e' :
  JsMap.wf (LongTermMemory.entries m) ->
  In e' (fst (LongTermMemory.search m query limit now)) ->
  exists k e,
    JsMap.get (LongTermMemory.entries m) k = Some e
    /\ e' = touch e now
    /\ JsMap.get
         (LongTermMemory.entries (snd (LongTermMemory.search m query limit now))) k
       = Some e'.
Proof.
  intros Hwf Hin. unfold LongTermMemory.search in *. cbn [fst snd] in *.
  cbn [LongTermMemory.entries].
  set (hits := LongTermMemory.search_hits m query limit) in *.
  apply in_map_iff in Hin. destruct Hin as [[k0 e0] [He Hin]].
  apply in_map_iff in Hin. destruct Hin as [[[k e] sim] [Hke Hin]].
  cbn in He, Hke. injection Hke as <- <-. subst e'.
  destruct (search_hits_sub m query limit) as [rest Hperm]. fold hits in Hperm.
  exists k, e. split; [|split; [reflexivity|]].
  - apply get_In; [exact Hwf|].
    apply (Permutation_in _ Hperm). apply in_or_app. left.
    apply in_map_iff. now exists (k, e, sim).
  - apply get_fold_set_in.
    + rewrite map_map. cbn.
      rewrite <- (map_map fst fst).
      eapply NoDup_map_sub; [exact Hperm | exact Hwf].
    + apply in_map_iff. now exists (k, e, sim).
Qed.

Lemma short_term_search_incl m query limit :
  incl (ShortTermMemory.search m query limit) (ShortTermMemory.entries m).
Proof.
  intros e He. unfold ShortTermMemory.search, slice0 in He.
  apply in_map_iff in He. destruct He as [[e0 sim] [<- He]].
  apply in_firstn in He. apply js_sort_In in He.
  apply filter_In in He. destruct He as [He _].
  apply in_map_iff in He. destruct He as [x [Hx Hin]].
  now injection Hx as -> _.
Qed.

Lemma fleeting_search_incl m query :
  incl (FleetingMemory.search m query) (JsMap.values (FleetingMemory.store m)).
Proof.
  intros e He. unfold FleetingMemory.search in He.
  now apply filter_In in He.
Qed.

(** C6, as the code has it.  A [get] on a present id, in each of the three
    stores, hands back the stored entry with [accessCount] one higher and
    [lastAccessed] set to the clock, and the store then holds that entry.
    The long-term [search] does the same for every entry it returns.  The
    working-set and fleeting [search] return entries exactly as they are
    stored and have no store to update. *)
Theorem access_bookkeeping_on_reads :
  forall now : Z,
    (forall e, accessCount (touch e now) = (accessCount e + 1)%Z
               /\ lastAccessed (touch e now) = now)
    /\ (forall (m : FleetingMemory.t) k e,
          JsMap.get (FleetingMemory.store m) k = Some e ->
          fst (FleetingMemory.get m k now) = Some (touch e now)
          /\ JsMap.get (FleetingMemory.store (snd (FleetingMemory.get m k now))) k
             = Some (touch e now))
    /\ (forall (m : ShortTermMemory.t) k e,
          find_by_id (ShortTermMemory.entries m) k = Some e ->
          fst (ShortTermMemory.get m k now) = Some (touch e now)
          /\ find_by_id (ShortTermMemory.entries (snd (ShortTermMemory.get m k now))) k
             = Some (touch e now))
    /\ (forall (m : LongTermMemory.t) k e,
          JsMap.get (LongTermMemory.entries m) k = Some e ->
          fst (LongTermMemory.get m k now) = Some (touch e now)
          /\ JsMap.get (LongTermMemory.entries (snd (LongTermMemory.get m k now))) k
             = Some (touch e now))
    /\ (forall (m : LongTermMemory.t) query limit e',
          JsMap.wf (LongTermMemory.entries m) ->
          In e' (fst (LongTermMemory.search m query limit now)) ->
          exists k e,
            JsMap.get (LongTermMemory.entries m) k = Some e
            /\ e' = touch e now
            /\ JsMap.get
                 (LongTermMemory.entries
                    (snd (LongTermMemory.search m query limit now))) k
               = Some e')
    /\ (forall (m : ShortTermMemory.t) query limit,
          incl (ShortTermMemory.search m query limit) (ShortTermMemory.entries m))
    /\ (forall (m : FleetingMemory.t) query,
          incl (FleetingMemory.search m query)
            (JsMap.values (FleetingMemory.store m))).
Proof.
  intros now. repeat apply conj.
  - intros e. split; reflexivity.
  - intros m k e H. unfold FleetingMemory.get. rewrite H. cbn.
    split; [reflexivity | apply get_set_same].
  - intros m k e H. unfold ShortTermMemory.get.
    rewrite touch_first_spec, H. cbn. split; [reflexivity|].
    now apply touch_first_find.
  - intros m k e H. unfold LongTermMemory.get. rewrite H. cbn.
    split; [reflexivity | apply get_set_same].
  - intros m query limit e' Hwf Hin.
    now apply long_term_search_touches.
  - intros. apply short_term_search_incl.
  - intros. apply fleeting_search_incl.
Qed.

(** C6 fails as stated: the working-set [search] returns a matching entry
    whose [accessCount] is still 0, and so does the fleeting [search]. *)
Lemma search_match_not_counted :
  ShortTermMemory.search st_one_entry "cache" 10
  = [sample_entry "id-1" "cache system" 0.5 0 short_term]
  /\ map accessCount (ShortTermMemory.search st_one_entry "cache" 10) = [0%Z]
  /\ FleetingMemory.search fl_one_entry "cache"
     = [sample_entry "id-1" "cache system" 0.2 0 fleeting]
  /\ map accessCount (FleetingMemory.search fl_one_entry "cache") = [0%Z].
Proof. repeat split. Qed.

(** ** Pruning *)

Lemma filter_filter_and {A : Type} (p q : A -> bool) (l : list A) :
  filter p (filter q l) = filter (fun x => q x && p x) l.
Proof.
  induction l as [|x l IH]; cbn; [reflexivity|].
  destruct (q x); cbn; [destruct (p x)|]; now rewrite IH.
Qed.

Lemma fold_delete {V : Type} (ks : list string) (m : JsMap.t V) :
  fold_left (fun mp k => JsMap.delete mp k) ks m
  = filter (fun kv => negb (existsb (String.eqb (fst kv)) ks)) m.
Proof.
  revert m. induction ks as [|k ks IH]; intros m; cbn.
  - induction m as [|x m IHm]; cbn; [reflexivity | now rewrite <- IHm].
  - rewrite IH. unfold JsMap.delete. rewrite filter_filter_and.
    apply filter_ext. intros kv. now rewrite negb_orb.
Qed.

Lemma wf_key_inj {V : Type} (m : JsMap.t V) a b :
  JsMap.wf m -> In a m -> In b m -> fst a = fst b -> a = b.
Proof.
  intros Hwf Ha Hb Hk. destruct a as [k v], b as [k' v']. cbn in Hk. subst k'.
  apply (get_In _ _ _ Hwf) in Ha. apply (get_In _ _ _ Hwf) in Hb. congruence.
Qed.

Lemma delete_selected {V : Type} (p : string * V -> bool) (m : JsMap.t V) :
  JsMap.wf m ->
  fold_left (fun mp k => JsMap.delete mp k) (map fst (filter p m)) m
  = filter (fun kv => negb (p kv)) m.
Proof.
  intros Hwf. rewrite fold_delete. apply filter_ext_in. intros kv Hkv.
  f_equal. destruct (p kv) eqn:E.
  - apply existsb_exists. exists (fst kv). split; [|apply String.eqb_refl].
    apply in_map. apply filter_In. now split.
  - destruct (existsb _ _) eqn:Ex; [|reflexivity].
    apply existsb_exists in Ex. destruct Ex as [k [Hk Heq]].
    apply String.eqb_eq in Heq. apply in_map_iff in Hk.
    destruct Hk as [kv' [Hfst Hin]]. apply filter_In in Hin.
    destruct Hin as [Hin Hp].
    assert (kv' = kv) by (apply (wf_key_inj m); congruence).
    congruence.
Qed.

Section PruneFacts.
Variable pow_half : Q -> Q.

Lemma prunable_iff m now e :
  LongTermMemory.prunable pow_half m now e = true <->
  (0 < accessCount e)%Z
  /\ calculateRelevance pow_half e now
     < LongTermMemory.pruneThreshold (LongTermMemory.config m).
Proof.
  unfold LongTermMemory.prunable. cbv zeta.
  rewrite andb_true_iff, Qlt_bool_iff, Z.ltb_lt. tauto.
Qed.

Lemma prune_loop m now l live net n :
  fold_left (LongTermMemory.prune_step pow_half m now) l (live, net, n)
  = (fold_left (fun mp k => JsMap.delete mp k)
       (map fst (filter (fun kv => LongTermMemory.prunable pow_half m now (snd kv)) l))
       live,
     fold_left HebbianNetwork.removeNode
       (map fst (filter (fun kv => LongTermMemory.prunable pow_half m now (snd kv)) l))
       net,
     (n + List.length
            (filter (fun kv => LongTermMemory.prunable pow_half m now (snd kv)) l))%nat).
Proof.
  revert live net n. induction l as [|[k e] l IH]; intros live net n; cbn.
  - now rewrite Nat.add_0_r.
  - destruct (LongTermMemory.prunable pow_half m now e); cbn.
    + rewrite IH. f_equal. lia.
    + apply IH.
Qed.

End PruneFacts.

(** C7.  On a long-term store [prune] keeps, in their order, exactly the
    entries that are not both read at least once and of relevance below
    [pruneThreshold] at the clock reading of the call; it calls
    [removeNode] on the graph for the id of each entry it deletes, in the
    order of the store; it returns the number of entries it deleted; and an
    entry whose [accessCount] is 0 is still in the store afterwards. *)
Theorem prune_removes_read_and_irrelevant :
  forall pow_half (m : LongTermMemory.t) (now : Z),
    JsMap.wf (LongTermMemory.entries m) ->
    let removed (kv : string * MemoryEntry) :=
      LongTermMemory.prunable pow_half m now (snd kv) in
    let m' := snd (LongTermMemory.prune pow_half m now) in
    (forall e, LongTermMemory.prunable pow_half m now e = true <->
               (0 < accessCount e)%Z
               /\ calculateRelevance pow_half e now
                  < LongTermMemory.pruneThreshold (LongTermMemory.config m))
    /\ LongTermMemory.entries m'
       = filter (fun kv => negb (removed kv)) (LongTermMemory.entries m)
    /\ LongTermMemory.network m'
       = fold_left HebbianNetwork.removeNode
           (map fst (filter removed (LongTermMemory.entries m)))
           (LongTermMemory.network m)
    /\ fst (LongTermMemory.prune pow_half m now)
       = List.length (filter removed (LongTermMemory.entries m))
    /\ (forall k e,
          JsMap.get (LongTermMemory.entries m) k = Some e ->
          accessCount e = 0%Z ->
          JsMap.get (LongTermMemory.entries m') k = Some e).
Proof.
  intros pow_half m now Hwf removed m'.
  assert (Hent : LongTermMemory.entries m'
       = filter (fun kv => negb (removed kv)) (LongTermMemory.entries m)).
  { subst m'. unfold LongTermMemory.prune, JsMap.entries.
    rewrite prune_loop. cbn. now apply delete_selected. }
  split; [intros e; apply prunable_iff|].
  split; [exact Hent|].
  split; [subst m'; unfold LongTermMemory.prune, JsMap.entries;
          rewrite prune_loop; reflexivity|].
  split; [unfold LongTermMemory.prune, JsMap.entries;
          rewrite prune_loop; reflexivity|].
  intros k e Hget Hzero. rewrite Hent.
  apply get_In.
  - unfold JsMap.wf, JsMap.keys.
    eapply NoDup_map_sub; [apply filter_split_perm with (p := fun kv => negb (removed kv)) | exact Hwf].
  - apply filter_In. split; [now apply get_Some_In|].
    subst removed. cbn. unfold LongTermMemory.prunable.
    rewrite Hzero. cbn. now rewrite andb_false_r.
Qed.

Lemma prune_removes_read_and_irrelevant_witness :
  JsMap.wf (LongTermMemory.entries lt_two_aged)
  /\ LongTermMemory.entries
       (snd (LongTermMemory.prune pow_half_approx lt_two_aged ninety_days))
     = [("old-unread"%string,
         sample_entry "old-unread" "new memory" 0.01 0 long_term)]
  /\ fst (LongTermMemory.prune pow_half_approx lt_two_aged ninety_days) = 1%nat.
Proof.
  assert (Hwf : JsMap.wf (LongTermMemory.entries lt_two_aged)).
  { repeat constructor; cbn; intuition discriminate. }
  destruct (prune_removes_read_and_irrelevant pow_half_approx lt_two_aged
              ninety_days Hwf) as (_ & He & _ & Hn & _).
  split; [exact Hwf|]. split.
  - rewrite He. vm_compute. reflexivity.
  - rewrite Hn. vm_compute. reflexivity.
Defined.

(** ** The associative graph *)

Lemma getStrength_edge net a b :
  HebbianNetwork.getStrength net a b = or_zero (edge net a b).
Proof. reflexivity. Qed.

Lemma edge_links net a b : JsMap.get (HebbianNetwork.links net a) b = edge net a b.
Proof.
  unfold HebbianNetwork.links, edge.
  now destruct (JsMap.get (HebbianNetwork.associations net) a).
Qed.

Lemma edge_ensureNode net k a b :
  edge (HebbianNetwork.ensureNode net k) a b = edge net a b.
Proof.
  unfold HebbianNetwork.ensureNode, JsMap.has.
  destruct (JsMap.get (HebbianNetwork.associations net) k) eqn:E; [reflexivity|].
  unfold edge. cbn. rewrite get_set.
  destruct (String.eqb k a) eqn:Eka; [|reflexivity].
  apply String.eqb_eq in Eka. subst. now rewrite E.
Qed.

Lemma edge_set_link net a b v x y :
  edge (HebbianNetwork.set_link net a b v) x y =
  if String.eqb a x && String.eqb b y then Some v else edge net x y.
Proof.
  unfold HebbianNetwork.set_link. unfold edge at 1. cbn. rewrite get_set.
  destruct (String.eqb a x) eqn:Eax; cbn; [|reflexivity].
  apply String.eqb_eq in Eax. subst x.
  rewrite get_set, edge_links. reflexivity.
Qed.

Lemma maxStrength_ensureNode net k :
  HebbianNetwork.maxStrength (HebbianNetwork.ensureNode net k)
  = HebbianNetwork.maxStrength net.
Proof.
  unfold HebbianNetwork.ensureNode.
  now destruct (JsMap.has (HebbianNetwork.associations net) k).
Qed.

(** The two stored weights after [strengthen]. *)
Lemma edge_strengthen net a b amount x y :
  edge (HebbianNetwork.strengthen net a b amount) x y =
  if String.eqb b x && String.eqb a y then
    Some (Qmin (HebbianNetwork.maxStrength net)
            (Double.add (HebbianNetwork.getStrength net b a) amount))
  else if String.eqb a x && String.eqb b y then
    Some (Qmin (HebbianNetwork.maxStrength net)
            (Double.add (HebbianNetwork.getStrength net a b) amount))
  else edge net x y.
Proof.
  unfold HebbianNetwork.strengthen.
  rewrite !edge_set_link, !edge_links, !edge_ensureNode.
  cbn [HebbianNetwork.set_link HebbianNetwork.with_associations
       HebbianNetwork.maxStrength].
  rewrite !maxStrength_ensureNode. reflexivity.
Qed.

Lemma getStrength_strengthen net a b amount x y :
  symmetric net ->
  HebbianNetwork.getStrength (HebbianNetwork.strengthen net a b amount) x y =
  if (String.eqb a x && String.eqb b y) || (String.eqb b x && String.eqb a y)
  then or_zero (Some (Qmin (HebbianNetwork.maxStrength net)
                        (Double.add (HebbianNetwork.getStrength net a b) amount)))
  else HebbianNetwork.getStrength net x y.
Proof.
  intros Hsym. rewrite getStrength_edge, edge_strengthen, (Hsym b a).
  destruct (String.eqb b x && String.eqb a y);
    destruct (String.eqb a x && String.eqb b y); reflexivity.
Qed.

Lemma symmetric_strengthen net a b amount :
  symmetric net -> symmetric (HebbianNetwork.strengthen net a b amount).
Proof.
  intros Hsym x y. rewrite !getStrength_strengthen by exact Hsym.
  rewrite (Hsym y x).
  rewrite (orb_comm (String.eqb a y && String.eqb b x)).
  rewrite (andb_comm (String.eqb b y)), (andb_comm (String.eqb a y)).
  reflexivity.
Qed.

Lemma Forall_set {V : Type} (P : string * V -> Prop) (m : JsMap.t V) k v :
  Forall P m -> P (k, v) -> Forall P (JsMap.set m k v).
Proof.
  intros Hm Hkv. induction Hm as [|[k' v'] m Hx Hm IH]; cbn.
  - now repeat constructor.
  - destruct (String.eqb k' k); constructor; assumption.
Qed.

Lemma wf_links net a :
  HebbianNetwork.wf net -> JsMap.wf (HebbianNetwork.links net a).
Proof.
  intros [_ Hin]. unfold HebbianNetwork.links.
  destruct (JsMap.get (HebbianNetwork.associations net) a) eqn:E; [|apply wf_nil].
  apply get_Some_In in E. rewrite Forall_forall in Hin. exact (Hin _ E).
Qed.

Lemma wf_ensureNode net k :
  HebbianNetwork.wf net -> HebbianNetwork.wf (HebbianNetwork.ensureNode net k).
Proof.
  intros Hwf. unfold HebbianNetwork.ensureNode.
  destruct (JsMap.has (HebbianNetwork.associations net) k); [exact Hwf|].
  destruct Hwf as [H1 H2]. split; cbn.
  - now apply wf_set.
  - apply Forall_set; [exact H2 | apply wf_nil].
Qed.

Lemma wf_set_link net a b v :
  HebbianNetwork.wf net -> HebbianNetwork.wf (HebbianNetwork.set_link net a b v).
Proof.
  intros Hwf. pose proof (wf_links net a Hwf) as Hl.
  destruct Hwf as [H1 H2]. split; cbn.
  - now apply wf_set.
  - apply Forall_set; [exact H2 | now apply wf_set].
Qed.

Lemma wf_strengthen net a b amount :
  HebbianNetwork.wf net -> HebbianNetwork.wf (HebbianNetwork.strengthen net a b amount).
Proof.
  intros Hwf. unfold HebbianNetwork.strengthen.
  now repeat (apply wf_set_link || apply wf_ensureNode).
Qed.

(** *** [decay] *)

Lemma get_decay_link rate m t s y :
  JsMap.get (HebbianNetwork.decay_link rate m (t, s)) y =
  if String.eqb t y then decayed rate s else JsMap.get m y.
Proof.
  unfold HebbianNetwork.decay_link, decayed. cbv zeta.
  destruct (Double.ltb (Double.mul s (Double.sub 1 rate)) 0.01).
  - apply get_delete.
  - apply get_set.
Qed.

Lemma wf_decay_link rate m link :
  JsMap.wf m -> JsMap.wf (HebbianNetwork.decay_link rate m link).
Proof.
  destruct link as [t s]. unfold HebbianNetwork.decay_link. cbv zeta.
  destruct (Double.ltb _ _); [apply wf_delete | apply wf_set].
Qed.

Lemma get_decay_loop rate (l : list (string * Q)) m y :
  NoDup (map fst l) ->
  JsMap.get (fold_left (HebbianNetwork.decay_link rate) l m) y =
  match JsMap.get l y with
  | Some s => decayed rate s
  | None => JsMap.get m y
  end.
Proof.
  revert m. induction l as [|[t s] l IH]; intros m Hnd; [reflexivity|].
  cbn [fold_left].
  change (JsMap.get ((t, s) :: l) y)
    with (if String.eqb t y then Some s else JsMap.get l y).
  cbn in Hnd. inversion Hnd as [|? ? Hnot Hnd']; subst.
  rewrite IH by exact Hnd'. rewrite get_decay_link.
  destruct (String.eqb t y) eqn:E; [|reflexivity].
  apply String.eqb_eq in E. subst y.
  apply get_None_keys in Hnot. now rewrite Hnot.
Qed.

Lemma get_decay_links rate m y :
  JsMap.wf m ->
  JsMap.get (HebbianNetwork.decay_links rate m) y =
  match JsMap.get m y with
  | Some s => decayed rate s
  | None => None
  end.
Proof.
  intros Hwf. unfold HebbianNetwork.decay_links, JsMap.entries.
  rewrite get_decay_loop by exact Hwf.
  now destruct (JsMap.get m y).
Qed.

Lemma wf_decay_loop rate (l : list (string * Q)) m :
  JsMap.wf m -> JsMap.wf (fold_left (HebbianNetwork.decay_link rate) l m).
Proof.
  revert m. induction l as [|x l IH]; intros m Hwf; [exact Hwf|].
  cbn [fold_left]. apply IH. now apply wf_decay_link.
Qed.

Lemma wf_decay_links rate m :
  JsMap.wf m -> JsMap.wf (HebbianNetwork.decay_links rate m).
Proof. unfold HebbianNetwork.decay_links. apply wf_decay_loop. Qed.

Lemma get_map_values {V W : Type} (f : V -> W) (m : JsMap.t V) k :
  JsMap.get (map (fun node => (fst node, f (snd node))) m) k
  = option_map f (JsMap.get m k).
Proof.
  induction m as [|[k' v'] m IH]; cbn; [reflexivity|].
  now destruct (String.eqb k' k).
Qed.

Lemma keys_map_values {V W : Type} (f : V -> W) (m : JsMap.t V) :
  JsMap.keys (map (fun node => (fst node, f (snd node))) m) = JsMap.keys m.
Proof.
  unfold JsMap.keys. rewrite map_map. reflexivity.
Qed.

Lemma edge_decay net x y :
  HebbianNetwork.wf net ->
  edge (HebbianNetwork.decay net) x y =
  match edge net x y with
  | Some s => decayed (HebbianNetwork.decayRate net) s
  | None => None
  end.
Proof.
  intros [_ Hin]. unfold edge, HebbianNetwork.decay. cbn.
  rewrite get_map_values.
  destruct (JsMap.get (HebbianNetwork.associations net) x) as [l|] eqn:E;
    cbn; [|reflexivity].
  apply get_decay_links. apply get_Some_In in E.
  rewrite Forall_forall in Hin. exact (Hin _ E).
Qed.

Lemma wf_decay net :
  HebbianNetwork.wf net -> HebbianNetwork.wf (HebbianNetwork.decay net).
Proof.
  intros [H1 H2]. split; cbn.
  - unfold JsMap.wf. now rewrite keys_map_values.
  - apply Forall_forall. intros node Hnode.
    apply in_map_iff in Hnode. destruct Hnode as [n0 [<- Hn0]]. cbn.
    apply wf_decay_links. rewrite Forall_forall in H2. exact (H2 _ Hn0).
Qed.

(** A weight that reads as 0 decays to nothing. *)
Lemma decayed_zero rate s : Qeq_bool s 0 = true -> decayed rate s = None.
Proof.
  intros H. apply Qeq_bool_iff in H. unfold decayed. cbv zeta.
  now rewrite (mul_zero_below s (Double.sub 1 rate) H).
Qed.

Lemma getStrength_decay net x y :
  HebbianNetwork.wf net ->
  HebbianNetwork.getStrength (HebbianNetwork.decay net) x y =
  or_zero (decayed (HebbianNetwork.decayRate net)
             (HebbianNetwork.getStrength net x y)).
Proof.
  intros Hwf. rewrite !getStrength_edge, edge_decay by exact Hwf.
  destruct (edge net x y) as [s|].
  - change (or_zero (Some s)) with (if Qeq_bool s 0 then 0 else s).
    destruct (Qeq_bool s 0) eqn:E; [|reflexivity].
    rewrite (decayed_zero (HebbianNetwork.decayRate net) s E).
    now rewrite (decayed_zero (HebbianNetwork.decayRate net) 0 eq_refl).
  - change (or_zero None) with 0.
    now rewrite (decayed_zero (HebbianNetwork.decayRate net) 0 eq_refl).
Qed.

Lemma symmetric_decay net :
  HebbianNetwork.wf net -> symmetric net -> symmetric (HebbianNetwork.decay net).
Proof.
  intros Hwf Hsym x y. rewrite !getStrength_decay by exact Hwf.
  now rewrite (Hsym x y).
Qed.

(** *** [removeNode] *)

Lemma edge_removeNode net k x y :
  edge (HebbianNetwork.removeNode net k) x y =
  if String.eqb k x || String.eqb k y then None else edge net x y.
Proof.
  unfold edge, HebbianNetwork.removeNode.
  cbn [HebbianNetwork.associations HebbianNetwork.with_associations].
  rewrite (get_map_values (fun l => JsMap.delete l k)), get_delete.
  destruct (String.eqb k x); cbn [orb option_map]; [reflexivity|].
  destruct (JsMap.get (HebbianNetwork.associations net) x); cbn [option_map].
  - rewrite get_delete. now destruct (String.eqb k y).
  - now destruct (String.eqb k y).
Qed.

Lemma wf_removeNode net k :
  HebbianNetwork.wf net -> HebbianNetwork.wf (HebbianNetwork.removeNode net k).
Proof.
  intros [H1 H2]. split; cbn.
  - unfold JsMap.wf.
    rewrite (keys_map_values (fun l => JsMap.delete l k)). now apply wf_delete.
  - apply Forall_forall. intros node Hnode.
    apply in_map_iff in Hnode. destruct Hnode as [n0 [<- Hn0]]. cbn.
    apply wf_delete. unfold JsMap.delete in Hn0. apply filter_In in Hn0.
    rewrite Forall_forall in H2. apply H2. tauto.
Qed.

Lemma symmetric_removeNode net k :
  symmetric net -> symmetric (HebbianNetwork.removeNode net k).
Proof.
  intros Hsym x y. rewrite !getStrength_edge, !edge_removeNode.
  rewrite (orb_comm (String.eqb k y)).
  destruct (String.eqb k x || String.eqb k y); [reflexivity|].
  rewrite <- !getStrength_edge. apply Hsym.
Qed.

(** *** [coActivate] and runs of operations *)

Lemma graph_inv_coActivate_row net x rest :
  graph_inv net -> graph_inv (HebbianNetwork.coActivate_row net x rest).
Proof.
  unfold HebbianNetwork.coActivate_row. revert net.
  induction rest as [|y rest IH]; intros net [Hwf Hsym]; cbn; [now split|].
  apply IH. split; [now apply wf_strengthen | now apply symmetric_strengthen].
Qed.

Lemma graph_inv_coActivate net ids :
  graph_inv net -> graph_inv (HebbianNetwork.coActivate net ids).
Proof.
  revert net. induction ids as [|x ids IH]; intros net H; cbn; [exact H|].
  apply IH. now apply graph_inv_coActivate_row.
Qed.

Lemma graph_inv_apply net o :
  graph_inv net -> graph_inv (HebbianNetwork.apply net o).
Proof.
  intros H. destruct o as [a b amount|ids| |k]; cbn.
  - destruct H. split; [now apply wf_strengthen | now apply symmetric_strengthen].
  - now apply graph_inv_coActivate.
  - destruct H. split; [now apply wf_decay | now apply symmetric_decay].
  - destruct H. split; [now apply wf_removeNode | now apply symmetric_removeNode].
Qed.

Lemma graph_inv_new decayRate maxStrength :
  graph_inv (HebbianNetwork.new decayRate maxStrength).
Proof.
  split; [split; constructor | intros a b; reflexivity].
Qed.

Lemma graph_inv_run net ops :
  graph_inv net -> graph_inv (HebbianNetwork.run net ops).
Proof.
  unfold HebbianNetwork.run. revert net.
  induction ops as [|o ops IH]; intros net H; cbn; [exact H|].
  apply IH. now apply graph_inv_apply.
Qed.

(** C4.  After any finite sequence of [strengthen], [coActivate], [decay]
    and [removeNode] applied to an empty graph, whatever its decay rate and
    maximal strength, [getStrength (a, b)] equals [getStrength (b, a)] for
    all ids; every prefix of a sequence is a sequence, so this holds after
    every operation. *)
Theorem getStrength_symmetric :
  forall (decayRate maxStrength : Q) (ops : list HebbianNetwork.op) (a b : string),
    HebbianNetwork.getStrength
      (HebbianNetwork.run (HebbianNetwork.new decayRate maxStrength) ops) a b
    = HebbianNetwork.getStrength
        (HebbianNetwork.run (HebbianNetwork.new decayRate maxStrength) ops) b a.
Proof.
  intros decayRate maxStrength ops a b.
  apply (graph_inv_run _ ops (graph_inv_new decayRate maxStrength)).
Qed.

(** ** Serialization of the graph *)

Lemma get_of_pairs {V : Type} (l : list (string * V)) k :
  NoDup (map fst l) ->
  JsMap.get (fold_left (fun mp kv => JsMap.set mp (fst kv) (snd kv)) l JsMap.empty) k
  = JsMap.get l k.
Proof.
  intros Hnd. destruct (JsMap.get l k) as [v|] eqn:E.
  - apply get_fold_set_in; [exact Hnd | now apply get_Some_In].
  - rewrite get_fold_set_other; [reflexivity|]. now apply get_None_keys.
Qed.

Lemma toJSON_pairs net :
  HebbianNetwork.toJSON net =
  fold_left (fun o kv => JsMap.set o (fst kv) (snd kv))
    (map (fun node => (fst node, JsObject.fromEntries (snd node)))
       (JsMap.delete (HebbianNetwork.associations net) JsObject.proto_key))
    JsObject.empty.
Proof.
  unfold HebbianNetwork.toJSON, JsMap.entries, JsMap.delete.
  generalize (@JsObject.empty (JsObject.t Q)).
  induction (HebbianNetwork.associations net) as [|[k links] l IH]; intros o;
    [reflexivity|].
  cbn [fold_left filter fst snd]. rewrite IH. unfold JsObject.assign.
  destruct (String.eqb k JsObject.proto_key); reflexivity.
Qed.

Lemma fromJSON_loop (l : list (string * JsObject.t Q)) net :
  HebbianNetwork.associations
    (fold_left
       (fun net node =>
          HebbianNetwork.with_associations net
            (JsMap.set (HebbianNetwork.associations net) (fst node)
               (JsMap.of_entries (JsObject.entries (snd node)))))
       l net)
  = fold_left (fun mp kv => JsMap.set mp (fst kv) (snd kv))
      (map (fun node => (fst node, JsMap.of_entries (JsObject.entries (snd node)))) l)
      (HebbianNetwork.associations net).
Proof.
  revert net. induction l as [|node l IH]; intros net; [reflexivity|].
  cbn [fold_left map]. now rewrite IH.
Qed.

Lemma get_toJSON net a :
  HebbianNetwork.wf net ->
  JsMap.get (HebbianNetwork.toJSON net) a =
  if String.eqb JsObject.proto_key a then None
  else option_map JsObject.fromEntries
         (JsMap.get (HebbianNetwork.associations net) a).
Proof.
  intros [Hwf _]. rewrite toJSON_pairs, get_of_pairs.
  - rewrite get_map_values, get_delete.
    now destruct (String.eqb JsObject.proto_key a).
  - change (JsMap.wf
              (map (fun node => (fst node, JsObject.fromEntries (snd node)))
                 (JsMap.delete (HebbianNetwork.associations net) JsObject.proto_key))).
    unfold JsMap.wf. rewrite keys_map_values. now apply wf_delete.
Qed.

Lemma wf_toJSON net : JsMap.wf (HebbianNetwork.toJSON net).
Proof. rewrite toJSON_pairs. apply wf_fold_set, wf_nil. Qed.

(** The adjacency rebuilt by [new Map (Object.entries (Object.fromEntries
    (links)))] answers [get] as [links] does. *)
Lemma get_rebuilt_links (links : JsMap.t Q) b :
  JsMap.wf links ->
  JsMap.get (JsMap.of_entries (JsObject.entries (JsObject.fromEntries links))) b
  = JsMap.get links b.
Proof.
  intros Hwf. unfold JsMap.of_entries, JsObject.entries.
  rewrite get_of_pairs.
  - unfold JsObject.fromEntries. now apply get_of_pairs.
  - apply wf_fold_set, wf_nil.
Qed.

(** The stored weights after a round trip: the adjacency of the node
    ["__proto__"] is lost, every other stored weight is kept. *)
Lemma edge_round_trip net decayRate maxStrength a b :
  HebbianNetwork.wf net ->
  edge (HebbianNetwork.fromJSON (HebbianNetwork.toJSON net) decayRate maxStrength) a b
  = if String.eqb JsObject.proto_key a then None else edge net a b.
Proof.
  intros Hwf. unfold edge at 1. unfold HebbianNetwork.fromJSON.
  rewrite fromJSON_loop. cbn [HebbianNetwork.associations HebbianNetwork.new].
  rewrite get_of_pairs.
  2:{ change (JsMap.wf
                (map (fun node : string * JsObject.t Q =>
                        (fst node, JsMap.of_entries (JsObject.entries (snd node))))
                   (JsObject.entries (HebbianNetwork.toJSON net)))).
      unfold JsMap.wf.
      rewrite (keys_map_values (fun o => JsMap.of_entries (JsObject.entries o))).
      apply wf_toJSON. }
  rewrite (get_map_values (fun o => JsMap.of_entries (JsObject.entries o))).
  unfold JsObject.entries at 2.
  rewrite get_toJSON by exact Hwf.
  destruct (String.eqb JsObject.proto_key a); [reflexivity|].
  unfold edge.
  destruct (JsMap.get (HebbianNetwork.associations net) a) as [links|] eqn:E;
    [|reflexivity].
  cbn [option_map]. apply get_rebuilt_links.
  destruct Hwf as [_ Hin]. rewrite Forall_forall in Hin.
  exact (Hin _ (get_Some_In _ _ _ E)).
Qed.

(** The round trip keeps [getStrength (a, b)] for every [a] other than
    ["__proto__"]. *)
Lemma round_trip_other_nodes net decayRate maxStrength a b :
  HebbianNetwork.wf net -> a <> JsObject.proto_key ->
  HebbianNetwork.getStrength
    (HebbianNetwork.fromJSON (HebbianNetwork.toJSON net) decayRate maxStrength) a b
  = HebbianNetwork.getStrength net a b.
Proof.
  intros Hwf Ha. rewrite !getStrength_edge, edge_round_trip by exact Hwf.
  destruct (String.eqb JsObject.proto_key a) eqn:E; [|reflexivity].
  apply String.eqb_eq in E. congruence.
Qed.

(** C8, at the input on which the code fails.  The graph built by
    [strengthen ("__proto__", "b", 0.5)] has weight 0.5 between the two ids
    in both directions; after [fromJSON (toJSON (g))] the weight from
    ["__proto__"] to ["b"] reads 0 while the weight from ["b"] to
    ["__proto__"] still reads 0.5: [toJSON] assigns the adjacency of the
    node to the key ["__proto__"] of an object literal, which sets the
    object's prototype and creates no property. *)
Theorem round_trip_loses_proto_node :
  HebbianNetwork.getStrength proto_graph "__proto__" "b" = 0.5
  /\ HebbianNetwork.getStrength proto_graph "b" "__proto__" = 0.5
  /\ HebbianNetwork.toJSON proto_graph = [("b"%string, [("__proto__"%string, 0.5)])]
  /\ HebbianNetwork.getStrength
       (HebbianNetwork.fromJSON (HebbianNetwork.toJSON proto_graph) None None)
       "__proto__" "b" = 0
  /\ HebbianNetwork.getStrength
       (HebbianNetwork.fromJSON (HebbianNetwork.toJSON proto_graph) None None)
       "b" "__proto__" = 0.5.
Proof. repeat split. Qed.

(** ** The bound of the working set *)

Lemma add_config pow m c i tg k now now' :
  ShortTermMemory.config (snd (ShortTermMemory.add pow m c i tg k now now'))
  = ShortTermMemory.config m.
Proof.
  unfold ShortTermMemory.add.
  cbn [snd ShortTermMemory.config ShortTermMemory.entries].
  match goal with |- context [if ?b then _ else _] => destruct b end;
    reflexivity.
Qed.

Lemma add_size_bound pow m c i tg k now now' :
  (ShortTermMemory.size (snd (ShortTermMemory.add pow m c i tg k now now'))
   <= ShortTermMemory.maxSize (ShortTermMemory.config m))%nat.
Proof.
  unfold ShortTermMemory.add, ShortTermMemory.size.
  cbn [snd ShortTermMemory.config ShortTermMemory.entries].
  match goal with |- context [if ?b then _ else _] => destruct b eqn:E end.
  - unfold ShortTermMemory.evict, slice0.
    cbn [ShortTermMemory.config ShortTermMemory.entries].
    rewrite length_firstn. lia.
  - apply Nat.ltb_ge in E. exact E.
Qed.

Lemma run_adds_config pow m calls :
  ShortTermMemory.config (run_adds pow m calls) = ShortTermMemory.config m.
Proof.
  unfold run_adds. revert m.
  induction calls as [|c calls IH]; intros m; cbn [fold_left]; [reflexivity|].
  rewrite IH. apply add_config.
Qed.

Lemma run_adds_snoc pow m calls c :
  run_adds pow m (calls ++ [c]) =
  snd (ShortTermMemory.add pow (run_adds pow m calls) (call_content c)
         (call_importance c) (call_tags c) (call_id c) (call_now c)
         (call_now_evict c)).
Proof. unfold run_adds. now rewrite fold_left_app. Qed.

(** When the store is full, [add] drops exactly one of the entries it
    holds after the push, one of lowest relevance at the clock reading of
    the eviction. *)
Lemma add_to_full_store pow m c i tg k now now' :
  ShortTermMemory.size m = ShortTermMemory.maxSize (ShortTermMemory.config m) ->
  let pushed :=
    ShortTermMemory.entries m ++ [createMemoryEntry k c i tg short_term now] in
  let m' := snd (ShortTermMemory.add pow m c i tg k now now') in
  exists dropped,
    Permutation pushed (dropped :: ShortTermMemory.entries m')
    /\ ShortTermMemory.size m' = ShortTermMemory.size m
    /\ forall e, In e pushed ->
         calculateRelevance pow dropped now' <= calculateRelevance pow e now'.
Proof.
  intros Hfull pushed m'. subst m'.
  unfold ShortTermMemory.add, ShortTermMemory.size in *.
  cbn [snd ShortTermMemory.entries ShortTermMemory.config].
  fold pushed.
  assert (Hlen : List.length pushed
                 = S (ShortTermMemory.maxSize (ShortTermMemory.config m))).
  { unfold pushed. rewrite length_app. cbn. lia. }
  assert (E : (ShortTermMemory.maxSize (ShortTermMemory.config m)
               <? List.length pushed)%nat = true) by (apply Nat.ltb_lt; lia).
  rewrite E. unfold ShortTermMemory.evict, slice0.
  cbn [ShortTermMemory.entries ShortTermMemory.config].
  set (n := ShortTermMemory.maxSize (ShortTermMemory.config m)) in *.
  set (sorted := js_sort (by_relevance_desc pow now') pushed).
  assert (Hperm : Permutation sorted pushed) by apply js_sort_perm.
  assert (Hsl : List.length sorted = S n)
    by (unfold sorted; now rewrite js_sort_length).
  destruct (skipn n sorted) as [|dropped tl] eqn:Hskip.
  { exfalso. assert (H := length_skipn n sorted). rewrite Hskip in H.
    cbn in H. lia. }
  assert (tl = []).
  { assert (H := length_skipn n sorted). rewrite Hskip in H. cbn in H.
    destruct tl; [reflexivity | cbn in H; lia]. }
  subst tl. exists dropped.
  assert (Hsplit : sorted = firstn n sorted ++ [dropped])
    by (rewrite <- Hskip; symmetry; apply firstn_skipn).
  split; [|split].
  - rewrite <- Hperm. rewrite Hsplit at 1.
    rewrite <- Permutation_cons_append. reflexivity.
  - rewrite length_firstn. lia.
  - intros e He.
    assert (Hsorted : StronglySorted
                        (fun a b => calculateRelevance pow b now'
                                    <= calculateRelevance pow a now') sorted).
    { apply (js_sort_desc (by_relevance_desc pow now')
               (fun e => calculateRelevance pow e now')).
      intros a b. reflexivity. }
    destruct (firstn_skipn_sorted _ n sorted Hsorted) as [_ Hcross].
    apply (Permutation_in _ (Permutation_sym Hperm)) in He.
    rewrite Hsplit in He. apply in_app_or in He. destruct He as [He|[<-|[]]].
    + apply Hcross; [exact He | rewrite Hskip; now left].
    + apply Qle_refl.
Qed.

(** C5.  After every sequence of [add] calls on a working-set store
    created with a configuration, the size is at most [maxSize]; and
    adding to a store configured with [maxSize = 5] that holds five entries
    removes exactly one entry, one whose relevance at the eviction is the
    lowest among the six. *)
Theorem working_set_bounded :
  forall pow_half,
    (forall cfg calls,
        (ShortTermMemory.size (run_adds pow_half (ShortTermMemory.new cfg) calls)
         <= ShortTermMemory.maxSize cfg)%nat)
    /\ (forall m c i tg k now now',
          ShortTermMemory.maxSize (ShortTermMemory.config m) = 5%nat ->
          ShortTermMemory.size m = 5%nat ->
          let pushed :=
            ShortTermMemory.entries m ++ [createMemoryEntry k c i tg short_term now] in
          let m' := snd (ShortTermMemory.add pow_half m c i tg k now now') in
          exists dropped,
            Permutation pushed (dropped :: ShortTermMemory.entries m')
            /\ ShortTermMemory.size m' = 5%nat
            /\ forall e, In e pushed ->
                 calculateRelevance pow_half dropped now'
                 <= calculateRelevance pow_half e now').
Proof.
  intros pow_half. split.
  - intros cfg calls. destruct calls as [|c calls] using rev_ind.
    + cbn. lia.
    + rewrite run_adds_snoc.
      etransitivity; [apply add_size_bound|].
      now rewrite run_adds_config.
  - intros m c i tg k now now' Hmax Hsize pushed m'.
    destruct (add_to_full_store pow_half m c i tg k now now') as [d [H1 [H2 H3]]];
      [congruence|].
    exists d. split; [exact H1|]. split; [|exact H3].
    fold m' in H2. congruence.
Qed.

Lemma working_set_bounded_witness :
  ShortTermMemory.maxSize (ShortTermMemory.config st_full) = 5%nat
  /\ ShortTermMemory.size st_full = 5%nat
  /\ exists dropped,
       Permutation
         (ShortTermMemory.entries st_full
          ++ [createMemoryEntry "e5" "entry 5" 0.5 [] short_term 1000])
         (dropped
          :: ShortTermMemory.entries
               (snd (ShortTermMemory.add pow_half_approx st_full "entry 5" 0.5 []
                       "e5" 1000 2000)))
       /\ ShortTermMemory.size
            (snd (ShortTermMemory.add pow_half_approx st_full "entry 5" 0.5 []
                    "e5" 1000 2000)) = 5%nat
       /\ forall e,
            In e (ShortTermMemory.entries st_full
                  ++ [createMemoryEntry "e5" "entry 5" 0.5 [] short_term 1000]) ->
            calculateRelevance pow_half_approx dropped 2000
            <= calculateRelevance pow_half_approx e 2000.
Proof.
  split; [reflexivity|]. split; [reflexivity|].
  exact (proj2 (working_set_bounded pow_half_approx) st_full
           "entry 5"%string 0.5 [] "e5"%string 1000%Z 2000%Z eq_refl eq_refl).
Defined.

(** ** Recall *)

Lemma has_add_same seen k : JsSet.has (JsSet.add seen k) k = true.
Proof.
  unfold JsSet.add. destruct (JsSet.has seen k) eqn:E; [exact E|].
  unfold JsSet.has. rewrite existsb_app. cbn.
  rewrite String.eqb_refl. now rewrite orb_true_r.
Qed.

Lemma has_add_mono seen k k' :
  JsSet.has seen k' = true -> JsSet.has (JsSet.add seen k) k' = true.
Proof.
  intros H. unfold JsSet.add. destruct (JsSet.has seen k); [exact H|].
  unfold JsSet.has in *. rewrite existsb_app. now rewrite H.
Qed.

Lemma first_by_id_app seen l1 l2 :
  first_by_id seen (l1 ++ l2)
  = first_by_id seen l1 ++ first_by_id (seen_after seen l1) l2.
Proof.
  revert seen. induction l1 as [|eb l1 IH]; intros seen; cbn; [reflexivity|].
  destruct (JsSet.has seen (id (fst eb))); cbn; now rewrite IH.
Qed.

Lemma seen_after_app seen l1 l2 :
  seen_after seen (l1 ++ l2) = seen_after (seen_after seen l1) l2.
Proof.
  revert seen. induction l1 as [|eb l1 IH]; intros seen; cbn; [reflexivity|].
  apply IH.
Qed.

(** [addResults] is the merge by id followed by the scoring. *)
Lemma addResults_spec query boost seen merged entries :
  MemoryManager.addResults query boost (seen, merged) entries
  = (seen_after seen (map (fun e => (e, boost)) entries),
     merged ++ map (with_score query)
                 (first_by_id seen (map (fun e => (e, boost)) entries))).
Proof.
  unfold MemoryManager.addResults. revert seen merged.
  induction entries as [|e entries IH]; intros seen merged; cbn.
  - now rewrite app_nil_r.
  - destruct (JsSet.has seen (id e)); cbn; rewrite IH; [reflexivity|].
    now rewrite <- app_assoc.
Qed.

Lemma recall_merged_spec m query limit now :
  fst (MemoryManager.recall_merged m query limit now)
  = merged_scored query
      (fst (LongTermMemory.searchWithAssociations (MemoryManager.longTerm m)
              query limit now))
      (ShortTermMemory.search (MemoryManager.shortTerm m) query limit)
      (FleetingMemory.search (MemoryManager.fleeting m) query).
Proof.
  unfold MemoryManager.recall_merged, merged_scored, tier_candidates.
  destruct (LongTermMemory.searchWithAssociations _ _ _ _) as [ltR lt'].
  cbn [fst snd]. rewrite !addResults_spec. cbn [fst snd app].
  rewrite !first_by_id_app, !map_app, app_assoc. reflexivity.
Qed.

Lemma first_by_id_fresh seen l eb :
  In eb (first_by_id seen l) -> JsSet.has seen (id (fst eb)) = false.
Proof.
  revert seen. induction l as [|x l IH]; intros seen; cbn; [tauto|].
  destruct (JsSet.has seen (id (fst x))) eqn:E; [apply IH|].
  intros [<-|H]; [exact E|].
  specialize (IH _ H).
  destruct (JsSet.has seen (id (fst eb))) eqn:E'; [|reflexivity].
  now rewrite (has_add_mono seen (id (fst x)) _ E') in IH.
Qed.

Lemma first_by_id_NoDup seen l :
  NoDup (map (fun eb => id (fst eb)) (first_by_id seen l)).
Proof.
  revert seen. induction l as [|x l IH]; intros seen; cbn; [constructor|].
  destruct (JsSet.has seen (id (fst x))); [apply IH|].
  cbn. constructor; [|apply IH].
  intros Hin. apply in_map_iff in Hin. destruct Hin as [eb [Heq Hin]].
  apply first_by_id_fresh in Hin. rewrite Heq in Hin.
  now rewrite has_add_same in Hin.
Qed.

Lemma first_by_id_incl seen l : incl (first_by_id seen l) l.
Proof.
  revert seen. induction l as [|x l IH]; intros seen eb; cbn; [tauto|].
  destruct (JsSet.has seen (id (fst x))).
  - intros H. right. now apply (IH seen).
  - intros [H|H]; [now left | right; exact (IH _ eb H)].
Qed.

(** A kept entry is the first candidate with its id. *)
Lemma first_by_id_first seen l eb :
  In eb (first_by_id seen l) ->
  exists l1 l2,
    l = l1 ++ eb :: l2
    /\ ~ In (id (fst eb)) (map (fun c => id (fst c)) l1).
Proof.
  revert seen. induction l as [|x l IH]; intros seen; cbn [first_by_id]; [intros []|].
  destruct (JsSet.has seen (id (fst x))) eqn:E.
  - intros H. pose proof (first_by_id_fresh _ _ _ H) as Hf.
    destruct (IH _ H) as (l1 & l2 & -> & Hn).
    exists (x :: l1), l2. split; [reflexivity|].
    cbn. intros [Heq|Hin]; [|contradiction]. congruence.
  - intros [<-|H].
    + exists [], l. split; [reflexivity | intros []].
    + pose proof (first_by_id_fresh _ _ _ H) as Hf.
      destruct (IH _ H) as (l1 & l2 & -> & Hn).
      exists (x :: l1), l2. split; [reflexivity|].
      cbn. intros [Heq|Hin]; [|contradiction].
      rewrite <- Heq, has_add_same in Hf. discriminate.
Qed.

Lemma has_add_other seen k k' :
  k <> k' -> JsSet.has seen k' = false -> JsSet.has (JsSet.add seen k) k' = false.
Proof.
  intros Hne H. unfold JsSet.add. destruct (JsSet.has seen k); [exact H|].
  unfold JsSet.has in *. rewrite existsb_app, H. cbn.
  assert (E : String.eqb k' k = false) by (apply String.eqb_neq; congruence).
  now rewrite E.
Qed.

(** No id of a candidate is lost by the merge. *)
Lemma first_by_id_complete seen l eb :
  In eb l -> JsSet.has seen (id (fst eb)) = false ->
  In (id (fst eb)) (map (fun c => id (fst c)) (first_by_id seen l)).
Proof.
  revert seen. induction l as [|x l IH]; intros seen Hin Hs; [destruct Hin|].
  cbn [first_by_id]. destruct Hin as [->|Hin].
  - rewrite Hs. now left.
  - destruct (JsSet.has seen (id (fst x))) eqn:E; [now apply IH|].
    destruct (string_dec (id (fst x)) (id (fst eb))) as [Heq|Hne].
    + left. exact Heq.
    + right. apply IH; [exact Hin | now apply has_add_other].
Qed.

Lemma recall_fst m query limit now :
  fst (MemoryManager.recall m query limit now)
  = map fst
      (firstn limit
         (js_sort (fun a b => snd b - snd a)
            (merged_scored query
               (fst (LongTermMemory.searchWithAssociations
                       (MemoryManager.longTerm m) query limit now))
               (ShortTermMemory.search (MemoryManager.shortTerm m) query limit)
               (FleetingMemory.search (MemoryManager.fleeting m) query)))).
Proof.
  unfold MemoryManager.recall.
  pose proof (recall_merged_spec m query limit now) as Hm.
  destruct (MemoryManager.recall_merged m query limit now) as [mg lt'].
  cbn [fst] in Hm. subst mg. reflexivity.
Qed.

Lemma merged_scored_NoDup query l1 l2 l3 :
  NoDup (map id (map fst (merged_scored query l1 l2 l3))).
Proof.
  unfold merged_scored. rewrite !map_map. cbn. apply first_by_id_NoDup.
Qed.

Lemma merged_scored_origin query l1 l2 l3 eb :
  In eb (merged_scored query l1 l2 l3) ->
  exists boost before after,
    tier_candidates l1 l2 l3 = before ++ (fst eb, boost) :: after
    /\ ~ In (id (fst eb)) (map (fun c => id (fst c)) before)
    /\ snd eb = Double.add (jaccardSimilarity query (content (fst eb))) boost.
Proof.
  unfold merged_scored. intros H. apply in_map_iff in H.
  destruct H as [[e b] [<- H]]. apply first_by_id_first in H.
  destruct H as (l1' & l2' & Heq & Hn).
  exists b, l1', l2'. split; [exact Heq|]. split; [exact Hn | reflexivity].
Qed.

Lemma merged_scored_complete query l1 l2 l3 c :
  In c (tier_candidates l1 l2 l3) ->
  In (id (fst c)) (map id (map fst (merged_scored query l1 l2 l3))).
Proof.
  intros H. unfold merged_scored. rewrite !map_map. cbn.
  now apply first_by_id_complete.
Qed.

(** C3.  [recall] returns the entries of the list obtained as follows: the
    results of the long-term, working-set and fleeting searches are put one
    after the other with boosts 0.2, 0.1 and 0; of the entries with the
    same id the first is kept, so that every id survives exactly once; each
    kept entry gets as score the Jaccard similarity of the query to its
    content plus its boost, the sum being the double-precision sum the
    program computes; the list is sorted (stably) by descending score and
    cut to its first [limit] elements. *)
Theorem recall_merges_scores_sorts :
  forall (m : MemoryManager.t) (query : string) (limit : nat) (now : Z),
    let longTermResults :=
      fst (LongTermMemory.searchWithAssociations (MemoryManager.longTerm m)
             query limit now) in
    let shortTermResults :=
      ShortTermMemory.search (MemoryManager.shortTerm m) query limit in
    let fleetingResults := FleetingMemory.search (MemoryManager.fleeting m) query in
    let merged :=
      merged_scored query longTermResults shortTermResults fleetingResults in
    let ranked := js_sort (fun a b => snd b - snd a) merged in
    fst (MemoryManager.recall m query limit now) = map fst (firstn limit ranked)
    /\ Permutation ranked merged
    /\ StronglySorted score_desc ranked
    /\ StronglySorted score_desc (firstn limit ranked)
    /\ NoDup (map id (map fst merged))
    /\ (forall eb, In eb merged ->
          exists boost before after,
            tier_candidates longTermResults shortTermResults fleetingResults
            = before ++ (fst eb, boost) :: after
            /\ ~ In (id (fst eb)) (map (fun c => id (fst c)) before)
            /\ snd eb = Double.add (jaccardSimilarity query (content (fst eb))) boost)
    /\ (forall c,
          In c (tier_candidates longTermResults shortTermResults fleetingResults) ->
          In (id (fst c)) (map id (map fst merged)))
    /\ (List.length (fst (MemoryManager.recall m query limit now)) <= limit)%nat.
Proof.
  intros m query limit now longTermResults shortTermResults fleetingResults
    merged ranked.
  assert (Hres : fst (MemoryManager.recall m query limit now)
                 = map fst (firstn limit ranked)) by apply recall_fst.
  assert (Hsorted : StronglySorted score_desc ranked).
  { apply (js_sort_desc (fun a b : MemoryEntry * Q => snd b - snd a) snd).
    intros a b. reflexivity. }
  repeat split.
  - exact Hres.
  - apply js_sort_perm.
  - exact Hsorted.
  - now apply firstn_skipn_sorted.
  - apply merged_scored_NoDup.
  - apply merged_scored_origin.
  - apply merged_scored_complete.
  - rewrite Hres, length_map, length_firstn. lia.
Qed.

(** ** Co-activation on recall *)

Lemma getStrength_strengthen_directed net a b amount x y :
  HebbianNetwork.getStrength (HebbianNetwork.strengthen net a b amount) x y =
  if (String.eqb a x && String.eqb b y) || (String.eqb b x && String.eqb a y)
  then or_zero (Some (Qmin (HebbianNetwork.maxStrength net)
                        (Double.add (HebbianNetwork.getStrength net x y) amount)))
  else HebbianNetwork.getStrength net x y.
Proof.
  rewrite getStrength_edge, edge_strengthen.
  destruct (String.eqb b x) eqn:E1, (String.eqb a y) eqn:E2,
           (String.eqb a x) eqn:E3, (String.eqb b y) eqn:E4; cbn [andb orb];
    repeat match goal with
           | H : String.eqb _ _ = true |- _ => apply String.eqb_eq in H
           end;
    subst; reflexivity.
Qed.

Lemma maxStrength_strengthen net a b amount :
  HebbianNetwork.maxStrength (HebbianNetwork.strengthen net a b amount)
  = HebbianNetwork.maxStrength net.
Proof.
  unfold HebbianNetwork.strengthen. cbn. now rewrite !maxStrength_ensureNode.
Qed.

Lemma maxStrength_row net x rest :
  HebbianNetwork.maxStrength (HebbianNetwork.coActivate_row net x rest)
  = HebbianNetwork.maxStrength net.
Proof.
  unfold HebbianNetwork.coActivate_row. revert net.
  induction rest as [|y rest IH]; intros net; cbn [fold_left]; [reflexivity|].
  rewrite IH. apply maxStrength_strengthen.
Qed.

Lemma maxStrength_coActivate net ids :
  HebbianNetwork.maxStrength (HebbianNetwork.coActivate net ids)
  = HebbianNetwork.maxStrength net.
Proof.
  revert net. induction ids as [|x ids IH]; intros net; cbn; [reflexivity|].
  rewrite IH. apply maxStrength_row.
Qed.






Lemma has_set {V : Type} (m : JsMap.t V) k v k' :
  JsMap.has (JsMap.set m k v) k' = String.eqb k k' || JsMap.has m k'.
Proof.
  unfold JsMap.has. rewrite get_set. now destruct (String.eqb k k').
Qed.

Lemma is_node_ensureNode net k k' :
  is_node (HebbianNetwork.ensureNode net k) k' = String.eqb k k' || is_node net k'.
Proof.
  unfold is_node, HebbianNetwork.ensureNode.
  destruct (JsMap.has (HebbianNetwork.associations net) k) eqn:E.
  - destruct (String.eqb k k') eqn:E'; [|reflexivity].
    apply String.eqb_eq in E'. subst. now rewrite E.
  - cbn. apply has_set.
Qed.

Lemma is_node_set_link net a b v k :
  is_node (HebbianNetwork.set_link net a b v) k = String.eqb a k || is_node net k.
Proof. unfold is_node, HebbianNetwork.set_link. cbn. apply has_set. Qed.

Lemma is_node_strengthen net a b amount k :
  is_node (HebbianNetwork.strengthen net a b amount) k
  = String.eqb a k || String.eqb b k || is_node net k.
Proof.
  unfold HebbianNetwork.strengthen.
  rewrite !is_node_set_link, !is_node_ensureNode.
  destruct (String.eqb a k), (String.eqb b k); reflexivity.
Qed.




(** *** The network around [recall] and [save] *)





Lemma recall_ids_NoDup m query limit now :
  NoDup (map id (fst (MemoryManager.recall m query limit now))).
Proof.
  rewrite recall_fst, map_map.
  eapply NoDup_map_sub;
    [rewrite firstn_skipn; apply js_sort_perm|].
  rewrite <- map_map. apply merged_scored_NoDup.
Qed.



Lemma save_writes_document lt d :
  LongTermMemory.no_path lt = false -> LongTermMemory.dirty lt = true ->
  snd (LongTermMemory.save lt d)
    (LongTermMemory.storagePath (LongTermMemory.config lt))
  = Readable
      (Stringified
         {| StorageFormat.entries := JsMap.values (LongTermMemory.entries lt);
            StorageFormat.associations :=
              Some (HebbianNetwork.toJSON (LongTermMemory.network lt));
            StorageFormat.version := 1 |}).
Proof.
  intros Hp Hd. unfold LongTermMemory.save. rewrite Hp, Hd. cbn.
  unfold writeFile. now rewrite String.eqb_refl.
Qed.




(** ** Consolidation *)

Lemma has_fold_add l s k :
  JsSet.has (fold_left JsSet.add l s) k = true <-> JsSet.has s k = true \/ In k l.
Proof.
  revert s. induction l as [|x l IH]; intros s; cbn [fold_left].
  - cbn. tauto.
  - rewrite IH. cbn [In]. split.
    + intros [H|H]; [|tauto].
      destruct (String.eqb x k) eqn:E.
      * apply String.eqb_eq in E. subst. right. now left.
      * left. unfold JsSet.add in H. destruct (JsSet.has s x); [exact H|].
        unfold JsSet.has in *. rewrite existsb_app in H. cbn in H.
        rewrite String.eqb_sym in E. rewrite E in H.
        now rewrite !orb_false_r in H.
    + intros [H|[<-|H]]; [left; now apply has_add_mono | left; apply has_add_same | tauto].
Qed.

Lemma has_of_list l k : JsSet.has (JsSet.of_list l) k = true <-> In k l.
Proof.
  unfold JsSet.of_list. rewrite has_fold_add. cbn. split; [|tauto].
  intros [H|H]; [discriminate | exact H].
Qed.





Lemma promote_all_snoc lt l x :
  MemoryManager.promote_all lt (l ++ [x])
  = snd (LongTermMemory.promote (MemoryManager.promote_all lt l) x).
Proof. unfold MemoryManager.promote_all. now rewrite fold_left_app. Qed.

Lemma promote_all_config lt l :
  LongTermMemory.config (MemoryManager.promote_all lt l) = LongTermMemory.config lt.
Proof.
  induction l as [|x l IH] using rev_ind; [reflexivity|].
  now rewrite promote_all_snoc.
Qed.











(** ** The examples of the specification *)


Lemma access_bookkeeping_on_reads_witness :
  JsMap.get (LongTermMemory.entries lt_one_entry) "id-1"
  = Some (createMemoryEntry "id-1" "important discovery" 0.9 [] long_term 0)
  /\ option_map accessCount (fst (LongTermMemory.get lt_one_entry "id-1" 5000))
     = Some 1%Z
  /\ option_map lastAccessed (fst (LongTermMemory.get lt_one_entry "id-1" 5000))
     = Some 5000%Z.
Proof.
  assert (H : JsMap.get (LongTermMemory.entries lt_one_entry) "id-1"
              = Some (createMemoryEntry "id-1" "important discovery" 0.9 []
                        long_term 0)) by reflexivity.
  destruct (access_bookkeeping_on_reads 5000) as (_ & _ & _ & Hget & _).
  destruct (Hget lt_one_entry "id-1"%string _ H) as [Hr _].
  split; [exact H|]. rewrite Hr. split; reflexivity.
Defined.

(** ** The repository's tests, replayed on the model *)

Example strengthen_creates_bidirectional_association :
  let g := HebbianNetwork.strengthen (HebbianNetwork.new 0.1 1) "a" "b" 0.3 in
  toBeCloseTo (HebbianNetwork.getStrength g "a" "b") 0.3
  /\ toBeCloseTo (HebbianNetwork.getStrength g "b" "a") 0.3.
Proof. vm_compute. repeat split. Qed.

Example strengthen_respects_maxStrength :
  let g := HebbianNetwork.strengthen (HebbianNetwork.new 0.1 1) "a" "b" 0.8 in
  HebbianNetwork.getStrength (HebbianNetwork.strengthen g "a" "b" 0.8) "a" "b" == 1.
Proof. vm_compute. reflexivity. Qed.

Example decay_reduces_all_strengths :
  let g := HebbianNetwork.strengthen (HebbianNetwork.new 0.1 1) "a" "b" 0.5 in
  toBeCloseTo (HebbianNetwork.getStrength (HebbianNetwork.decay g) "a" "b") 0.45.
Proof. vm_compute. repeat split. Qed.

Example decay_removes_very_weak_associations :
  let g := HebbianNetwork.strengthen (HebbianNetwork.new 0.1 1) "a" "b" 0.005 in
  HebbianNetwork.getStrength (HebbianNetwork.decay g) "a" "b" = 0.
Proof. reflexivity. Qed.

(** The literal 0.1 denotes 3602879701896397 / 2^55; 0.1 + 0.2 is
    0.30000000000000004; a number that a double holds is left alone; half
    of the smallest subnormal number rounds to 0. *)
Example rounding_samples :
  Double.round 0.1 == 3602879701896397 # 36028797018963968
  /\ Double.add 0.1 0.2 == 1351079888211149 # 4503599627370496
  /\ Double.round 0.5 = 0.5
  /\ Double.round (1 # 2 ^ 1075) == 0
  /\ Double.round (3 # 2 ^ 1075) == 1 # 2 ^ 1073.
Proof. vm_compute. repeat split. Qed.

(** Sums of doubles: three default amounts add up to
    0.30000000000000004, ten to 0.9999999999999999, below the cap 1. *)
Example strengthen_adds_doubles :
  HebbianNetwork.getStrength
    (HebbianNetwork.run (HebbianNetwork.new 0.05 1)
       (repeat (HebbianNetwork.Strengthen "a" "b" 0.1) 3)) "a" "b"
  == 1351079888211149 # 4503599627370496
  /\ HebbianNetwork.getStrength
       (HebbianNetwork.run (HebbianNetwork.new 0.05 1)
          (repeat (HebbianNetwork.Strengthen "a" "b" 0.1) 10)) "a" "b"
     == 9007199254740991 # 9007199254740992.
Proof. vm_compute. split; reflexivity. Qed.

(** A product of doubles: with decay rate 0.9 the weight 0.1 becomes
    0.009999999999999998, below the threshold 0.01, and the link goes. *)
Example decay_multiplies_doubles :
  Double.mul 0.1 (Double.sub 1 0.9) == 2882303761517117 # 288230376151711744
  /\ Double.ltb (Double.mul 0.1 (Double.sub 1 0.9)) 0.01 = true
  /\ edge (HebbianNetwork.decay
             (HebbianNetwork.strengthen (HebbianNetwork.new 0.9 1) "a" "b" 0.1))
        "a" "b" = None.
Proof. vm_compute. repeat split. Qed.

Example removeNode_removes_node_and_its_associations :
  let g := HebbianNetwork.strengthen (HebbianNetwork.new 0.1 1) "a" "b" 0.5 in
  let g := HebbianNetwork.strengthen g "a" "c" 0.3 in
  let g := HebbianNetwork.removeNode g "a" in
  HebbianNetwork.getStrength g "a" "b" = 0
  /\ HebbianNetwork.getStrength g "b" "a" = 0
  /\ HebbianNetwork.size g = 2%nat.
Proof. repeat split. Qed.

Example recall_prioritizes_long_term_over_short_term :
  map source (fst (MemoryManager.recall manager_two_tiers "cache architecture" 10 2000))
  = [long_term; short_term].
Proof. reflexivity. Qed.

(** Scores are sums of doubles: 0.7 + 0.2 is 0.8999999999999999, below
    0.8 + 0.1, which is 0.9, so that with [limit = 1] the working-set entry
    is returned and the long-term entry is not. *)
Example recall_ranks_by_the_double_sum :
  Double.add 0.7 0.2 < Double.add 0.8 0.1
  /\ map id (fst (MemoryManager.recall manager_near_tie "a b c d e f g h i j" 1 2000))
     = ["id-short"%string].
Proof. vm_compute. split; reflexivity. Qed.

Example evicts_when_exceeding_maxSize :
  ShortTermMemory.size
    (run_adds pow_half_approx
       (ShortTermMemory.new {| ShortTermMemory.maxSize := 5;
                               ShortTermMemory.compressionThreshold := 0.8 |})
       seven_calls) = 5%nat.
Proof. reflexivity. Qed.

Example load_handles_missing_file :
  option_map LongTermMemory.size
    (match LongTermMemory.load
             (LongTermMemory.new
                {| LongTermMemory.storagePath := "/nonexistent/path.json";
                   LongTermMemory.pruneThreshold := 0.01;
                   LongTermMemory.maxEntries := 1000 |} None)
             empty_disk with
     | Normal m => Some m
     | Throw => None
     end) = Some 0%nat.
Proof. reflexivity. Qed.

Example save_and_load_persists_data :
  let saved := LongTermMemory.save lt_one_entry empty_disk in
  option_map (fun m => map content (LongTermMemory.getAll m))
    (match LongTermMemory.load
             (LongTermMemory.new (LongTermMemory.config lt_one_entry) None)
             (snd saved) with
     | Normal m => Some m
     | Throw => None
     end) = Some ["important discovery"%string].
Proof. reflexivity. Qed.

(** * Further properties of the code *)

(** ** The associative graph, operation by operation *)

(** X1.  [strengthen (a, b, amount)] sets the strength from [a] to [b] and
    the strength from [b] to [a] each to its former value plus [amount],
    the sum being the double-precision sum the program computes, capped at
    [maxStrength] (a result of 0 reads as 0), and leaves the strength of
    every other ordered pair, the decay rate and the maximal strength as
    they were. *)
Theorem strengthen_updates_its_pair_only :
  forall (net : HebbianNetwork.t) (a b : string) (amount : Q),
    let net' := HebbianNetwork.strengthen net a b amount in
    HebbianNetwork.getStrength net' a b
    = or_zero (Some (Qmin (HebbianNetwork.maxStrength net)
                       (Double.add (HebbianNetwork.getStrength net a b) amount)))
    /\ HebbianNetwork.getStrength net' b a
       = or_zero (Some (Qmin (HebbianNetwork.maxStrength net)
                          (Double.add (HebbianNetwork.getStrength net b a) amount)))
    /\ (forall x y, ~ (x = a /\ y = b) -> ~ (x = b /\ y = a) ->
          HebbianNetwork.getStrength net' x y = HebbianNetwork.getStrength net x y)
    /\ HebbianNetwork.maxStrength net' = HebbianNetwork.maxStrength net
    /\ HebbianNetwork.decayRate net' = HebbianNetwork.decayRate net.
Proof.
  intros net a b amount net'. subst net'. repeat split.
  - rewrite getStrength_strengthen_directed, !String.eqb_refl. reflexivity.
  - rewrite getStrength_strengthen_directed, !String.eqb_refl.
    cbn [andb]. now rewrite orb_true_r.
  - intros x y H1 H2. rewrite getStrength_strengthen_directed.
    destruct (String.eqb a x && String.eqb b y) eqn:E1.
    { apply andb_true_iff in E1. destruct E1 as [E1 E1'].
      apply String.eqb_eq in E1. apply String.eqb_eq in E1'.
      exfalso. apply H1. now subst. }
    destruct (String.eqb b x && String.eqb a y) eqn:E2; [|reflexivity].
    apply andb_true_iff in E2. destruct E2 as [E2 E2'].
    apply String.eqb_eq in E2. apply String.eqb_eq in E2'.
    exfalso. apply H2. now subst.
  - apply maxStrength_strengthen.
  - unfold HebbianNetwork.strengthen, HebbianNetwork.set_link,
      HebbianNetwork.with_associations, HebbianNetwork.ensureNode.
    cbn. repeat match goal with
                | |- context [if ?c then _ else _] => destruct c; cbn
                end; reflexivity.
Qed.

Lemma getStrength_removeNode net k x y :
  HebbianNetwork.getStrength (HebbianNetwork.removeNode net k) x y
  = if String.eqb k x || String.eqb k y then 0
    else HebbianNetwork.getStrength net x y.
Proof.
  rewrite !getStrength_edge, edge_removeNode.
  now destruct (String.eqb k x || String.eqb k y).
Qed.

Lemma is_node_removeNode net k k' :
  is_node (HebbianNetwork.removeNode net k) k'
  = negb (String.eqb k k') && is_node net k'.
Proof.
  unfold is_node, HebbianNetwork.removeNode, JsMap.has. cbn.
  rewrite (get_map_values (fun l => JsMap.delete l k)), get_delete.
  destruct (String.eqb k k'); cbn; [reflexivity|].
  now destruct (JsMap.get (HebbianNetwork.associations net) k').
Qed.

(** X2.  After [removeNode (id)] the strength between [id] and any other
    id reads 0 in both directions, [id] is no longer a node, no adjacency
    mentions [id], and the strength of every pair that does not involve
    [id] is unchanged. *)
Theorem removeNode_leaves_no_dangling_edge :
  forall (net : HebbianNetwork.t) (k : string),
    let net' := HebbianNetwork.removeNode net k in
    (forall x, HebbianNetwork.getStrength net' k x = 0
               /\ HebbianNetwork.getStrength net' x k = 0)
    /\ JsMap.has (HebbianNetwork.associations net') k = false
    /\ (forall node, In node (HebbianNetwork.associations net') ->
                     JsMap.get (snd node) k = None)
    /\ (forall x y, x <> k -> y <> k ->
          HebbianNetwork.getStrength net' x y = HebbianNetwork.getStrength net x y)
    /\ (forall x, x <> k ->
          JsMap.has (HebbianNetwork.associations net') x
          = JsMap.has (HebbianNetwork.associations net) x).
Proof.
  intros net k net'. subst net'. repeat split.
  - rewrite getStrength_removeNode, String.eqb_refl. reflexivity.
  - rewrite getStrength_removeNode, String.eqb_refl. now rewrite orb_true_r.
  - change (is_node (HebbianNetwork.removeNode net k) k = false).
    rewrite is_node_removeNode, String.eqb_refl. reflexivity.
  - intros node Hin. unfold HebbianNetwork.removeNode in Hin. cbn in Hin.
    apply in_map_iff in Hin. destruct Hin as [n0 [<- _]]. cbn.
    rewrite get_delete, String.eqb_refl. reflexivity.
  - intros x y Hx Hy. rewrite getStrength_removeNode.
    assert (E1 : String.eqb k x = false) by (apply String.eqb_neq; congruence).
    assert (E2 : String.eqb k y = false) by (apply String.eqb_neq; congruence).
    now rewrite E1, E2.
  - intros x Hx.
    change (is_node (HebbianNetwork.removeNode net k) x = is_node net x).
    rewrite is_node_removeNode.
    assert (E : String.eqb k x = false) by (apply String.eqb_neq; congruence).
    now rewrite E.
Qed.

Lemma wf_run decayRate maxStrength ops :
  HebbianNetwork.wf (HebbianNetwork.run (HebbianNetwork.new decayRate maxStrength) ops).
Proof. apply (graph_inv_run _ ops (graph_inv_new decayRate maxStrength)). Qed.

(** X3.  [decay] turns a strength [v] into the product [v * (1 -
    decayRate)], the difference and the product being the double-precision
    ones the program computes, when that product is at least 0.01, and into
    0 otherwise; it keeps the set of nodes, also of a node that loses all
    its links. *)
Theorem decay_scales_or_drops :
  forall (net : HebbianNetwork.t) (a b : string),
    HebbianNetwork.wf net ->
    let v := HebbianNetwork.getStrength net a b in
    let v' := Double.mul v (Double.sub 1 (HebbianNetwork.decayRate net)) in
    HebbianNetwork.getStrength (HebbianNetwork.decay net) a b
    = (if Double.ltb v' 0.01 then 0 else v')
    /\ JsMap.keys (HebbianNetwork.associations (HebbianNetwork.decay net))
       = JsMap.keys (HebbianNetwork.associations net).
Proof.
  intros net a b Hwf v v'. split.
  - rewrite getStrength_decay by exact Hwf. fold v. unfold decayed. cbv zeta.
    fold v'. destruct (Double.ltb v' 0.01) eqn:E; [reflexivity|].
    cbn [or_zero]. destruct (Qeq_bool v' 0) eqn:E0; [|reflexivity].
    apply Qeq_bool_iff in E0. exfalso.
    assert (Hlt : Double.ltb v' 0.01 = true).
    { apply ltb_iff. rewrite (round_comp v' 0 E0), round_0. reflexivity. }
    congruence.
  - unfold HebbianNetwork.decay. cbn. apply keys_map_values.
Qed.

Lemma decay_scales_or_drops_witness :
  HebbianNetwork.wf sample_graph
  /\ HebbianNetwork.getStrength (HebbianNetwork.decay sample_graph) "a" "b"
     == Double.mul 0.5 (Double.sub 1 0.1)
  /\ toBeCloseTo
       (HebbianNetwork.getStrength (HebbianNetwork.decay sample_graph) "a" "b") 0.45
  /\ HebbianNetwork.getStrength
       (HebbianNetwork.decay
          (HebbianNetwork.run (HebbianNetwork.new 0.9 1)
             [HebbianNetwork.Strengthen "a" "b" 0.1])) "a" "b" = 0.
Proof.
  assert (Hwf : HebbianNetwork.wf sample_graph) by apply wf_run.
  destruct (decay_scales_or_drops sample_graph "a" "b" Hwf) as [H _].
  split; [exact Hwf|]. split; [rewrite H; vm_compute; reflexivity|].
  split; [vm_compute; split; reflexivity | vm_compute; reflexivity].
Defined.

(** *** Strengths stay between 0 and [maxStrength] *)

Lemma or_zero_bounds M x : 0 <= M -> 0 <= x -> x <= M ->
  0 <= or_zero (Some x) /\ or_zero (Some x) <= M.
Proof.
  intros HM H0 H1. cbn [or_zero]. destruct (Qeq_bool x 0); split; lra.
Qed.

Lemma decayRate_strengthen net a b amount :
  HebbianNetwork.decayRate (HebbianNetwork.strengthen net a b amount)
  = HebbianNetwork.decayRate net.
Proof.
  unfold HebbianNetwork.strengthen, HebbianNetwork.set_link,
    HebbianNetwork.with_associations, HebbianNetwork.ensureNode.
  cbn. repeat match goal with
              | |- context [if ?c then _ else _] => destruct c; cbn
              end; reflexivity.
Qed.

Lemma decayRate_coActivate net ids :
  HebbianNetwork.decayRate (HebbianNetwork.coActivate net ids)
  = HebbianNetwork.decayRate net.
Proof.
  revert net. induction ids as [|x ids IH]; intros net; cbn; [reflexivity|].
  rewrite IH. unfold HebbianNetwork.coActivate_row. clear IH. revert net.
  induction ids as [|y ids IH]; intros net; cbn [fold_left]; [reflexivity|].
  rewrite IH. apply decayRate_strengthen.
Qed.

Lemma bounded_strengthen M net a b amount :
  0 <= M -> 0 <= amount -> HebbianNetwork.maxStrength net = M ->
  bounded_by M net -> bounded_by M (HebbianNetwork.strengthen net a b amount).
Proof.
  intros HM Ha HMx Hb x y. rewrite getStrength_strengthen_directed, HMx.
  destruct (_ || _); [|apply Hb].
  destruct (Hb x y) as [H0 H1]. destruct (Hb y x) as [H2 H3].
  destruct (Hb a b) as [H4 _]. destruct (Hb b a) as [H5 _].
  apply or_zero_bounds; [exact HM | | apply Q.le_min_l].
  apply Q.min_glb; [exact HM|].
  destruct (String.eqb a x && String.eqb b y); now apply add_nonneg.
Qed.

Lemma bounded_coActivate M net ids :
  0 <= M -> HebbianNetwork.maxStrength net = M ->
  bounded_by M net -> bounded_by M (HebbianNetwork.coActivate net ids).
Proof.
  intros HM. revert net. induction ids as [|x ids IH]; intros net HMx Hb; [exact Hb|].
  cbn [HebbianNetwork.coActivate]. apply IH; [now rewrite maxStrength_row|].
  unfold HebbianNetwork.coActivate_row. clear IH. revert net HMx Hb.
  induction ids as [|y ids IH]; intros net HMx Hb; cbn [fold_left]; [exact Hb|].
  apply IH; [now rewrite maxStrength_strengthen|].
  apply bounded_strengthen; try assumption. unfold HebbianNetwork.default_amount. lra.
Qed.

Lemma bounded_decay M net :
  Double.round M == M ->
  0 <= M -> 0 <= HebbianNetwork.decayRate net -> HebbianNetwork.decayRate net <= 1 ->
  HebbianNetwork.wf net ->
  bounded_by M net -> bounded_by M (HebbianNetwork.decay net).
Proof.
  intros HMd HM Hr0 Hr1 Hwf Hb x y. rewrite getStrength_decay by exact Hwf.
  destruct (Hb x y) as [H0 H1]. unfold decayed. cbv zeta.
  destruct (Double.ltb _ 0.01) eqn:E; [cbn; split; lra|].
  destruct (sub_one_range _ Hr0 Hr1) as [Hf0 Hf1].
  destruct (mul_range _ _ M HMd H0 H1 Hf0 Hf1) as [Hm0 Hm1].
  now apply or_zero_bounds.
Qed.

Lemma bounded_removeNode M net k :
  0 <= M -> bounded_by M net -> bounded_by M (HebbianNetwork.removeNode net k).
Proof.
  intros HM Hb x y. rewrite getStrength_removeNode.
  destruct (_ || _); [split; lra | apply Hb].
Qed.

Lemma wf_coActivate net ids :
  HebbianNetwork.wf net -> HebbianNetwork.wf (HebbianNetwork.coActivate net ids).
Proof.
  revert net. induction ids as [|x ids IH]; intros net Hwf; [exact Hwf|].
  cbn [HebbianNetwork.coActivate]. apply IH.
  unfold HebbianNetwork.coActivate_row. clear IH. revert net Hwf.
  induction ids as [|y ids IH]; intros net Hwf; cbn [fold_left]; [exact Hwf|].
  apply IH. now apply wf_strengthen.
Qed.

Lemma wf_apply net o :
  HebbianNetwork.wf net -> HebbianNetwork.wf (HebbianNetwork.apply net o).
Proof.
  intros Hwf. destruct o as [x y amount|ids| |k]; cbn [HebbianNetwork.apply].
  - now apply wf_strengthen.
  - now apply wf_coActivate.
  - now apply wf_decay.
  - now apply wf_removeNode.
Qed.

Lemma params_apply net o :
  HebbianNetwork.maxStrength (HebbianNetwork.apply net o) = HebbianNetwork.maxStrength net
  /\ HebbianNetwork.decayRate (HebbianNetwork.apply net o) = HebbianNetwork.decayRate net.
Proof.
  destruct o as [a b amount|ids| |k]; cbn [HebbianNetwork.apply].
  - split; [apply maxStrength_strengthen | apply decayRate_strengthen].
  - split; [apply maxStrength_coActivate | apply decayRate_coActivate].
  - split; reflexivity.
  - split; reflexivity.
Qed.

(** X4.  In a graph built from the empty one with a decay rate between 0
    and 1 and a non-negative [maxStrength], by operations whose
    [strengthen] amounts are non-negative, every strength lies between 0
    and [maxStrength].  The bound [maxStrength] is a double, as every number
    of the program is; the sums and products are the rounded ones. *)
Theorem strengths_stay_in_range :
  forall (decayRate maxStrength : Q) (ops : list HebbianNetwork.op) (a b : string),
    0 <= decayRate -> decayRate <= 1 -> 0 <= maxStrength ->
    Double.round maxStrength == maxStrength ->
    nonneg_amounts ops ->
    let net := HebbianNetwork.run (HebbianNetwork.new decayRate maxStrength) ops in
    0 <= HebbianNetwork.getStrength net a b
    /\ HebbianNetwork.getStrength net a b <= maxStrength.
Proof.
  intros decayRate maxStrength ops a b Hr0 Hr1 HM HMd Hops net. subst net.
  assert (H : forall net,
             HebbianNetwork.wf net ->
             HebbianNetwork.maxStrength net = maxStrength ->
             HebbianNetwork.decayRate net = decayRate ->
             bounded_by maxStrength net ->
             bounded_by maxStrength (HebbianNetwork.run net ops)).
  { unfold HebbianNetwork.run. induction Hops as [|o ops Ho Hops IH];
      intros net Hwf HMx Hrx Hb; [exact Hb|].
    cbn [fold_left]. destruct (params_apply net o) as [P1 P2].
    apply IH; [now apply wf_apply | congruence | congruence |].
    destruct o as [x y amount|ids| |k]; cbn [HebbianNetwork.apply].
    - now apply bounded_strengthen.
    - now apply bounded_coActivate.
    - apply bounded_decay; try assumption; congruence.
    - now apply bounded_removeNode. }
  apply H; try reflexivity.
  - split; constructor.
  - intros x y. cbn. split; lra.
Qed.

Lemma strengths_stay_in_range_witness :
  0 <= 0.1 /\ 0.1 <= 1 /\ 0 <= 1
  /\ Double.round 1 == 1
  /\ nonneg_amounts
       [HebbianNetwork.Strengthen "a" "b" 0.8; HebbianNetwork.Strengthen "a" "b" 0.8;
        HebbianNetwork.Decay]
  /\ 0 <= HebbianNetwork.getStrength
            (HebbianNetwork.run (HebbianNetwork.new 0.1 1)
               [HebbianNetwork.Strengthen "a" "b" 0.8;
                HebbianNetwork.Strengthen "a" "b" 0.8; HebbianNetwork.Decay]) "a" "b"
  /\ HebbianNetwork.getStrength
       (HebbianNetwork.run (HebbianNetwork.new 0.1 1)
          [HebbianNetwork.Strengthen "a" "b" 0.8;
           HebbianNetwork.Strengthen "a" "b" 0.8; HebbianNetwork.Decay]) "a" "b" <= 1.
Proof.
  assert (H1 : 0 <= 0.1) by lra. assert (H2 : 0.1 <= 1) by lra.
  assert (H3 : 0 <= 1) by lra.
  assert (H4 : nonneg_amounts
                 [HebbianNetwork.Strengthen "a" "b" 0.8;
                  HebbianNetwork.Strengthen "a" "b" 0.8; HebbianNetwork.Decay]).
  { repeat constructor; lra. }
  split; [exact H1|]. split; [exact H2|]. split; [exact H3|].
  split; [exact round_1|]. split; [exact H4|].
  exact (strengths_stay_in_range 0.1 1 _ "a"%string "b"%string H1 H2 H3 round_1 H4).
Defined.

(** *** Nodes *)

Lemma size_set {V : Type} (m : JsMap.t V) k v :
  JsMap.size (JsMap.set m k v)
  = if JsMap.has m k then JsMap.size m else S (JsMap.size m).
Proof.
  unfold JsMap.size. rewrite <- !(length_map fst).
  change (map fst (JsMap.set m k v)) with (JsMap.keys (JsMap.set m k v)).
  rewrite keys_set. destruct (JsMap.has m k); [reflexivity|].
  rewrite length_app. cbn. unfold JsMap.keys. lia.
Qed.

Lemma size_ensureNode net k :
  HebbianNetwork.size (HebbianNetwork.ensureNode net k)
  = if is_node net k then HebbianNetwork.size net else S (HebbianNetwork.size net).
Proof.
  unfold HebbianNetwork.size, HebbianNetwork.ensureNode, is_node.
  destruct (JsMap.has (HebbianNetwork.associations net) k) eqn:E; [reflexivity|].
  cbn [HebbianNetwork.associations HebbianNetwork.with_associations].
  now rewrite size_set, E.
Qed.

Lemma size_set_link net a b v :
  is_node net a = true ->
  HebbianNetwork.size (HebbianNetwork.set_link net a b v) = HebbianNetwork.size net.
Proof.
  intros H. unfold HebbianNetwork.size, HebbianNetwork.set_link.
  cbn [HebbianNetwork.associations HebbianNetwork.with_associations].
  rewrite size_set. unfold is_node in H. now rewrite H.
Qed.

(** X5.  After [strengthen (a, b, amount)] the nodes of the graph are [a],
    [b] and the nodes it had, and its size has grown by the number of ids
    among [a] and [b] that were no nodes before. *)
Theorem strengthen_adds_its_endpoints :
  forall (net : HebbianNetwork.t) (a b : string) (amount : Q),
    let net' := HebbianNetwork.strengthen net a b amount in
    (forall k, JsMap.has (HebbianNetwork.associations net') k
               = String.eqb a k || String.eqb b k
                 || JsMap.has (HebbianNetwork.associations net) k)
    /\ HebbianNetwork.size net'
       = (HebbianNetwork.size net
          + (if JsMap.has (HebbianNetwork.associations net) a then 0 else 1)
          + (if JsMap.has (HebbianNetwork.associations net) b || String.eqb a b
             then 0 else 1))%nat.
Proof.
  intros net a b amount net'. subst net'. split.
  - intros k. apply is_node_strengthen.
  - unfold HebbianNetwork.strengthen.
    rewrite !size_set_link, !size_ensureNode, is_node_ensureNode.
    + fold (is_node net a). fold (is_node net b).
      rewrite (orb_comm (is_node net b)).
      destruct (is_node net a), (String.eqb a b || is_node net b); lia.
    + rewrite !is_node_ensureNode, String.eqb_refl.
      now rewrite orb_true_r.
    + rewrite is_node_set_link, !is_node_ensureNode, String.eqb_refl.
      now rewrite !orb_true_r.
Qed.

(** *** The strongest associations *)

(** The first [n] elements of a list sorted in descending order are its
    top [n]: an element of the list that is not among them is no larger
    than any of them. *)
Lemma top_of_sorted {A : Type} (key : A -> Q) n (l : list A) x y :
  StronglySorted (desc_by key) l ->
  In x (firstn n l) -> In y l -> ~ In y (firstn n l) -> key y <= key x.
Proof.
  intros Hs Hx Hy Hny.
  destruct (firstn_skipn_sorted _ n l Hs) as [_ Hcross].
  rewrite <- (firstn_skipn n l) in Hy. apply in_app_or in Hy.
  destruct Hy as [Hy|Hy]; [contradiction|]. exact (Hcross _ _ Hx Hy).
Qed.

(** X6.  [getStrongestAssociations (id, limit)] returns at most [limit]
    links of [id], in descending order of strength; every link of [id] it
    leaves out is no stronger than any it returns; for an id that is no
    node it returns nothing. *)
Theorem getStrongestAssociations_are_the_top :
  forall (net : HebbianNetwork.t) (k : string) (limit : nat),
    let r := HebbianNetwork.getStrongestAssociations net k limit in
    List.length r = Nat.min limit (JsMap.size (HebbianNetwork.getAssociations net k))
    /\ StronglySorted (desc_by snd) r
    /\ incl r (HebbianNetwork.getAssociations net k)
    /\ (forall kept left,
          In kept r -> In left (HebbianNetwork.getAssociations net k) ->
          ~ In left r -> snd left <= snd kept)
    /\ (JsMap.has (HebbianNetwork.associations net) k = false -> r = []).
Proof.
  intros net k limit r. subst r.
  unfold HebbianNetwork.getStrongestAssociations, HebbianNetwork.getAssociations,
    HebbianNetwork.links, JsMap.has, JsMap.entries, slice0.
  destruct (JsMap.get (HebbianNetwork.associations net) k) as [assocs|].
  - assert (Hs : StronglySorted (desc_by snd)
                   (js_sort (fun a b : string * Q => snd b - snd a) assocs)).
    { apply (js_sort_desc (fun a b : string * Q => snd b - snd a) snd).
      intros a b. reflexivity. }
    repeat split.
    + rewrite length_firstn, js_sort_length. reflexivity.
    + now apply firstn_skipn_sorted.
    + intros kv H. apply in_firstn in H. now apply js_sort_In in H.
    + intros kept left Hk Hl Hn.
      apply (top_of_sorted snd limit _ kept left Hs Hk); [|exact Hn].
      now apply js_sort_In.
    + discriminate.
  - repeat split.
    + cbn. now rewrite Nat.min_0_r.
    + constructor.
    + intros kv [].
    + intros kept left [].
Qed.

(** *** Serialization, at every node *)

(** X7.  For a graph whose maps have no repeated key, the graph rebuilt by
    [fromJSON (toJSON (g))] answers [getStrength (a, b)] as [g] does for
    every [a] other than ["__proto__"], and answers 0 when [a] is
    ["__proto__"]; its decay rate and maximal strength are the ones handed
    to [fromJSON], or the defaults 0.05 and 1. *)
Theorem round_trip_at_every_node :
  forall (net : HebbianNetwork.t) (decayRate maxStrength : option Q) (a b : string),
    HebbianNetwork.wf net ->
    let net' := HebbianNetwork.fromJSON (HebbianNetwork.toJSON net)
                  decayRate maxStrength in
    HebbianNetwork.getStrength net' a b
    = (if String.eqb "__proto__" a then 0 else HebbianNetwork.getStrength net a b)
    /\ HebbianNetwork.decayRate net'
       = match decayRate with Some r => r | None => 0.05 end
    /\ HebbianNetwork.maxStrength net'
       = match maxStrength with Some s => s | None => 1 end.
Proof.
  intros net decayRate maxStrength a b Hwf net'. subst net'. split; [|split].
  - rewrite !getStrength_edge, edge_round_trip by exact Hwf.
    unfold JsObject.proto_key. now destruct (String.eqb "__proto__" a).
  - unfold HebbianNetwork.fromJSON.
    generalize (JsObject.entries (HebbianNetwork.toJSON net)).
    intros l.
    set (n0 := HebbianNetwork.new _ _).
    change (match decayRate with Some r => r | None => 0.05 end)
      with (HebbianNetwork.decayRate n0).
    generalize n0. induction l as [|x l IH]; intros n; [reflexivity|].
    cbn [fold_left]. now rewrite IH.
  - unfold HebbianNetwork.fromJSON.
    generalize (JsObject.entries (HebbianNetwork.toJSON net)).
    intros l.
    set (n0 := HebbianNetwork.new _ _).
    change (match maxStrength with Some s => s | None => 1 end)
      with (HebbianNetwork.maxStrength n0).
    generalize n0. induction l as [|x l IH]; intros n; [reflexivity|].
    cbn [fold_left]. now rewrite IH.
Qed.

Lemma round_trip_at_every_node_witness :
  HebbianNetwork.wf sample_graph
  /\ HebbianNetwork.getStrength
       (HebbianNetwork.fromJSON (HebbianNetwork.toJSON sample_graph) None None)
       "a" "c"
     = HebbianNetwork.getStrength sample_graph "a" "c"
  /\ HebbianNetwork.getStrength sample_graph "a" "c" == Double.round 0.3.
Proof.
  assert (Hwf : HebbianNetwork.wf sample_graph) by apply wf_run.
  destruct (round_trip_at_every_node sample_graph None None "a" "c" Hwf)
    as [H _].
  split; [exact Hwf|]. split; [exact H | vm_compute; reflexivity].
Defined.

(** ** Tokens and similarity *)

Lemma set_has_In (s : JsSet.t) k : JsSet.has s k = true <-> In k s.
Proof.
  unfold JsSet.has. rewrite existsb_exists. split.
  - intros [x [Hx E]]. apply String.eqb_eq in E. now subst.
  - intros H. exists k. split; [exact H | apply String.eqb_refl].
Qed.

Lemma set_has_false (s : JsSet.t) k : JsSet.has s k = false <-> ~ In k s.
Proof.
  rewrite <- set_has_In. destruct (JsSet.has s k); split; congruence.
Qed.

Lemma NoDup_add (s : JsSet.t) k : NoDup s -> NoDup (JsSet.add s k).
Proof.
  intros H. unfold JsSet.add. destruct (JsSet.has s k) eqn:E; [exact H|].
  apply set_has_false in E.
  apply NoDup_app; [exact H | repeat constructor; intros [] |].
  intros x Hx [<-|[]]. contradiction.
Qed.

Lemma NoDup_of_list l : NoDup (JsSet.of_list l).
Proof.
  unfold JsSet.of_list.
  assert (H : forall s, NoDup s -> NoDup (fold_left JsSet.add l s)).
  { induction l as [|x l IH]; intros s Hs; [exact Hs|].
    cbn [fold_left]. apply IH. now apply NoDup_add. }
  apply H. constructor.
Qed.

Lemma In_of_list l k : In k (JsSet.of_list l) <-> In k l.
Proof. rewrite <- set_has_In. apply has_of_list. Qed.

Lemma lower_char_token c :
  is_word (lower_char c) = true -> token_char (lower_char c) = true.
Proof.
  destruct c as [[] [] [] [] [] [] [] []]; vm_compute; intros H;
    first [reflexivity | discriminate H].
Qed.

Lemma string_forall_rev P acc s :
  string_forall P acc = true -> string_forall P s = true ->
  string_forall P (rev_string acc s) = true.
Proof.
  revert acc. induction s as [|c s IH]; intros acc Ha Hs; [exact Ha|].
  cbn in Hs. apply andb_true_iff in Hs. destruct Hs as [Hc Hs].
  cbn. apply IH; [|exact Hs]. cbn. now rewrite Hc, Ha.
Qed.

(** Every piece cut by [split] out of a text made of token characters
    and separators is made of token characters. *)
Lemma split_spaces_pieces s cur in_sep piece :
  string_forall (fun c => is_space c || token_char c) s = true ->
  string_forall token_char cur = true ->
  In piece (split_spaces s cur in_sep) ->
  string_forall token_char piece = true.
Proof.
  revert cur in_sep. induction s as [|c s IH]; intros cur in_sep Hs Hcur Hin.
  - cbn in Hin. destruct Hin as [<-|[]]. now apply string_forall_rev.
  - cbn in Hs. apply andb_true_iff in Hs. destruct Hs as [Hc Hs].
    cbn in Hin. destruct (is_space c) eqn:Esp.
    + destruct in_sep.
      * now apply (IH EmptyString true).
      * destruct Hin as [<-|Hin]; [now apply string_forall_rev|].
        now apply (IH EmptyString true).
    + apply (IH (String c cur) false); [exact Hs | | exact Hin].
      cbn. cbn in Hc. now rewrite Hc, Hcur.
Qed.

Lemma normalized_chars text :
  string_forall (fun c => is_space c || token_char c)
    (strip_punctuation (toLowerCase text)) = true.
Proof.
  induction text as [|c s IH]; [reflexivity|].
  cbn. rewrite IH, andb_true_r.
  destruct (is_word (lower_char c)) eqn:Ew; cbn.
  - rewrite (lower_char_token c Ew). apply orb_true_r.
  - destruct (is_space (lower_char c)) eqn:Es; [now rewrite Es | reflexivity].
Qed.

(** X8.  [tokenize] yields pairwise distinct tokens, none of them empty,
    each made only of digits, lowercase letters and underscores. *)
Theorem tokenize_yields_clean_tokens :
  forall text : string,
    NoDup (tokenize text)
    /\ (forall t, In t (tokenize text) ->
          t <> EmptyString /\ string_forall token_char t = true).
Proof.
  intros text. split; [apply NoDup_of_list|].
  intros t Ht. unfold tokenize in Ht. apply (proj1 (In_of_list _ _)) in Ht.
  apply filter_In in Ht. destruct Ht as [Hin Hlen]. split.
  - intros ->. discriminate Hlen.
  - apply (split_spaces_pieces _ EmptyString false t (normalized_chars text) eq_refl Hin).
Qed.

Lemma filter_has_members (A B : JsSet.t) x :
  In x (filter (JsSet.has B) A) <-> In x A /\ In x B.
Proof. rewrite filter_In, set_has_In. tauto. Qed.

Lemma intersection_sym (A B : JsSet.t) :
  NoDup A -> NoDup B ->
  List.length (filter (JsSet.has B) A) = List.length (filter (JsSet.has A) B).
Proof.
  intros HA HB. apply Permutation_length. apply NoDup_Permutation.
  - now apply NoDup_filter.
  - now apply NoDup_filter.
  - intros x. rewrite !filter_has_members. tauto.
Qed.

Lemma intersection_le_l (A B : JsSet.t) :
  (List.length (filter (JsSet.has B) A) <= List.length A)%nat.
Proof. apply filter_length_le. Qed.

Lemma intersection_le_r (A B : JsSet.t) :
  NoDup A -> NoDup B ->
  (List.length (filter (JsSet.has B) A) <= List.length B)%nat.
Proof.
  intros HA HB. rewrite intersection_sym by assumption. apply filter_length_le.
Qed.

Lemma Qnat_le n m : (n <= m)%nat -> Qnat n <= Qnat m.
Proof. intros H. unfold Qnat. rewrite <- Zle_Qle. lia. Qed.

Lemma Qnat_pos n : (0 < n)%nat -> 0 < Qnat n.
Proof.
  intros H. unfold Qnat. change 0 with (inject_Z 0). rewrite <- Zlt_Qlt. lia.
Qed.

Lemma jaccard_sym a b : jaccardSimilarity a b = jaccardSimilarity b a.
Proof.
  unfold jaccardSimilarity. cbv zeta.
  rewrite (intersection_sym (tokenize a) (tokenize b))
    by apply NoDup_of_list.
  rewrite (andb_comm (JsSet.size (tokenize a) =? 0)%nat).
  rewrite (orb_comm (JsSet.size (tokenize a) =? 0)%nat).
  rewrite (Nat.add_comm (JsSet.size (tokenize a))).
  reflexivity.
Qed.

Lemma jaccard_range a b :
  0 <= jaccardSimilarity a b /\ jaccardSimilarity a b <= 1.
Proof.
  unfold jaccardSimilarity. cbv zeta.
  destruct (_ && _); [split; lra|].
  destruct (_ || _); [split; lra|].
  pose proof (intersection_le_l (tokenize a) (tokenize b)) as Hl.
  pose proof (intersection_le_r (tokenize a) (tokenize b)
                (NoDup_of_list _) (NoDup_of_list _)) as Hr.
  unfold JsSet.size in *.
  set (i := List.length (filter (JsSet.has (tokenize b)) (tokenize a))) in *.
  set (u := (List.length (tokenize a) + List.length (tokenize b) - i)%nat).
  destruct (u =? 0)%nat eqn:E; [split; lra|].
  apply Nat.eqb_neq in E.
  assert (Hu : 0 < Qnat u) by (apply Qnat_pos; lia).
  assert (Hi : 0 <= Qnat i) by (apply (Qnat_le 0); lia).
  split.
  - apply Qle_shift_div_l; [exact Hu|]. lra.
  - apply Qle_shift_div_r; [exact Hu|].
    assert (Qnat i <= Qnat u) by (apply Qnat_le; unfold u; lia). lra.
Qed.

(** X9.  The Jaccard similarity of two texts lies between 0 and 1 and does
    not depend on the order of its arguments. *)
Theorem jaccardSimilarity_is_a_symmetric_ratio :
  forall a b : string,
    0 <= jaccardSimilarity a b
    /\ jaccardSimilarity a b <= 1
    /\ jaccardSimilarity a b = jaccardSimilarity b a.
Proof.
  intros a b. destruct (jaccard_range a b) as [H0 H1].
  split; [exact H0|]. split; [exact H1 | apply jaccard_sym].
Qed.

Lemma size_zero_nil (s : JsSet.t) : (JsSet.size s =? 0)%nat = true <-> s = [].
Proof.
  unfold JsSet.size. rewrite Nat.eqb_eq. destruct s; cbn; split; congruence.
Qed.

Lemma jaccard_positive a b :
  0 < jaccardSimilarity a b <->
  (tokenize a = [] /\ tokenize b = [])
  \/ exists t, In t (tokenize a) /\ In t (tokenize b).
Proof.
  unfold jaccardSimilarity. cbv zeta.
  destruct (JsSet.size (tokenize a) =? 0)%nat eqn:Ea;
    destruct (JsSet.size (tokenize b) =? 0)%nat eqn:Eb; cbn [andb orb].
  - apply size_zero_nil in Ea. apply size_zero_nil in Eb.
    split; [intros _; now left | intros _; lra].
  - apply size_zero_nil in Ea. split; [intros H; lra|].
    intros [[_ Hb]|[t [Ht _]]].
    + apply size_zero_nil in Hb. congruence.
    + rewrite Ea in Ht. destruct Ht.
  - apply size_zero_nil in Eb. split; [intros H; lra|].
    intros [[Ha _]|[t [_ Ht]]].
    + apply size_zero_nil in Ha. congruence.
    + rewrite Eb in Ht. destruct Ht.
  - pose proof (intersection_le_r (tokenize a) (tokenize b)
                  (NoDup_of_list _) (NoDup_of_list _)) as Hr.
    apply Nat.eqb_neq in Ea. apply Nat.eqb_neq in Eb.
    unfold JsSet.size in *.
    set (i := List.length (filter (JsSet.has (tokenize b)) (tokenize a))) in *.
    set (u := (List.length (tokenize a) + List.length (tokenize b) - i)%nat).
    assert (Hupos : (0 < u)%nat) by (unfold u; lia).
    assert (E : (u =? 0)%nat = false) by (apply Nat.eqb_neq; lia).
    rewrite E.
    assert (Hu : 0 < Qnat u) by now apply Qnat_pos.
    assert (Hiff : 0 < Qnat i / Qnat u <-> (0 < i)%nat).
    { split.
      - intros H. destruct i; [|lia]. exfalso.
        unfold Qnat at 1 in H. cbn in H. unfold Qdiv in H.
        rewrite Qmult_0_l in H. lra.
      - intros H. apply Qlt_shift_div_l; [exact Hu|].
        assert (0 < Qnat i) by now apply Qnat_pos. lra. }
    rewrite Hiff. split.
    + intros H. right. subst i.
      destruct (filter (JsSet.has (tokenize b)) (tokenize a)) as [|t l] eqn:F;
        [cbn in H; lia|].
      exists t. apply filter_has_members. rewrite F. now left.
    + intros [[Ha _]|[t Ht]].
      * rewrite Ha in Ea. cbn in Ea. congruence.
      * apply filter_has_members in Ht. subst i.
        destruct (filter (JsSet.has (tokenize b)) (tokenize a));
          [destruct Ht | cbn; lia].
Qed.

Lemma jaccard_self a : jaccardSimilarity a a == 1.
Proof.
  unfold jaccardSimilarity. cbv zeta.
  destruct (JsSet.size (tokenize a) =? 0)%nat eqn:Ea; cbn [andb orb];
    [reflexivity|].
  apply Nat.eqb_neq in Ea. unfold JsSet.size in *.
  assert (F : filter (JsSet.has (tokenize a)) (tokenize a) = tokenize a).
  { apply forallb_filter_id. apply forallb_forall. intros x Hx.
    now apply set_has_In. }
  rewrite F.
  replace (List.length (tokenize a) + List.length (tokenize a)
           - List.length (tokenize a))%nat
    with (List.length (tokenize a)) by lia.
  assert (E : (List.length (tokenize a) =? 0)%nat = false)
    by (apply Nat.eqb_neq; exact Ea).
  rewrite E. unfold Qdiv. apply Qmult_inv_r.
  assert (0 < Qnat (List.length (tokenize a))) by (apply Qnat_pos; lia). lra.
Qed.

(** X10.  The similarity of two texts is positive exactly when they share
    a token or both have no token at all; the similarity of a text to
    itself is 1. *)
Theorem jaccardSimilarity_positive_iff_shared_token :
  forall a b : string,
    (0 < jaccardSimilarity a b <->
     (tokenize a = [] /\ tokenize b = [])
     \/ exists t, In t (tokenize a) /\ In t (tokenize b))
    /\ jaccardSimilarity a a == 1.
Proof.
  intros a b. split; [apply jaccard_positive | apply jaccard_self].
Qed.

(** ** Entries *)

(** X11.  [createMemoryEntry] clamps the importance into the interval from
    0 to 1: a value in the interval is kept, a lower one becomes 0, a
    higher one becomes 1; the entry starts with [accessCount] 0 and with
    [createdAt] and [lastAccessed] equal to the clock. *)
Theorem createMemoryEntry_clamps_importance :
  forall k c (i : Q) tg tier now,
    let e := createMemoryEntry k c i tg tier now in
    0 <= importance e /\ importance e <= 1
    /\ (0 <= i /\ i <= 1 -> importance e == i)
    /\ (i <= 0 -> importance e == 0)
    /\ (1 <= i -> importance e == 1)
    /\ accessCount e = 0%Z /\ createdAt e = now /\ lastAccessed e = now
    /\ id e = k /\ source e = tier.
Proof.
  intros k c i tg tier now e. subst e. cbn.
  repeat split.
  - apply Q.le_max_l.
  - apply Q.max_lub; [lra | apply Q.le_min_l].
  - intros [H0 H1]. rewrite (Q.min_r 1 i H1). now apply Q.max_r.
  - intros H. rewrite Q.min_r by lra. apply Q.max_l. exact H.
  - intros H. rewrite (Q.min_l 1 i H). apply Q.max_r. lra.
Qed.

(** ** The fleeting store *)

Lemma delete_absent {V : Type} (m : JsMap.t V) k :
  JsMap.has m k = false -> JsMap.delete m k = m.
Proof.
  intros H. unfold JsMap.delete.
  assert (Hk : ~ In k (JsMap.keys m)).
  { intros Hin. apply has_keys in Hin. congruence. }
  clear H. induction m as [|[k' v'] m IH]; [reflexivity|].
  cbn. destruct (String.eqb k' k) eqn:E.
  - apply String.eqb_eq in E. subst. exfalso. apply Hk. now left.
  - cbn. f_equal. apply IH. intros Hin. apply Hk. now right.
Qed.

(** X12.  In the fleeting store an entry that was added is found by [get]
    under its id, with [accessCount] 1; adding leaves the entries of all
    other ids alone and makes the store one larger exactly when the id is
    new; [remove] tells whether the id was present, after it [get] on the
    id finds nothing, and the entries of all other ids are untouched. *)
Theorem fleeting_add_get_remove :
  forall (m : FleetingMemory.t) c (i : Q) tg (k : string) (now now' : Z),
    let m1 := snd (FleetingMemory.add m c i tg k now) in
    fst (FleetingMemory.get m1 k now')
    = Some (touch (createMemoryEntry k c i tg fleeting now) now')
    /\ (forall k', k' <> k ->
          JsMap.get (FleetingMemory.store m1) k' = JsMap.get (FleetingMemory.store m) k')
    /\ FleetingMemory.size m1
       = (if JsMap.has (FleetingMemory.store m) k then FleetingMemory.size m
          else S (FleetingMemory.size m))
    /\ fst (FleetingMemory.remove m k) = JsMap.has (FleetingMemory.store m) k
    /\ FleetingMemory.get (snd (FleetingMemory.remove m k)) k now'
       = (None, snd (FleetingMemory.remove m k))
    /\ (forall k', k' <> k ->
          JsMap.get (FleetingMemory.store (snd (FleetingMemory.remove m k))) k'
          = JsMap.get (FleetingMemory.store m) k').
Proof.
  intros m c i tg k now now' m1. subst m1. repeat split.
  - unfold FleetingMemory.get, FleetingMemory.add. cbn [snd FleetingMemory.store].
    now rewrite get_set_same.
  - intros k' Hk. cbn. rewrite get_set_other by congruence. reflexivity.
  - unfold FleetingMemory.size, FleetingMemory.add. cbn [snd FleetingMemory.store].
    apply size_set.
  - unfold FleetingMemory.get, FleetingMemory.remove. cbn [snd FleetingMemory.store].
    now rewrite get_delete, String.eqb_refl.
  - intros k' Hk. cbn. rewrite get_delete.
    assert (E : String.eqb k k' = false) by (apply String.eqb_neq; congruence).
    now rewrite E.
Qed.

Lemma includes_empty s : includes s "" = true.
Proof. destruct s; reflexivity. Qed.

Lemma filter_all {A : Type} (p : A -> bool) (l : list A) :
  (forall x, In x l -> p x = true) -> filter p l = l.
Proof.
  intros H. apply forallb_filter_id. now apply forallb_forall.
Qed.

(** X13.  With the empty query the fleeting [search] returns every entry
    of the store, in insertion order, while the working-set [search]
    returns only entries whose content has no token. *)
Theorem empty_query_differs_by_tier :
  forall (fm : FleetingMemory.t) (st : ShortTermMemory.t) (limit : nat),
    FleetingMemory.search fm "" = FleetingMemory.getAll fm
    /\ (forall e, In e (ShortTermMemory.search st "" limit) ->
                  tokenize (content e) = []).
Proof.
  intros fm st limit. split.
  - unfold FleetingMemory.search, FleetingMemory.getAll. apply filter_all.
    intros e _. unfold FleetingMemory.matches. cbn [toLowerCase].
    now rewrite includes_empty.
  - intros e He. unfold ShortTermMemory.search, slice0 in He.
    apply in_map_iff in He. destruct He as [[e0 sim] [<- He]]. cbn [fst].
    apply in_firstn in He. apply js_sort_In in He.
    apply filter_In in He. destruct He as [He Hpos].
    apply in_map_iff in He. destruct He as [x [Hx _]].
    injection Hx as -> <-. cbn [snd] in Hpos. apply Qlt_bool_iff in Hpos.
    apply jaccard_positive in Hpos.
    destruct Hpos as [[_ H]|[t [Ht _]]]; [exact H | destruct Ht].
Qed.

(** ** The working set *)

Lemma sorted_map {A B : Type} (f : A -> B) (R : A -> A -> Prop)
    (R' : B -> B -> Prop) (l : list A) :
  (forall a b, In a l -> In b l -> R a b -> R' (f a) (f b)) ->
  StronglySorted R l -> StronglySorted R' (map f l).
Proof.
  intros H Hs. induction Hs as [|a l Hs IH Hall]; cbn; [constructor|].
  constructor.
  - apply IH. intros x y Hx Hy. apply H; now right.
  - apply Forall_forall. intros y Hy. apply in_map_iff in Hy.
    destruct Hy as [x [<- Hx]]. rewrite Forall_forall in Hall.
    apply H; [now left | now right | now apply Hall].
Qed.

(** X14.  The working-set [search] returns at most [limit] entries of the
    store, each of positive similarity to the query, in descending order
    of similarity; every entry of the store with positive similarity that
    it leaves out is no more similar than any it returns. *)
Theorem working_set_search_returns_the_top :
  forall (m : ShortTermMemory.t) (query : string) (limit : nat),
    let sim (e : MemoryEntry) := jaccardSimilarity query (content e) in
    let r := ShortTermMemory.search m query limit in
    (List.length r <= limit)%nat
    /\ (forall e, In e r -> In e (ShortTermMemory.entries m) /\ 0 < sim e)
    /\ StronglySorted (desc_by sim) r
    /\ (forall kept left,
          In kept r -> In left (ShortTermMemory.entries m) -> 0 < sim left ->
          ~ In left r -> sim left <= sim kept).
Proof.
  intros m query limit sim r. subst r. unfold ShortTermMemory.search, slice0.
  set (scored := map (fun entry => (entry, jaccardSimilarity query (content entry)))
                   (ShortTermMemory.entries m)).
  set (kept := filter (fun s : MemoryEntry * Q => Qlt_bool 0 (snd s)) scored).
  set (sorted := js_sort (fun a b : MemoryEntry * Q => snd b - snd a) kept).
  assert (Hscore : forall s, In s sorted ->
                     In (fst s) (ShortTermMemory.entries m)
                     /\ snd s = sim (fst s) /\ 0 < snd s).
  { intros s Hs. apply js_sort_In in Hs. apply filter_In in Hs.
    destruct Hs as [Hs Hp]. apply Qlt_bool_iff in Hp.
    apply in_map_iff in Hs. destruct Hs as [e [<- He]]. cbn. tauto. }
  assert (Hsorted : StronglySorted (desc_by snd) sorted).
  { apply (js_sort_desc (fun a b : MemoryEntry * Q => snd b - snd a) snd).
    intros a b. reflexivity. }
  repeat split.
  - rewrite length_map, length_firstn. lia.
  - apply in_map_iff in H. destruct H as [s [<- Hs]].
    apply in_firstn in Hs. now apply Hscore.
  - apply in_map_iff in H. destruct H as [s [<- Hs]].
    apply in_firstn in Hs. destruct (Hscore s Hs) as (_ & <- & Hp). exact Hp.
  - apply (sorted_map fst (desc_by snd)).
    + intros a b Ha Hb Hab. apply in_firstn in Ha. apply in_firstn in Hb.
      destruct (Hscore a Ha) as (_ & Ea & _).
      destruct (Hscore b Hb) as (_ & Eb & _).
      unfold desc_by in *. now rewrite <- Ea, <- Eb.
    + now apply firstn_skipn_sorted.
  - intros kept0 left Hk Hl Hpos Hn.
    apply in_map_iff in Hk. destruct Hk as [s [<- Hs]].
    assert (Hleft : In (left, sim left) sorted).
    { apply js_sort_In. apply filter_In. split.
      - apply in_map_iff. now exists left.
      - cbn. now apply Qlt_bool_iff. }
    assert (Hnot : ~ In (left, sim left) (firstn limit sorted)).
    { intros Hin. apply Hn. apply in_map_iff. now exists (left, sim left). }
    pose proof (top_of_sorted snd limit sorted s (left, sim left)
                  Hsorted Hs Hleft Hnot) as Hle.
    destruct (Hscore s (in_firstn _ _ _ Hs)) as (_ & Es & _).
    cbn in Hle. now rewrite <- Es.
Qed.

Lemma touch_first_absent l k now :
  find_by_id l k = None -> ShortTermMemory.touch_first l k now = (None, l).
Proof. intros H. rewrite touch_first_spec. now rewrite H. Qed.

Lemma short_term_remove_absent m k :
  find_by_id (ShortTermMemory.entries m) k = None ->
  ShortTermMemory.remove m k = (false, m).
Proof.
  unfold ShortTermMemory.remove, find_by_id. destruct m as [l cfg]. cbn.
  intros H. f_equal.
  - induction l as [|e l IH]; [reflexivity|]. cbn in *.
    destruct (String.eqb (id e) k); [discriminate | now apply IH].
  - f_equal. induction l as [|e l IH]; [reflexivity|]. cbn in *.
    destruct (String.eqb (id e) k); [discriminate|].
    f_equal. now apply IH.
Qed.

(** X15.  On an id that a store does not hold, [get] returns nothing and
    [remove] returns false, in the fleeting store, the working set and the
    long-term store alike, and the store is left exactly as it was. *)
Theorem missing_id_changes_nothing :
  forall (k : string) (now : Z),
    (forall m : FleetingMemory.t,
        JsMap.get (FleetingMemory.store m) k = None ->
        FleetingMemory.get m k now = (None, m)
        /\ FleetingMemory.remove m k = (false, m))
    /\ (forall m : ShortTermMemory.t,
          find_by_id (ShortTermMemory.entries m) k = None ->
          ShortTermMemory.get m k now = (None, m)
          /\ ShortTermMemory.remove m k = (false, m))
    /\ (forall m : LongTermMemory.t,
          JsMap.get (LongTermMemory.entries m) k = None ->
          LongTermMemory.get m k now = (None, m)
          /\ LongTermMemory.remove m k = (false, m)).
Proof.
  intros k now. split; [|split].
  - intros [st] H. cbn in H. unfold FleetingMemory.get, FleetingMemory.remove,
      JsMap.has. cbn [FleetingMemory.store]. rewrite H. split; [reflexivity|].
    rewrite delete_absent; [reflexivity|]. unfold JsMap.has. now rewrite H.
  - intros m H. split; [|now apply short_term_remove_absent].
    unfold ShortTermMemory.get. rewrite touch_first_absent by exact H.
    now destruct m.
  - intros m H. unfold LongTermMemory.get, LongTermMemory.remove, JsMap.has.
    now rewrite H.
Qed.






(** *** A full working set turns the newcomer away *)

Lemma insert_before_last {A : Type} (cmp : A -> A -> Q) y s x :
  cmp y x <= 0 ->
  insert_sorted cmp y (s ++ [x]) = insert_sorted cmp y s ++ [x].
Proof.
  intros H. induction s as [|z s IH]; cbn.
  - apply Qlt_bool_false in H. now rewrite H.
  - destruct (Qlt_bool 0 (cmp y z)); [now rewrite IH | reflexivity].
Qed.

Lemma sort_keeps_last {A : Type} (cmp : A -> A -> Q) l x :
  (forall y, In y l -> cmp y x <= 0) ->
  js_sort cmp (l ++ [x]) = js_sort cmp l ++ [x].
Proof.
  induction l as [|y l IH]; intros H; [reflexivity|].
  change (js_sort cmp ((y :: l) ++ [x]))
    with (insert_sorted cmp y (js_sort cmp (l ++ [x]))).
  rewrite IH by (intros z Hz; apply H; now right).
  change (js_sort cmp (y :: l)) with (insert_sorted cmp y (js_sort cmp l)).
  apply insert_before_last. apply H. now left.
Qed.

Lemma relevance_unread pow_half e now :
  (forall x, x == 0 -> pow_half x == 0) ->
  accessCount e = 0%Z -> calculateRelevance pow_half e now == 0.
Proof.
  intros Hpow Hz. unfold calculateRelevance. cbv zeta. rewrite Hz.
  rewrite (Hpow (inject_Z 0 / _)); [apply Qmult_0_r|].
  unfold Qdiv. apply Qmult_0_l.
Qed.

Lemma relevance_nonneg pow_half e now :
  (forall x, 0 <= pow_half x) -> 0 <= importance e ->
  0 <= calculateRelevance pow_half e now.
Proof.
  intros Hpow Hi. unfold calculateRelevance. cbv zeta.
  apply Qmult_le_0_compat; [exact Hi | apply Hpow].
Qed.

(** X17.  When the working set is full, holds only entries of non-negative
    importance, and [Math.pow (x, 0.5)] is non-negative and 0 at 0, [add]
    evicts the entry it has just created: the store afterwards holds the
    former entries, sorted by relevance, and the entry handed back to the
    caller is not in it (a lookup of its id finds nothing when the id is
    new). *)
Theorem full_working_set_evicts_the_newcomer :
  forall pow_half (m : ShortTermMemory.t) c (i : Q) tg (k : string) (now now' : Z),
    (forall x, 0 <= pow_half x) ->
    (forall x, x == 0 -> pow_half x == 0) ->
    ShortTermMemory.size m = ShortTermMemory.maxSize (ShortTermMemory.config m) ->
    (forall e, In e (ShortTermMemory.entries m) -> 0 <= importance e) ->
    let m' := snd (ShortTermMemory.add pow_half m c i tg k now now') in
    ShortTermMemory.entries m'
    = js_sort (by_relevance_desc pow_half now') (ShortTermMemory.entries m)
    /\ Permutation (ShortTermMemory.entries m') (ShortTermMemory.entries m)
    /\ fst (ShortTermMemory.add pow_half m c i tg k now now')
       = createMemoryEntry k c i tg short_term now
    /\ (find_by_id (ShortTermMemory.entries m) k = None ->
        find_by_id (ShortTermMemory.entries m') k = None).
Proof.
  intros pow_half m c i tg k now now' Hpos Hzero Hfull Himp m'.
  assert (Hent : ShortTermMemory.entries m'
                 = js_sort (by_relevance_desc pow_half now') (ShortTermMemory.entries m)).
  { subst m'. unfold ShortTermMemory.add, ShortTermMemory.size in *.
    cbn [snd ShortTermMemory.entries ShortTermMemory.config].
    rewrite length_app. cbn [List.length].
    assert (E : (ShortTermMemory.maxSize (ShortTermMemory.config m)
                 <? List.length (ShortTermMemory.entries m) + 1)%nat = true)
      by (apply Nat.ltb_lt; lia).
    rewrite E. unfold ShortTermMemory.evict, slice0.
    cbn [ShortTermMemory.entries ShortTermMemory.config].
    rewrite sort_keeps_last.
    - rewrite <- Hfull, <- (js_sort_length (by_relevance_desc pow_half now')).
      rewrite firstn_app, Nat.sub_diag, firstn_all. cbn. apply app_nil_r.
    - intros y Hy. unfold by_relevance_desc.
      assert (H0 : calculateRelevance pow_half
                     (createMemoryEntry k c i tg short_term now) now' == 0)
        by (apply relevance_unread; [exact Hzero | reflexivity]).
      pose proof (relevance_nonneg pow_half y now' Hpos (Himp y Hy)) as Hy0.
      rewrite H0. lra. }
  split; [exact Hent|]. split; [rewrite Hent; apply js_sort_perm|].
  split; [reflexivity|].
  intros Hnone. rewrite Hent. unfold find_by_id in *.
  destruct (find _ (js_sort _ _)) as [e|] eqn:F; [|reflexivity].
  apply find_some in F. destruct F as [Hin Hid].
  apply js_sort_In in Hin.
  pose proof (find_none _ _ Hnone e Hin) as Hn. cbn in Hn. congruence.
Qed.

Lemma pow_half_approx_nonneg x : 0 <= pow_half_approx x.
Proof.
  unfold pow_half_approx. apply Qle_shift_div_l; [lra|].
  rewrite Qmult_0_l. change 0 with (inject_Z 0). rewrite <- Zle_Qle.
  apply Z.sqrt_nonneg.
Qed.

Lemma pow_half_approx_zero x : x == 0 -> pow_half_approx x == 0.
Proof.
  intros H. unfold pow_half_approx.
  assert (E : Qfloor (x * 1000000) = 0%Z).
  { rewrite (Qfloor_comp (x * 1000000) 0); [reflexivity|]. rewrite H. lra. }
  rewrite E. reflexivity.
Qed.

Lemma full_working_set_evicts_the_newcomer_witness :
  ShortTermMemory.size st_full = ShortTermMemory.maxSize (ShortTermMemory.config st_full)
  /\ map id (ShortTermMemory.entries
               (snd (ShortTermMemory.add pow_half_approx st_full "entry 5" 0.5 []
                       "e5" 1000 2000)))
     = ["e2"; "e1"; "e3"; "e0"; "e4"]%string
  /\ find_by_id
       (ShortTermMemory.entries
          (snd (ShortTermMemory.add pow_half_approx st_full "entry 5" 0.5 []
                  "e5" 1000 2000))) "e5" = None.
Proof.
  assert (Hfull : ShortTermMemory.size st_full
                  = ShortTermMemory.maxSize (ShortTermMemory.config st_full))
    by reflexivity.
  assert (Himp : forall e, In e (ShortTermMemory.entries st_full) -> 0 <= importance e).
  { intros e He. cbn in He.
    repeat (destruct He as [<-|He]; [cbn; lra|]). destruct He. }
  destruct (full_working_set_evicts_the_newcomer pow_half_approx st_full
              "entry 5" 0.5 [] "e5" 1000 2000
              pow_half_approx_nonneg pow_half_approx_zero Hfull Himp)
    as (He & _ & _ & Hfind).
  split; [exact Hfull|]. split; [rewrite He; reflexivity|].
  apply Hfind. reflexivity.
Defined.

(** ** The long-term store *)

Lemma Forall_fold_set {V : Type} (P : string * V -> Prop)
    (l : list (string * V)) (m : JsMap.t V) :
  Forall P m -> Forall P l ->
  Forall P (fold_left (fun mp kv => JsMap.set mp (fst kv) (snd kv)) l m).
Proof.
  revert m. induction l as [|[k v] l IH]; intros m Hm Hl; [exact Hm|].
  inversion Hl; subst. cbn [fold_left]. apply IH; [|assumption].
  now apply Forall_set.
Qed.

Lemma wf_fromJSON data decayRate maxStrength :
  HebbianNetwork.wf (HebbianNetwork.fromJSON data decayRate maxStrength).
Proof.
  unfold HebbianNetwork.wf, HebbianNetwork.fromJSON.
  rewrite fromJSON_loop. cbn [HebbianNetwork.associations HebbianNetwork.new].
  split.
  - apply wf_fold_set, wf_nil.
  - apply Forall_fold_set; [constructor|].
    apply Forall_forall. intros node Hnode. apply in_map_iff in Hnode.
    destruct Hnode as [n0 [<- _]]. cbn. unfold JsMap.of_entries.
    apply wf_fold_set, wf_nil.
Qed.

Lemma wf_fold_removeNode ks net :
  HebbianNetwork.wf net -> HebbianNetwork.wf (fold_left HebbianNetwork.removeNode ks net).
Proof.
  revert net. induction ks as [|k ks IH]; intros net H; [exact H|].
  cbn [fold_left]. apply IH. now apply wf_removeNode.
Qed.

Lemma keyed_install (l : list MemoryEntry) (m : JsMap.t MemoryEntry) :
  keyed_by_id m ->
  keyed_by_id (fold_left (fun mp entry => JsMap.set mp (id entry) entry) l m).
Proof.
  revert m. induction l as [|e l IH]; intros m H; [exact H|].
  cbn [fold_left]. apply IH. now apply Forall_set.
Qed.

Lemma wf_install (l : list MemoryEntry) (m : JsMap.t MemoryEntry) :
  JsMap.wf m ->
  JsMap.wf (fold_left (fun mp entry => JsMap.set mp (id entry) entry) l m).
Proof.
  revert m. induction l as [|e l IH]; intros m H; [exact H|].
  cbn [fold_left]. apply IH. now apply wf_set.
Qed.

Lemma searchWithAssociations_store m query limit now :
  snd (LongTermMemory.searchWithAssociations m query limit now)
  = snd (LongTermMemory.search m query limit now).
Proof.
  unfold LongTermMemory.searchWithAssociations.
  destruct (LongTermMemory.search m query limit now) as [direct m1].
  destruct (fold_left _ direct _) as [associated ids]. reflexivity.
Qed.

Lemma search_hits_in_store m query limit hit :
  In hit (LongTermMemory.search_hits m query limit) ->
  In (fst hit) (LongTermMemory.entries m).
Proof.
  intros H. destruct (search_hits_sub m query limit) as [rest Hperm].
  apply (Permutation_in _ Hperm). apply in_or_app. left. now apply in_map.
Qed.

Lemma store_ok_search m query limit now :
  store_ok m -> store_ok (snd (LongTermMemory.search m query limit now)).
Proof.
  intros (Hwf & Hk & Hn). unfold LongTermMemory.search.
  cbn [snd LongTermMemory.entries LongTermMemory.network].
  split; [now apply wf_fold_set|]. split; [|exact Hn].
  apply Forall_fold_set; [exact Hk|].
  apply Forall_forall. intros kv Hkv. apply in_map_iff in Hkv.
  destruct Hkv as [hit [<- Hhit]]. cbn.
  apply search_hits_in_store in Hhit.
  unfold keyed_by_id in Hk. rewrite Forall_forall in Hk. exact (Hk _ Hhit).
Qed.

Lemma store_ok_apply pow_half m o :
  store_ok m -> store_ok (lt_apply pow_half m o).
Proof.
  intros Hok. pose proof Hok as (Hwf & Hk & Hn).
  destruct o as [c i tg k now|e|k now|q limit now|q limit now|now|k|d|d];
    cbn [lt_apply].
  - split; [|split]; cbn; [now apply wf_set | now apply Forall_set | exact Hn].
  - split; [|split]; cbn; [now apply wf_set | now apply Forall_set | exact Hn].
  - unfold LongTermMemory.get.
    destruct (JsMap.get (LongTermMemory.entries m) k) as [e|] eqn:E; [|exact Hok].
    split; [|split]; cbn; [now apply wf_set | | exact Hn].
    apply Forall_set; [exact Hk|]. cbn.
    apply get_Some_In in E. unfold keyed_by_id in Hk.
    rewrite Forall_forall in Hk. exact (Hk _ E).
  - now apply store_ok_search.
  - rewrite searchWithAssociations_store. now apply store_ok_search.
  - unfold LongTermMemory.prune, JsMap.entries. rewrite prune_loop.
    cbn [snd LongTermMemory.entries LongTermMemory.network].
    split; [|split].
    + rewrite delete_selected by exact Hwf.
      unfold JsMap.wf, JsMap.keys.
      eapply NoDup_map_sub; [|exact Hwf].
      apply (filter_split_perm
               (fun kv => negb (LongTermMemory.prunable pow_half m now (snd kv)))).
    + rewrite delete_selected by exact Hwf.
      unfold keyed_by_id in *. rewrite Forall_forall in *.
      intros kv Hkv. apply filter_In in Hkv. now apply Hk.
    + now apply wf_fold_removeNode.
  - unfold LongTermMemory.remove.
    destruct (JsMap.has (LongTermMemory.entries m) k); [|exact Hok].
    split; [|split]; cbn.
    + now apply wf_delete.
    + unfold keyed_by_id, JsMap.delete in *. rewrite Forall_forall in *.
      intros kv Hkv. apply filter_In in Hkv. now apply Hk.
    + now apply wf_removeNode.
  - unfold LongTermMemory.load.
    destruct (LongTermMemory.no_path m); [exact Hok|].
    unfold LongTermMemory.load_try.
    destruct (readFile d _) as [data|]; cbn [bind]; [|exact Hok].
    destruct (JSON_parse data) as [stored|]; cbn [bind]; [|exact Hok].
    unfold LongTermMemory.install. split; [|split]; cbn.
    + apply wf_install, wf_nil.
    + apply keyed_install. constructor.
    + destruct (StorageFormat.associations stored); [apply wf_fromJSON | exact Hn].
  - unfold LongTermMemory.save. now destruct (_ || _).
Qed.

(** X18.  Whatever sequence of [add], [promote], [get], [search],
    [searchWithAssociations], [prune], [remove], [load] and [save] is
    applied to a newly created long-term store, no id occurs twice among
    its entries, every entry is stored under its own id, and no map of its
    graph has a repeated key. *)
Theorem long_term_store_keeps_its_invariant :
  forall pow_half (config : LongTermMemory.LongTermConfig) (ops : list lt_op),
    let m := lt_run pow_half (LongTermMemory.new config None) ops in
    NoDup (map fst (LongTermMemory.entries m))
    /\ (forall k e, JsMap.get (LongTermMemory.entries m) k = Some e -> id e = k)
    /\ NoDup (map id (LongTermMemory.getAll m))
    /\ HebbianNetwork.wf (LongTermMemory.network m).
Proof.
  intros pow_half config ops m.
  assert (Hok : store_ok m).
  { subst m. unfold lt_run.
    assert (H0 : store_ok (LongTermMemory.new config None)).
    { split; [constructor|]. split; [constructor|]. split; constructor. }
    revert H0. generalize (LongTermMemory.new config None).
    induction ops as [|o ops IH]; intros m0 H0; [exact H0|].
    cbn [fold_left]. apply IH. now apply store_ok_apply. }
  destruct Hok as (Hwf & Hk & Hn).
  assert (Hkey : forall k e, JsMap.get (LongTermMemory.entries m) k = Some e -> id e = k).
  { intros k e H. apply get_Some_In in H. unfold keyed_by_id in Hk.
    rewrite Forall_forall in Hk. symmetry. exact (Hk _ H). }
  split; [exact Hwf|]. split; [exact Hkey|]. split; [|exact Hn].
  unfold LongTermMemory.getAll, JsMap.values. rewrite map_map.
  replace (map (fun x => id (snd x)) (LongTermMemory.entries m))
    with (map fst (LongTermMemory.entries m)); [exact Hwf|].
  apply map_ext_in. intros kv Hkv. unfold keyed_by_id in Hk.
  rewrite Forall_forall in Hk. exact (Hk _ Hkv).
Qed.

(** *** Saving and loading *)

Lemma set_absent {V : Type} (m : JsMap.t V) k (v : V) :
  ~ In k (JsMap.keys m) -> JsMap.set m k v = m ++ [(k, v)].
Proof.
  unfold JsMap.keys. induction m as [|[k' v'] m IH]; cbn; intros H; [reflexivity|].
  destruct (String.eqb k' k) eqn:E.
  - apply String.eqb_eq in E. tauto.
  - rewrite IH by tauto. reflexivity.
Qed.

(** Setting the values of a map one after the other, each under its own
    id, rebuilds the map when it was keyed by id. *)
Lemma install_values (l acc : JsMap.t MemoryEntry) :
  JsMap.wf (acc ++ l) -> keyed_by_id l ->
  fold_left (fun mp entry => JsMap.set mp (id entry) entry) (JsMap.values l) acc
  = acc ++ l.
Proof.
  revert acc. induction l as [|[k v] l IH]; intros acc Hwf Hk.
  - cbn. now rewrite app_nil_r.
  - inversion Hk as [|? ? Hkv Hk']; subst. cbn in Hkv. subst k.
    change (JsMap.values ((id v, v) :: l)) with (v :: JsMap.values l).
    cbn [fold_left].
    assert (Hnot : ~ In (id v) (JsMap.keys acc)).
    { unfold JsMap.wf, JsMap.keys in *. rewrite map_app in Hwf. cbn in Hwf.
      apply NoDup_remove_2 in Hwf. intros Hin. apply Hwf.
      apply in_or_app. now left. }
    rewrite set_absent by exact Hnot.
    rewrite IH; [now rewrite <- app_assoc | now rewrite <- app_assoc | exact Hk'].
Qed.

Lemma fromJSON_params data decayRate maxStrength :
  HebbianNetwork.decayRate (HebbianNetwork.fromJSON data decayRate maxStrength)
  = match decayRate with Some r => r | None => HebbianNetwork.default_decayRate end
  /\ HebbianNetwork.maxStrength (HebbianNetwork.fromJSON data decayRate maxStrength)
     = match maxStrength with Some r => r | None => HebbianNetwork.default_maxStrength end.
Proof.
  unfold HebbianNetwork.fromJSON.
  set (n0 := HebbianNetwork.new _ _).
  change (match decayRate with Some r => r | None => HebbianNetwork.default_decayRate end)
    with (HebbianNetwork.decayRate n0).
  change (match maxStrength with Some r => r | None => HebbianNetwork.default_maxStrength end)
    with (HebbianNetwork.maxStrength n0).
  generalize n0. induction (JsObject.entries data) as [|x l IH]; intros n;
    [split; reflexivity|].
  cbn [fold_left]. destruct (IH (HebbianNetwork.with_associations n
    (JsMap.set (HebbianNetwork.associations n) (fst x)
       (JsMap.of_entries (JsObject.entries (snd x)))))) as [-> ->].
  split; reflexivity.
Qed.

Lemma save_load_round_trip (m fresh : LongTermMemory.t) (d : disk) :
  store_ok m ->
  LongTermMemory.no_path m = false ->
  LongTermMemory.dirty m = true ->
  LongTermMemory.storagePath (LongTermMemory.config fresh)
  = LongTermMemory.storagePath (LongTermMemory.config m) ->
  exists m',
    LongTermMemory.load fresh (snd (LongTermMemory.save m d)) = Normal m'
    /\ LongTermMemory.entries m' = LongTermMemory.entries m
    /\ (forall a b,
           HebbianNetwork.getStrength (LongTermMemory.network m') a b
           = if String.eqb "__proto__" a then 0
             else HebbianNetwork.getStrength (LongTermMemory.network m) a b)
    /\ HebbianNetwork.decayRate (LongTermMemory.network m') = 0.05
    /\ HebbianNetwork.maxStrength (LongTermMemory.network m') = 1.
Proof.
  intros (Hwf & Hk & Hn) Hp Hd Hc.
  pose proof (save_writes_document m d Hp Hd) as Hfile.
  unfold LongTermMemory.load, LongTermMemory.load_try, LongTermMemory.no_path,
    readFile in *.
  rewrite Hc, Hp, Hfile. cbn [bind JSON_parse].
  eexists. split; [reflexivity|].
  unfold LongTermMemory.install.
  cbn [LongTermMemory.entries LongTermMemory.network StorageFormat.entries
       StorageFormat.associations].
  split; [now rewrite install_values|].
  split; [|split].
  - intros a b. rewrite !getStrength_edge, edge_round_trip by exact Hn.
    unfold JsObject.proto_key. now destruct (String.eqb "__proto__" a).
  - exact (proj1 (fromJSON_params _ None None)).
  - exact (proj2 (fromJSON_params _ None None)).
Qed.

(** X19.  A store with a storage path and unsaved changes is written by
    [save] so that [load], run by any store with the same storage path on
    the resulting files, succeeds and holds exactly the saved entries in the
    saved order; its graph reads the saved weight between any two ids,
    except from the node ["__proto__"], where it reads 0, and has the
    default decay rate and maximal strength. *)
Theorem save_then_load_restores_the_store :
  forall (m fresh : LongTermMemory.t) (d : disk),
    store_ok m ->
    LongTermMemory.no_path m = false ->
    LongTermMemory.dirty m = true ->
    LongTermMemory.storagePath (LongTermMemory.config fresh)
    = LongTermMemory.storagePath (LongTermMemory.config m) ->
    exists m',
      LongTermMemory.load fresh (snd (LongTermMemory.save m d)) = Normal m'
      /\ LongTermMemory.entries m' = LongTermMemory.entries m
      /\ LongTermMemory.getAll m' = LongTermMemory.getAll m
      /\ (forall a b,
             HebbianNetwork.getStrength (LongTermMemory.network m') a b
             = if String.eqb "__proto__" a then 0
               else HebbianNetwork.getStrength (LongTermMemory.network m) a b)
      /\ HebbianNetwork.decayRate (LongTermMemory.network m') = 0.05
      /\ HebbianNetwork.maxStrength (LongTermMemory.network m') = 1.
Proof.
  intros m fresh d Hok Hp Hd Hc.
  destruct (save_load_round_trip m fresh d Hok Hp Hd Hc)
    as (m' & Hload & He & Hg & Hr & Hs).
  exists m'. split; [exact Hload|]. split; [exact He|].
  split; [unfold LongTermMemory.getAll; now rewrite He|].
  split; [exact Hg|]. split; [exact Hr | exact Hs].
Qed.

Lemma save_then_load_restores_the_store_witness :
  exists m',
    LongTermMemory.load
      (LongTermMemory.new (LongTermMemory.config lt_one_entry) None)
      (snd (LongTermMemory.save lt_one_entry empty_disk)) = Normal m'
    /\ LongTermMemory.entries m' = LongTermMemory.entries lt_one_entry
    /\ LongTermMemory.getAll m' = LongTermMemory.getAll lt_one_entry
    /\ (forall a b,
           HebbianNetwork.getStrength (LongTermMemory.network m') a b
           = if String.eqb "__proto__" a then 0
             else HebbianNetwork.getStrength (LongTermMemory.network lt_one_entry) a b)
    /\ HebbianNetwork.decayRate (LongTermMemory.network m') = 0.05
    /\ HebbianNetwork.maxStrength (LongTermMemory.network m') = 1.
Proof.
  apply (save_then_load_restores_the_store lt_one_entry
           (LongTermMemory.new (LongTermMemory.config lt_one_entry) None)
           empty_disk).
  - split; [|split].
    + unfold JsMap.wf. cbn. repeat constructor. intros [].
    + repeat constructor.
    + split; constructor.
  - reflexivity.
  - reflexivity.
  - reflexivity.
Defined.

(** X20.  A [save] with no storage path or with nothing to save changes
    neither the store nor any file; otherwise it rewrites the file at the
    storage path and no other, and clears the dirty flag.  In both cases
    the entries and the graph are kept, and a second [save] right after the
    first changes neither the store nor any file. *)
Theorem save_writes_one_file_once :
  forall (m : LongTermMemory.t) (d : disk),
    let m1 := fst (LongTermMemory.save m d) in
    let d1 := snd (LongTermMemory.save m d) in
    (LongTermMemory.no_path m || negb (LongTermMemory.dirty m) = true ->
       m1 = m /\ d1 = d)
    /\ (LongTermMemory.no_path m || negb (LongTermMemory.dirty m) = false ->
          LongTermMemory.dirty m1 = false
          /\ exists data,
               d1 (LongTermMemory.storagePath (LongTermMemory.config m))
               = Readable data
               /\ bind (JSON_parse data)
                    (fun stored => Normal (StorageFormat.entries stored))
                  = Normal (LongTermMemory.getAll m))
    /\ (forall p, p <> LongTermMemory.storagePath (LongTermMemory.config m) ->
          d1 p = d p)
    /\ LongTermMemory.entries m1 = LongTermMemory.entries m
    /\ LongTermMemory.network m1 = LongTermMemory.network m
    /\ LongTermMemory.config m1 = LongTermMemory.config m
    /\ LongTermMemory.save m1 d1 = (m1, d1).
Proof.
  intros m d m1 d1. subst m1 d1. unfold LongTermMemory.save.
  destruct (LongTermMemory.no_path m || negb (LongTermMemory.dirty m)) eqn:E;
    cbn [fst snd].
  - repeat split; try reflexivity; try discriminate. now rewrite E.
  - split; [discriminate|]. split.
    { intros _. split; [reflexivity|]. eexists. split.
      - unfold writeFile. rewrite String.eqb_refl. reflexivity.
      - reflexivity. }
    split.
    { intros p Hp. unfold writeFile. apply String.eqb_neq in Hp. now rewrite Hp. }
    repeat split.
    cbn [LongTermMemory.dirty LongTermMemory.no_path LongTermMemory.config negb].
    now rewrite orb_true_r.
Qed.

Lemma size_delete {V : Type} (m : JsMap.t V) k :
  JsMap.wf m -> JsMap.has m k = true ->
  S (JsMap.size (JsMap.delete m k)) = JsMap.size m.
Proof.
  intros Hwf Hhas. apply has_keys in Hhas.
  unfold JsMap.wf, JsMap.keys, JsMap.size in *.
  induction m as [|[k0 v0] l IH]; [destruct Hhas|].
  inversion Hwf as [|? ? Hnot Hnd]; subst.
  unfold JsMap.delete. cbn [filter fst].
  fold (JsMap.delete l k).
  destruct (String.eqb k0 k) eqn:E; cbn [negb List.length].
  - apply String.eqb_eq in E. subst k0. f_equal. f_equal.
    apply delete_absent. destruct (JsMap.has l k) eqn:Eh; [|reflexivity].
    apply has_keys in Eh. contradiction.
  - f_equal. apply IH; [exact Hnd|].
    destruct Hhas as [H|H]; [|exact H].
    cbn in H. subst. now rewrite String.eqb_refl in E.
Qed.

(** X21.  [remove] of an id that is stored returns [true], deletes that
    entry and no other, makes the store one entry smaller, leaves no link
    of the graph from or to the id while keeping every other link, and
    marks the store dirty. *)
Theorem long_term_remove_deletes_entry_and_links :
  forall (m : LongTermMemory.t) (k : string),
    JsMap.wf (LongTermMemory.entries m) ->
    JsMap.has (LongTermMemory.entries m) k = true ->
    let m' := snd (LongTermMemory.remove m k) in
    fst (LongTermMemory.remove m k) = true
    /\ JsMap.get (LongTermMemory.entries m') k = None
    /\ (forall k', k' <> k ->
          JsMap.get (LongTermMemory.entries m') k'
          = JsMap.get (LongTermMemory.entries m) k')
    /\ S (LongTermMemory.size m') = LongTermMemory.size m
    /\ (forall x,
          HebbianNetwork.getStrength (LongTermMemory.network m') k x == 0
          /\ HebbianNetwork.getStrength (LongTermMemory.network m') x k == 0)
    /\ (forall a b, a <> k -> b <> k ->
          HebbianNetwork.getStrength (LongTermMemory.network m') a b
          = HebbianNetwork.getStrength (LongTermMemory.network m) a b)
    /\ is_node (LongTermMemory.network m') k = false
    /\ LongTermMemory.dirty m' = true.
Proof.
  intros m k Hwf Hhas m'. subst m'. unfold LongTermMemory.remove.
  rewrite Hhas. cbn [fst snd LongTermMemory.entries LongTermMemory.network
                     LongTermMemory.dirty LongTermMemory.size].
  split; [reflexivity|]. split.
  { rewrite get_delete. now rewrite String.eqb_refl. }
  split.
  { intros k' Hk'. rewrite get_delete.
    destruct (String.eqb k k') eqn:E; [|reflexivity].
    apply String.eqb_eq in E. congruence. }
  split.
  { unfold LongTermMemory.size. cbn [LongTermMemory.entries].
    now apply size_delete. }
  split.
  { intros x. rewrite !getStrength_removeNode, String.eqb_refl, orb_true_r.
    cbn. split; reflexivity. }
  split.
  { intros a b Ha Hb. rewrite getStrength_removeNode.
    destruct (String.eqb k a) eqn:Ea; [apply String.eqb_eq in Ea; congruence|].
    destruct (String.eqb k b) eqn:Eb; [apply String.eqb_eq in Eb; congruence|].
    reflexivity. }
  split; [|reflexivity].
  rewrite is_node_removeNode, String.eqb_refl. reflexivity.
Qed.

Lemma long_term_remove_deletes_entry_and_links_witness :
  let m' := snd (LongTermMemory.remove lt_two_aged "old-read") in
  fst (LongTermMemory.remove lt_two_aged "old-read") = true
  /\ JsMap.get (LongTermMemory.entries m') "old-read" = None
  /\ (forall k', k' <> "old-read"%string ->
        JsMap.get (LongTermMemory.entries m') k'
        = JsMap.get (LongTermMemory.entries lt_two_aged) k')
  /\ S (LongTermMemory.size m') = LongTermMemory.size lt_two_aged
  /\ (forall x,
        HebbianNetwork.getStrength (LongTermMemory.network m') "old-read" x == 0
        /\ HebbianNetwork.getStrength (LongTermMemory.network m') x "old-read" == 0)
  /\ (forall a b, a <> "old-read"%string -> b <> "old-read"%string ->
        HebbianNetwork.getStrength (LongTermMemory.network m') a b
        = HebbianNetwork.getStrength (LongTermMemory.network lt_two_aged) a b)
  /\ is_node (LongTermMemory.network m') "old-read" = false
  /\ LongTermMemory.dirty m' = true.
Proof.
  apply (long_term_remove_deletes_entry_and_links lt_two_aged "old-read").
  - unfold JsMap.wf. cbn. repeat constructor; cbn; [|tauto].
    intros [H|[]]. discriminate.
  - reflexivity.
Defined.

(** *** Searching the long-term store *)

Lemma keys_fold_set_present {V : Type} (l : list (string * V)) (m : JsMap.t V) :
  (forall kv, In kv l -> In (fst kv) (JsMap.keys m)) ->
  JsMap.keys (fold_left (fun mp kv => JsMap.set mp (fst kv) (snd kv)) l m)
  = JsMap.keys m.
Proof.
  revert m. induction l as [|kv l IH]; intros m H; [reflexivity|].
  cbn [fold_left].
  assert (Hk : JsMap.keys (JsMap.set m (fst kv) (snd kv)) = JsMap.keys m).
  { rewrite keys_set.
    destruct (JsMap.has m (fst kv)) eqn:E; [reflexivity|].
    assert (Hin : In (fst kv) (JsMap.keys m)) by (apply H; now left).
    apply has_keys in Hin. congruence. }
  rewrite IH; [exact Hk|].
  intros kv' Hkv'. rewrite Hk. apply H. now right.
Qed.

(** What [search] selects, read on the sorted list of scored entries. *)
Lemma search_hits_scored m query limit s :
  In s (LongTermMemory.search_hits m query limit) ->
  In (fst s) (LongTermMemory.entries m)
  /\ snd s = jaccardSimilarity query (content (snd (fst s)))
  /\ 0 < snd s.
Proof.
  unfold LongTermMemory.search_hits, slice0. intros Hs.
  apply in_firstn in Hs. apply js_sort_In in Hs. apply filter_In in Hs.
  destruct Hs as [Hs Hp]. apply Qlt_bool_iff in Hp.
  apply in_map_iff in Hs. destruct Hs as [kv [<- Hkv]]. cbn. tauto.
Qed.

(** X22.  On a long-term store, [search] returns at most [limit] entries,
    each the bookkeeping copy of a stored entry of positive similarity to
    the query, that is of an entry whose content shares a token with the
    query or, when the query has no token, has no token either; they come
    in descending order of similarity, and a stored entry with positive
    similarity that it leaves out is no more similar than any it returns.  The store keeps the same ids in the same order;
    an entry that is not returned is unchanged, and a search that returns
    nothing leaves the whole store, dirty flag included, as it was. *)
Theorem long_term_search_ranks_and_keeps_the_store :
  forall (m : LongTermMemory.t) (query : string) (limit : nat) (now : Z),
    JsMap.wf (LongTermMemory.entries m) ->
    let sim (e : MemoryEntry) := jaccardSimilarity query (content e) in
    let r := fst (LongTermMemory.search m query limit now) in
    let m' := snd (LongTermMemory.search m query limit now) in
    (List.length r <= limit)%nat
    /\ (forall e', In e' r ->
          0 < sim e'
          /\ ((tokenize query = [] /\ tokenize (content e') = [])
              \/ exists t, In t (tokenize query) /\ In t (tokenize (content e')))
          /\ exists k e, JsMap.get (LongTermMemory.entries m) k = Some e
                         /\ e' = touch e now)
    /\ StronglySorted (desc_by sim) r
    /\ (forall kept k e,
          In kept r -> JsMap.get (LongTermMemory.entries m) k = Some e ->
          0 < sim e -> ~ In (touch e now) r -> sim e <= sim kept)
    /\ JsMap.keys (LongTermMemory.entries m') = JsMap.keys (LongTermMemory.entries m)
    /\ (forall k e,
          JsMap.get (LongTermMemory.entries m) k = Some e ->
          ~ In (touch e now) r ->
          JsMap.get (LongTermMemory.entries m') k = Some e)
    /\ (r = [] -> m' = m).
Proof.
  intros m query limit now Hwf sim r m'. subst r m'.
  unfold LongTermMemory.search. cbn [fst snd LongTermMemory.entries].
  rewrite !map_map. cbn [snd fst].
  pose proof (search_hits_scored m query limit) as Hscore.
  set (hits := LongTermMemory.search_hits m query limit) in *.
  assert (Hsorted : StronglySorted (desc_by snd) hits).
  { unfold hits, LongTermMemory.search_hits, slice0.
    apply firstn_skipn_sorted.
    apply (js_sort_desc (fun a b : string * MemoryEntry * Q => snd b - snd a) snd).
    intros a b. reflexivity. }
  split; [|split; [|split; [|split; [|split; [|split]]]]].
  - rewrite length_map. unfold hits, LongTermMemory.search_hits, slice0.
    rewrite length_firstn. lia.
  - intros e' He'. apply in_map_iff in He'. destruct He' as [s [<- Hs]].
    destruct (Hscore s Hs) as (Hin & Es & Hp).
    assert (Hpos : 0 < sim (touch (snd (fst s)) now)).
    { unfold sim. cbn [content touch]. now rewrite <- Es. }
    split; [exact Hpos|]. split.
    + now apply jaccard_positive.
    + exists (fst (fst s)), (snd (fst s)). split; [|reflexivity].
      apply get_In; [exact Hwf|]. now destruct (fst s).
  - apply (sorted_map (fun s : string * MemoryEntry * Q => touch (snd (fst s)) now)
             (desc_by snd)); [|exact Hsorted].
    intros a b Ha Hb Hab.
    destruct (Hscore a Ha) as (_ & Ea & _).
    destruct (Hscore b Hb) as (_ & Eb & _).
    unfold desc_by, sim in *. cbn [content touch]. now rewrite <- Ea, <- Eb.
  - intros kept k e Hk Hget Hpos Hn.
    apply in_map_iff in Hk. destruct Hk as [s [<- Hs]].
    set (sorted := js_sort (fun a b : string * MemoryEntry * Q => snd b - snd a)
                     (filter (fun s => Qlt_bool 0 (snd s))
                        (map (fun kv => (kv, jaccardSimilarity query (content (snd kv))))
                           (JsMap.entries (LongTermMemory.entries m))))).
    assert (Hall : StronglySorted (desc_by snd) sorted).
    { apply (js_sort_desc (fun a b : string * MemoryEntry * Q => snd b - snd a) snd).
      intros a b. reflexivity. }
    assert (Hleft : In ((k, e), sim e) sorted).
    { apply js_sort_In. apply filter_In. split.
      - apply in_map_iff. exists (k, e). split; [reflexivity|].
        now apply get_Some_In.
      - cbn. now apply Qlt_bool_iff. }
    assert (Hnot : ~ In ((k, e), sim e) (firstn limit sorted)).
    { intros Hin. apply Hn. apply in_map_iff. now exists ((k, e), sim e). }
    pose proof (top_of_sorted snd limit sorted s ((k, e), sim e)
                  Hall Hs Hleft Hnot) as Hle.
    destruct (Hscore s Hs) as (_ & Es & _).
    cbn in Hle. unfold sim at 2. cbn [content touch]. now rewrite <- Es.
  - apply keys_fold_set_present. intros kv Hkv.
    apply in_map_iff in Hkv. destruct Hkv as [s [<- Hs]]. cbn [fst].
    destruct (Hscore s Hs) as (Hin & _). unfold JsMap.keys.
    now apply in_map.
  - intros k e Hget Hn. rewrite get_fold_set_other; [exact Hget|].
    intros Hin. apply Hn. rewrite map_map in Hin. cbn [fst] in Hin.
    apply in_map_iff in Hin. destruct Hin as [s [Ek Hs]].
    apply in_map_iff. exists s. split; [|exact Hs].
    destruct (Hscore s Hs) as (Hin & _).
    destruct s as [[k0 e0] q]. cbn in *. subst k0.
    apply (get_In _ _ _ Hwf) in Hin. congruence.
  - intros Hr. apply map_eq_nil in Hr. rewrite Hr. cbn. now destruct m.
Qed.

Lemma long_term_search_ranks_and_keeps_the_store_witness :
  let sim (e : MemoryEntry) := jaccardSimilarity "important" (content e) in
  let r := fst (LongTermMemory.search lt_one_entry "important" 10 5) in
  let m' := snd (LongTermMemory.search lt_one_entry "important" 10 5) in
  (List.length r <= 10)%nat
  /\ (forall e', In e' r ->
        0 < sim e'
        /\ ((tokenize "important" = [] /\ tokenize (content e') = [])
            \/ exists t, In t (tokenize "important") /\ In t (tokenize (content e')))
        /\ exists k e, JsMap.get (LongTermMemory.entries lt_one_entry) k = Some e
                       /\ e' = touch e 5)
  /\ StronglySorted (desc_by sim) r
  /\ (forall kept k e,
        In kept r -> JsMap.get (LongTermMemory.entries lt_one_entry) k = Some e ->
        0 < sim e -> ~ In (touch e 5) r -> sim e <= sim kept)
  /\ JsMap.keys (LongTermMemory.entries m')
     = JsMap.keys (LongTermMemory.entries lt_one_entry)
  /\ (forall k e,
        JsMap.get (LongTermMemory.entries lt_one_entry) k = Some e ->
        ~ In (touch e 5) r ->
        JsMap.get (LongTermMemory.entries m') k = Some e)
  /\ (r = [] -> m' = lt_one_entry).
Proof.
  apply (long_term_search_ranks_and_keeps_the_store lt_one_entry "important" 10 5).
  unfold JsMap.wf. cbn. repeat constructor. intros [].
Defined.

Lemma Forall2_firstn {A B : Type} (R : A -> B -> Prop) n (l : list A) (l' : list B) :
  Forall2 R l l' -> Forall2 R (firstn n l) (firstn n l').
Proof.
  intros H. revert n. induction H as [|x y l l' Hxy H IH]; intros n.
  - rewrite !firstn_nil. constructor.
  - destruct n as [|n]; cbn; [constructor|]. constructor; [exact Hxy | apply IH].
Qed.

Lemma NoDup_firstn_part {A : Type} n (l : list A) : NoDup l -> NoDup (firstn n l).
Proof.
  intros H. rewrite <- (firstn_skipn n l) in H.
  now apply NoDup_app_remove_r in H.
Qed.

Lemma has_add (s : JsSet.t) k k' :
  JsSet.has (JsSet.add s k) k' = true <-> JsSet.has s k' = true \/ k' = k.
Proof.
  pose proof (has_fold_add [k] s k') as H. cbn [fold_left In] in H.
  rewrite H. intuition congruence.
Qed.

Section Associated.

Variable m1 : LongTermMemory.t.
Variable direct : list MemoryEntry.

Lemma associated_inv_step st d link :
  associated_inv m1 direct st -> In d direct ->
  In link (HebbianNetwork.getStrongestAssociations
             (LongTermMemory.network m1) (id d) 3) ->
  associated_inv m1 direct (LongTermMemory.associate m1 st link).
Proof.
  intros Hinv Hd Hlink. destruct st as [associated ids].
  unfold LongTermMemory.associate.
  destruct (JsSet.has ids (fst link)) eqn:Ehas; cbn [negb]; [exact Hinv|].
  destruct (JsMap.get (LongTermMemory.entries m1) (fst link)) as [e|] eqn:Eget;
    [|exact Hinv].
  destruct Hinv as (ks & Hf & Hnd & Hks & Hids). cbn [fst snd] in *.
  assert (Hfresh : ~ (In (fst link) (map id direct) \/ In (fst link) ks)).
  { intros H. apply Hids in H. congruence. }
  exists (ks ++ [fst link]). cbn [fst snd]. split; [|split; [|split]].
  - apply Forall2_app; [exact Hf|]. constructor; [exact Eget | constructor].
  - apply NoDup_app; [exact Hnd | repeat constructor; intros [] |].
    intros x Hx [<-|[]]. tauto.
  - intros k Hk. apply in_app_or in Hk. destruct Hk as [Hk|[<-|[]]].
    + now apply Hks.
    + split; [tauto|]. exists d. split; [exact Hd|]. now apply in_map.
  - intros k. rewrite has_add, Hids, in_app_iff. cbn [In]. intuition congruence.
Qed.

Lemma associated_inv_links st d links :
  associated_inv m1 direct st -> In d direct ->
  incl links (HebbianNetwork.getStrongestAssociations
                (LongTermMemory.network m1) (id d) 3) ->
  associated_inv m1 direct (fold_left (LongTermMemory.associate m1) links st).
Proof.
  revert st. induction links as [|link links IH]; intros st Hinv Hd Hincl;
    [exact Hinv|].
  cbn [fold_left]. apply IH; [|exact Hd|].
  - apply (associated_inv_step st d link Hinv Hd). apply Hincl. now left.
  - intros x Hx. apply Hincl. now right.
Qed.

Lemma associated_inv_loop ds st :
  associated_inv m1 direct st -> incl ds direct ->
  associated_inv m1 direct
    (fold_left
       (fun st entry =>
          fold_left (LongTermMemory.associate m1)
            (HebbianNetwork.getStrongestAssociations
               (LongTermMemory.network m1) (id entry) 3) st)
       ds st).
Proof.
  revert st. induction ds as [|d ds IH]; intros st Hinv Hincl; [exact Hinv|].
  cbn [fold_left]. apply IH.
  - apply (associated_inv_links st d); [exact Hinv | | apply incl_refl].
    apply Hincl. now left.
  - intros x Hx. apply Hincl. now right.
Qed.

End Associated.

(** X23.  [searchWithAssociations] does the bookkeeping of [search] and
    no other.  It returns the results of [search] first, followed only as
    far as [limit] allows by entries read from the store as they are, under
    distinct ids, none the id of a result of [search], each among the three
    strongest links of one of those results. *)
Theorem searchWithAssociations_appends_linked_entries :
  forall (m : LongTermMemory.t) (query : string) (limit : nat) (now : Z),
    let direct := fst (LongTermMemory.search m query limit now) in
    let m1 := snd (LongTermMemory.search m query limit now) in
    let r := fst (LongTermMemory.searchWithAssociations m query limit now) in
    snd (LongTermMemory.searchWithAssociations m query limit now) = m1
    /\ (List.length r <= limit)%nat
    /\ exists ks extra,
         r = direct ++ extra
         /\ Forall2 (fun k e => JsMap.get (LongTermMemory.entries m1) k = Some e)
              ks extra
         /\ NoDup ks
         /\ forall k, In k ks ->
              ~ In k (map id direct)
              /\ exists d, In d direct
                           /\ In k (map fst (HebbianNetwork.getStrongestAssociations
                                               (LongTermMemory.network m) (id d) 3)).
Proof.
  intros m query limit now direct m1 r.
  split; [apply searchWithAssociations_store|].
  subst r. unfold LongTermMemory.searchWithAssociations.
  fold direct. fold m1.
  assert (Hsplit : LongTermMemory.search m query limit now = (direct, m1)).
  { subst direct m1. now destruct (LongTermMemory.search m query limit now). }
  rewrite Hsplit.
  assert (Hlen : (List.length direct <= limit)%nat).
  { subst direct. unfold LongTermMemory.search. cbn [fst].
    rewrite !length_map. unfold LongTermMemory.search_hits, slice0.
    rewrite length_firstn. lia. }
  assert (H0 : associated_inv m1 direct ([], JsSet.of_list (map id direct))).
  { exists []. cbn [fst snd]. split; [constructor|]. split; [constructor|].
    split; [intros k []|]. intros k. rewrite has_of_list. cbn [In]. tauto. }
  pose proof (associated_inv_loop m1 direct direct _ H0 (incl_refl _)) as Hinv.
  destruct (fold_left _ direct _) as [associated ids].
  destruct Hinv as (ks & Hf & Hnd & Hks & _). cbn [fst snd] in *.
  split.
  { unfold slice0. rewrite length_firstn. lia. }
  exists (firstn (limit - List.length direct) ks),
         (firstn (limit - List.length direct) associated).
  split; [|split; [|split]].
  - unfold slice0. rewrite firstn_app. f_equal. now apply firstn_all2.
  - now apply Forall2_firstn.
  - now apply NoDup_firstn_part.
  - intros k Hk. apply in_firstn in Hk. exact (Hks k Hk).
Qed.

(** ** The memory manager *)

Lemma search_keys m query limit now :
  JsMap.keys (LongTermMemory.entries (snd (LongTermMemory.search m query limit now)))
  = JsMap.keys (LongTermMemory.entries m).
Proof.
  unfold LongTermMemory.search. cbn [snd LongTermMemory.entries].
  apply keys_fold_set_present. intros kv Hkv.
  apply in_map_iff in Hkv. destruct Hkv as [s [<- Hs]]. cbn [fst].
  destruct (search_hits_scored m query limit s Hs) as (Hin & _).
  unfold JsMap.keys. now apply in_map.
Qed.

Lemma recall_merged_store m query limit now :
  snd (MemoryManager.recall_merged m query limit now)
  = snd (LongTermMemory.search (MemoryManager.longTerm m) query limit now).
Proof.
  unfold MemoryManager.recall_merged.
  rewrite <- searchWithAssociations_store.
  now destruct (LongTermMemory.searchWithAssociations _ _ _ _).
Qed.

(** X24.  [recall] adds no entry to any tier and removes none: the fleeting
    store and the working set are left exactly as they were, the long-term
    store keeps the same ids in the same order and its configuration, and
    [getStats] reads the same before and after.  It returns at most [limit]
    entries with pairwise distinct ids, and records exactly these ids as
    the recently recalled ones. *)
Theorem recall_keeps_every_tier_population :
  forall (m : MemoryManager.t) (query : string) (limit : nat) (now : Z),
    let r := fst (MemoryManager.recall m query limit now) in
    let m' := snd (MemoryManager.recall m query limit now) in
    MemoryManager.fleeting m' = MemoryManager.fleeting m
    /\ MemoryManager.shortTerm m' = MemoryManager.shortTerm m
    /\ JsMap.keys (LongTermMemory.entries (MemoryManager.longTerm m'))
       = JsMap.keys (LongTermMemory.entries (MemoryManager.longTerm m))
    /\ LongTermMemory.config (MemoryManager.longTerm m')
       = LongTermMemory.config (MemoryManager.longTerm m)
    /\ MemoryManager.getStats m' = MemoryManager.getStats m
    /\ (List.length r <= limit)%nat
    /\ NoDup (map id r)
    /\ MemoryManager.recentlyRecalled m' = map id r.
Proof.
  intros m query limit now r m'.
  assert (Hlt : LongTermMemory.entries (MemoryManager.longTerm m')
                = LongTermMemory.entries
                    (snd (LongTermMemory.search (MemoryManager.longTerm m)
                            query limit now))
                /\ LongTermMemory.config (MemoryManager.longTerm m')
                   = LongTermMemory.config (MemoryManager.longTerm m)
                /\ MemoryManager.fleeting m' = MemoryManager.fleeting m
                /\ MemoryManager.shortTerm m' = MemoryManager.shortTerm m
                /\ MemoryManager.recentlyRecalled m' = map id r).
  { subst r m'. unfold MemoryManager.recall.
    pose proof (recall_merged_store m query limit now) as Hs.
    destruct (MemoryManager.recall_merged m query limit now) as [merged lt].
    cbn [snd fst MemoryManager.longTerm MemoryManager.fleeting
         MemoryManager.shortTerm MemoryManager.recentlyRecalled] in *.
    subst lt.
    destruct (1 <? _)%nat; repeat split; reflexivity. }
  destruct Hlt as (He & Hc & Hf & Hst & Hr).
  assert (Hk : JsMap.keys (LongTermMemory.entries (MemoryManager.longTerm m'))
               = JsMap.keys (LongTermMemory.entries (MemoryManager.longTerm m))).
  { rewrite He. apply search_keys. }
  split; [exact Hf|]. split; [exact Hst|]. split; [exact Hk|].
  split; [exact Hc|]. split; [|split; [|split]].
  - unfold MemoryManager.getStats. rewrite Hf, Hst. f_equal.
    unfold LongTermMemory.size, JsMap.size.
    rewrite <- (length_map fst (LongTermMemory.entries (MemoryManager.longTerm m'))).
    rewrite <- (length_map fst (LongTermMemory.entries (MemoryManager.longTerm m))).
    unfold JsMap.keys in Hk. now rewrite Hk.
  - subst r. rewrite recall_fst, length_map, length_firstn. lia.
  - apply recall_ids_NoDup.
  - exact Hr.
Qed.

Lemma lt_apply_config pow_half m o :
  LongTermMemory.config (lt_apply pow_half m o) = LongTermMemory.config m.
Proof.
  destruct o as [c i tg k now|e|k now|q limit now|q limit now|now|k|d|d];
    cbn [lt_apply]; try reflexivity.
  - unfold LongTermMemory.get.
    now destruct (JsMap.get (LongTermMemory.entries m) k).
  - now rewrite searchWithAssociations_store.
  - unfold LongTermMemory.prune.
    now destruct (fold_left _ _ _) as [[live net] pruned].
  - unfold LongTermMemory.remove.
    now destruct (JsMap.has (LongTermMemory.entries m) k).
  - unfold LongTermMemory.load, LongTermMemory.load_try.
    destruct (LongTermMemory.no_path m); [reflexivity|].
    destruct (readFile d _) as [data|]; cbn [bind]; [|reflexivity].
    now destruct (JSON_parse data).
  - unfold LongTermMemory.save. now destruct (_ || _).
Qed.

Lemma store_ok_promote_all lt l :
  store_ok lt -> store_ok (MemoryManager.promote_all lt l).
Proof.
  intros H. induction l as [|x l IH] using rev_ind; [exact H|].
  rewrite promote_all_snoc.
  exact (store_ok_apply (fun q => q) _ (LtPromote x) IH).
Qed.

Lemma promote_all_dirty lt l :
  LongTermMemory.dirty lt = true ->
  LongTermMemory.dirty (MemoryManager.promote_all lt l) = true.
Proof.
  intros H. induction l as [|x l IH] using rev_ind; [exact H|].
  now rewrite promote_all_snoc.
Qed.

Lemma prune_dirty pow lt now :
  LongTermMemory.dirty lt = true ->
  LongTermMemory.dirty (snd (LongTermMemory.prune pow lt now)) = true.
Proof.
  intros H. unfold LongTermMemory.prune.
  destruct (fold_left _ _ _) as [[live net] pruned].
  cbn [snd LongTermMemory.dirty].
  destruct (0 <? pruned)%nat; [reflexivity | exact H].
Qed.

(** The long-term store that [consolidate] hands to [save]. *)
Lemma consolidate_saves pow m now_compress now_prune d :
  let r := MemoryManager.consolidate pow m now_compress now_prune d in
  let promoted :=
    fst (ShortTermMemory.compress pow (MemoryManager.shortTerm m) now_compress) in
  let lt1 := MemoryManager.promote_all (MemoryManager.longTerm m) promoted in
  let lt2 :=
    LongTermMemory.with_network lt1
      (HebbianNetwork.decay (LongTermMemory.network lt1)) in
  let lt3 := snd (LongTermMemory.prune pow lt2 now_prune) in
  MemoryManager.longTerm (snd (fst r)) = fst (LongTermMemory.save lt3 d)
  /\ snd r = snd (LongTermMemory.save lt3 d).
Proof.
  cbv zeta. unfold MemoryManager.consolidate, LongTermMemory.getNetwork.
  destruct (ShortTermMemory.compress pow (MemoryManager.shortTerm m) now_compress)
    as [promoted st].
  cbn [fst snd].
  destruct (LongTermMemory.prune pow _ now_prune) as [pruned lt3]. cbn [snd].
  destruct (LongTermMemory.save lt3 d) as [lt4 d']. cbn. tauto.
Qed.

(** The long-term store of a manager stays well formed and keeps its
    storage path. *)
Lemma manager_long_term_ok pow s o :
  store_ok (MemoryManager.longTerm (fst s)) ->
  store_ok (MemoryManager.longTerm (fst (mm_apply pow s o)))
  /\ LongTermMemory.config (MemoryManager.longTerm (fst (mm_apply pow s o)))
     = LongTermMemory.config (MemoryManager.longTerm (fst s)).
Proof.
  destruct s as [m d]. cbn [fst]. intros Hok.
  destruct o as [c i tg k now now_evict|q limit now|now_compress now_prune| |];
    cbn [mm_apply].
  - unfold MemoryManager.remember.
    destruct (Qle_bool 0.7 i).
    + cbn [fst snd MemoryManager.longTerm]. split; [|reflexivity].
      exact (store_ok_apply pow _ (LtAdd c i tg k now) Hok).
    + destruct (Qle_bool 0.4 i).
      * destruct (ShortTermMemory.add _ _ _ _ _ _ _ _). cbn. now split.
      * cbn. now split.
  - unfold MemoryManager.recall.
    pose proof (recall_merged_store m q limit now) as Hs.
    destruct (MemoryManager.recall_merged m q limit now) as [merged lt].
    cbn [snd fst MemoryManager.longTerm] in *. subst lt.
    pose proof (store_ok_search _ q limit now Hok) as (Hwf & Hk & Hn).
    destruct (1 <? _)%nat; (split; [|reflexivity]).
    + split; [exact Hwf|]. split; [exact Hk|]. cbn. now apply wf_coActivate.
    + split; [exact Hwf|]. split; [exact Hk | exact Hn].
  - pose proof (consolidate_saves pow m now_compress now_prune d) as [Hlt _].
    cbv zeta in Hlt.
    destruct (MemoryManager.consolidate pow m now_compress now_prune d)
      as [[n m'] d'].
    cbn [fst snd] in *. rewrite Hlt.
    set (lt1 := MemoryManager.promote_all (MemoryManager.longTerm m) _).
    assert (H1 : store_ok lt1) by now apply store_ok_promote_all.
    set (lt2 := LongTermMemory.with_network lt1 _).
    assert (H2 : store_ok lt2).
    { destruct H1 as (Hwf & Hk & Hn). split; [exact Hwf|]. split; [exact Hk|].
      cbn. now apply wf_decay. }
    split.
    + apply (store_ok_apply pow _ (LtSave d)).
      exact (store_ok_apply pow _ (LtPrune now_prune) H2).
    + pose proof (lt_apply_config pow
                    (snd (LongTermMemory.prune pow lt2 now_prune)) (LtSave d)) as Hs.
      pose proof (lt_apply_config pow lt2 (LtPrune now_prune)) as Hp.
      cbn [lt_apply] in Hs, Hp. rewrite Hs, Hp.
      unfold lt2, lt1. cbn [LongTermMemory.with_network LongTermMemory.config].
      apply promote_all_config.
  - unfold MemoryManager.save.
    pose proof (store_ok_apply pow _ (LtSave d) Hok) as H1.
    pose proof (lt_apply_config pow (MemoryManager.longTerm m) (LtSave d)) as H2.
    cbn [lt_apply] in H1, H2.
    destruct (LongTermMemory.save (MemoryManager.longTerm m) d) as [lt d'].
    cbn in *. now split.
  - unfold MemoryManager.initialize.
    pose proof (store_ok_apply pow _ (LtLoad d) Hok) as H1.
    pose proof (lt_apply_config pow (MemoryManager.longTerm m) (LtLoad d)) as H2.
    cbn [lt_apply] in H1, H2.
    destruct (LongTermMemory.load (MemoryManager.longTerm m) d) as [lt|];
      cbn in *; now split.
Qed.

Lemma manager_run_long_term_ok pow s ops :
  store_ok (MemoryManager.longTerm (fst s)) ->
  store_ok (MemoryManager.longTerm (fst (mm_run pow s ops)))
  /\ LongTermMemory.config (MemoryManager.longTerm (fst (mm_run pow s ops)))
     = LongTermMemory.config (MemoryManager.longTerm (fst s)).
Proof.
  unfold mm_run. revert s. induction ops as [|o ops IH]; intros s H;
    [now split|].
  cbn [fold_left].
  destruct (manager_long_term_ok pow s o H) as [H1 H2].
  destruct (IH _ H1) as [H3 H4]. split; [exact H3|]. now rewrite H4.
Qed.

(** X25.  Take a manager created with a non-empty storage path and used
    through any sequence of [remember], [recall], [consolidate], [save] and
    [initialize].  If its long-term store has unsaved changes, then after
    [consolidate] the store is clean, and a new manager created with the
    same configuration that runs [initialize] on the resulting files holds
    exactly the long-term entries of the consolidated manager, in the same
    order, with empty fleeting and working-set tiers; its graph reads the
    same weight from every id other than ["__proto__"]. *)
Theorem consolidated_memory_survives_a_restart :
  forall (pow_half : Q -> Q) (cfg : MemoryManager.MemoryManagerConfig)
         (ops : list mm_op) (d0 : disk) (now_compress now_prune : Z),
    MemoryManager.storagePath cfg <> ""%string ->
    LongTermMemory.dirty
      (MemoryManager.longTerm (fst (mm_run pow_half (MemoryManager.new cfg, d0) ops)))
    = true ->
    let s := mm_run pow_half (MemoryManager.new cfg, d0) ops in
    let r := MemoryManager.consolidate pow_half (fst s) now_compress now_prune (snd s) in
    let m1 := snd (fst r) in
    LongTermMemory.dirty (MemoryManager.longTerm m1) = false
    /\ exists m2,
         MemoryManager.initialize (MemoryManager.new cfg) (snd r) = Normal m2
         /\ LongTermMemory.getAll (MemoryManager.longTerm m2)
            = LongTermMemory.getAll (MemoryManager.longTerm m1)
         /\ MemoryManager.getStats m2
            = (O, O, LongTermMemory.size (MemoryManager.longTerm m1))
         /\ (forall a b, a <> "__proto__"%string ->
                HebbianNetwork.getStrength
                  (LongTermMemory.network (MemoryManager.longTerm m2)) a b
                = HebbianNetwork.getStrength
                    (LongTermMemory.network (MemoryManager.longTerm m1)) a b).
Proof.
  intros pow_half cfg ops d0 now_compress now_prune Hpath Hdirty s r m1.
  assert (H0 : store_ok (MemoryManager.longTerm (fst (MemoryManager.new cfg, d0)))).
  { split; [constructor|]. split; [constructor|]. split; constructor. }
  destruct (manager_run_long_term_ok pow_half _ ops H0) as [Hok Hcfg].
  fold s in Hok, Hcfg, Hdirty. cbn [fst] in Hcfg.
  destruct (consolidate_saves pow_half (fst s) now_compress now_prune (snd s))
    as [Hlt Hd].
  cbv zeta in Hlt, Hd. fold r in Hlt, Hd. fold m1 in Hlt.
  set (lt1 := MemoryManager.promote_all (MemoryManager.longTerm (fst s)) _) in *.
  set (lt2 := LongTermMemory.with_network lt1 _) in *.
  set (lt3 := snd (LongTermMemory.prune pow_half lt2 now_prune)) in *.
  assert (H1 : store_ok lt1) by now apply store_ok_promote_all.
  assert (H2 : store_ok lt2).
  { destruct H1 as (Hwf & Hk & Hn). split; [exact Hwf|]. split; [exact Hk|].
    cbn. now apply wf_decay. }
  assert (H3 : store_ok lt3).
  { exact (store_ok_apply pow_half _ (LtPrune now_prune) H2). }
  assert (Hc3 : LongTermMemory.config lt3
                = LongTermMemory.config (MemoryManager.longTerm (MemoryManager.new cfg))).
  { pose proof (lt_apply_config pow_half lt2 (LtPrune now_prune)) as Hp.
    cbn [lt_apply] in Hp. unfold lt3. rewrite Hp.
    unfold lt2, lt1. cbn [LongTermMemory.with_network LongTermMemory.config].
    rewrite promote_all_config. exact Hcfg. }
  assert (Hd3 : LongTermMemory.dirty lt3 = true).
  { unfold lt3. apply prune_dirty. unfold lt2, lt1. cbn. now apply promote_all_dirty. }
  assert (Hp3 : LongTermMemory.no_path lt3 = false).
  { unfold LongTermMemory.no_path. rewrite Hc3. cbn. now apply String.eqb_neq. }
  destruct (save_load_round_trip lt3
              (MemoryManager.longTerm (MemoryManager.new cfg)) (snd s)
              H3 Hp3 Hd3 (eq_sym (f_equal LongTermMemory.storagePath Hc3)))
    as (lt' & Hload & He & Hg & _).
  assert (Hsaved : fst (LongTermMemory.save lt3 (snd s))
                   = LongTermMemory.mk (LongTermMemory.entries lt3)
                       (LongTermMemory.config lt3) (LongTermMemory.network lt3) false).
  { unfold LongTermMemory.save. now rewrite Hp3, Hd3. }
  rewrite Hlt, Hd, Hsaved. cbn [LongTermMemory.dirty].
  split; [reflexivity|].
  unfold MemoryManager.initialize. rewrite Hload. cbn [bind].
  eexists. split; [reflexivity|].
  unfold MemoryManager.getStats, LongTermMemory.getAll, LongTermMemory.size,
    MemoryManager.new.
  cbn [MemoryManager.longTerm MemoryManager.fleeting MemoryManager.shortTerm
       LongTermMemory.entries LongTermMemory.network].
  rewrite He. split; [reflexivity|]. split; [reflexivity|].
  intros a b Ha. rewrite Hg.
  destruct (String.eqb "__proto__" a) eqn:E; [|reflexivity].
  apply String.eqb_eq in E. congruence.
Qed.

Lemma consolidated_memory_survives_a_restart_witness :
  let cfg := {| MemoryManager.storagePath := "/tmp/memory.json";
                MemoryManager.shortTermMaxSize := 10 |} in
  let ops := [MmRemember "cache architecture" 0.9 [] "id-1" 1000 1000;
              MmRecall "cache" 10 2000] in
  let s := mm_run pow_half_approx (MemoryManager.new cfg, empty_disk) ops in
  let r := MemoryManager.consolidate pow_half_approx (fst s) 3000 3000 (snd s) in
  let m1 := snd (fst r) in
  LongTermMemory.dirty (MemoryManager.longTerm m1) = false
  /\ exists m2,
       MemoryManager.initialize (MemoryManager.new cfg) (snd r) = Normal m2
       /\ LongTermMemory.getAll (MemoryManager.longTerm m2)
          = LongTermMemory.getAll (MemoryManager.longTerm m1)
       /\ MemoryManager.getStats m2
          = (O, O, LongTermMemory.size (MemoryManager.longTerm m1))
       /\ (forall a b, a <> "__proto__"%string ->
              HebbianNetwork.getStrength
                (LongTermMemory.network (MemoryManager.longTerm m2)) a b
              = HebbianNetwork.getStrength
                  (LongTermMemory.network (MemoryManager.longTerm m1)) a b).
Proof.
  apply (consolidated_memory_survives_a_restart pow_half_approx
           {| MemoryManager.storagePath := "/tmp/memory.json";
              MemoryManager.shortTermMaxSize := 10 |}
           [MmRemember "cache architecture" 0.9 [] "id-1" 1000 1000;
            MmRecall "cache" 10 2000]
           empty_disk 3000 3000).
  - discriminate.
  - vm_compute. reflexivity.
Defined.

(** ** Deterministic ids *)

Lemma decode_zeros k s : decode_digits (IdGenerator.zeros k ++ s) = decode_digits s.
Proof.
  induction k as [|k IH]; [reflexivity|].
  unfold decode_digits in *. cbn [IdGenerator.zeros String.append].
  cbn [DecimalString.NilEmpty.uint_of_string].
  rewrite <- IH.
  now destruct (DecimalString.NilEmpty.uint_of_string (IdGenerator.zeros k ++ s)).
Qed.

Lemma decode_String_of c : decode_digits (IdGenerator.String_of c) = Some c.
Proof.
  unfold decode_digits, IdGenerator.String_of.
  destruct (N.to_uint c) eqn:E;
    try (unfold DecimalString.NilZero.string_of_uint;
         rewrite DecimalString.NilEmpty.usu; cbn [option_map];
         rewrite <- E, DecimalN.Unsigned.of_to; reflexivity).
  cbn. f_equal. rewrite <- (DecimalN.Unsigned.of_to c), E. reflexivity.
Qed.

Lemma append_inj_l (p x y : string) : (p ++ x = p ++ y)%string -> x = y.
Proof.
  induction p as [|a p IH]; cbn; [tauto|]. intros [= H]. now apply IH.
Qed.

Lemma id_of_inj prefix c c' : id_of prefix c = id_of prefix c' -> c = c'.
Proof.
  unfold id_of. intros H. apply append_inj_l in H. apply append_inj_l in H.
  apply (f_equal decode_digits) in H. unfold IdGenerator.padStart in H.
  rewrite !decode_zeros, !decode_String_of in H. congruence.
Qed.

Lemma length_zeros k : String.length (IdGenerator.zeros k) = k.
Proof. induction k; cbn; congruence. Qed.

Lemma length_append (x y : string) :
  String.length (x ++ y) = (String.length x + String.length y)%nat.
Proof. induction x; cbn; congruence. Qed.

Lemma generate_ids_spec n s :
  (IdGenerator.deterministicCounter s + N.of_nat n <= 9007199254740992)%N ->
  NoDup (fst (generate_ids n s))
  /\ (forall i, In i (fst (generate_ids n s)) ->
        exists c, (IdGenerator.deterministicCounter s < c
                   <= IdGenerator.deterministicCounter s + N.of_nat n)%N
                  /\ i = id_of (IdGenerator.deterministicPrefix s) c)
  /\ IdGenerator.deterministicCounter (snd (generate_ids n s))
     = (IdGenerator.deterministicCounter s + N.of_nat n)%N
  /\ IdGenerator.deterministicPrefix (snd (generate_ids n s))
     = IdGenerator.deterministicPrefix s.
Proof.
  revert s. induction n as [|n IH]; intros s Hb.
  - cbn [generate_ids fst snd].
    split; [constructor|]. split; [intros i []|]. split; [|reflexivity].
    change (N.of_nat 0) with 0%N. now rewrite N.add_0_r.
  - cbn [generate_ids]. unfold IdGenerator.generateDeterministicId.
    remember (IdGenerator.deterministicCounter s) as c eqn:Ec.
    assert (Hinc : IdGenerator.increment c = (c + 1)%N).
    { unfold IdGenerator.increment.
      destruct (N.ltb_spec c 9007199254740992); [reflexivity | lia]. }
    rewrite Hinc.
    set (s1 := IdGenerator.mk (c + 1) (IdGenerator.deterministicPrefix s)).
    specialize (IH s1).
    destruct (generate_ids n s1) as [l s2]. cbn [fst snd] in *.
    destruct IH as (Hnd & Hin & Hc & Hp); [cbn; lia|].
    subst s1.
    cbn [IdGenerator.deterministicCounter IdGenerator.deterministicPrefix] in *.
    split; [|split; [|split]].
    + constructor; [|exact Hnd]. intros Hi.
      destruct (Hin _ Hi) as (c' & Hc' & E).
      apply id_of_inj in E. lia.
    + intros i [<-|Hi].
      * exists (c + 1)%N. split; [lia | reflexivity].
      * destruct (Hin _ Hi) as (c' & Hc' & E). exists c'. split; [lia | exact E].
    + rewrite Hc. lia.
    + exact Hp.
Qed.

(** X26.  Starting from any state of the generator whose counter allows
    [n] more increments below 2^53, [n] calls of [generateDeterministicId]
    return [n] pairwise distinct ids, each the prefix, a dash and at least
    four decimal digits that denote a counter value reached by these calls.
    Right after [setDeterministicMode (prefix)] the first id is
    [prefix-0001]; once the counter holds 2^53 it no longer moves and the
    same id is returned again. *)
Theorem deterministic_ids_are_distinct_up_to_2_53 :
  forall (s : IdGenerator.t) (n : nat),
    (IdGenerator.deterministicCounter s + N.of_nat n <= 9007199254740992)%N ->
    let r := generate_ids n s in
    NoDup (fst r)
    /\ List.length (fst r) = n
    /\ (forall i, In i (fst r) ->
          exists digits,
            i = (IdGenerator.deterministicPrefix s ++ "-" ++ digits)%string
            /\ (4 <= String.length digits)%nat
            /\ exists c, decode_digits digits = Some c
                 /\ (IdGenerator.deterministicCounter s < c
                     <= IdGenerator.deterministicCounter s + N.of_nat n)%N)
    /\ IdGenerator.deterministicCounter (snd r)
       = (IdGenerator.deterministicCounter s + N.of_nat n)%N
    /\ (forall prefix,
          fst (IdGenerator.generateDeterministicId
                 (IdGenerator.setDeterministicMode prefix s))
          = (prefix ++ "-0001")%string)
    /\ (forall at_limit,
          IdGenerator.deterministicCounter at_limit = 9007199254740992%N ->
          fst (IdGenerator.generateDeterministicId
                 (snd (IdGenerator.generateDeterministicId at_limit)))
          = fst (IdGenerator.generateDeterministicId at_limit)).
Proof.
  intros s n Hb r. subst r.
  destruct (generate_ids_spec n s Hb) as (Hnd & Hin & Hc & Hp).
  split; [exact Hnd|]. split; [|split; [|split; [exact Hc|split]]].
  - clear. revert s. induction n as [|n IH]; intros s; [reflexivity|].
    cbn [generate_ids]. unfold IdGenerator.generateDeterministicId.
    specialize (IH (IdGenerator.mk
                      (IdGenerator.increment (IdGenerator.deterministicCounter s))
                      (IdGenerator.deterministicPrefix s))).
    destruct (generate_ids n _) as [l s2]. cbn in *. now rewrite IH.
  - intros i Hi. destruct (Hin i Hi) as (c & Hc' & ->).
    exists (IdGenerator.padStart (IdGenerator.String_of c) 4).
    split; [reflexivity|]. split.
    + unfold IdGenerator.padStart. rewrite length_append, length_zeros. lia.
    + exists c. split; [|exact Hc'].
      unfold IdGenerator.padStart. now rewrite decode_zeros, decode_String_of.
  - intros prefix. reflexivity.
  - intros at_limit Hl. unfold IdGenerator.generateDeterministicId.
    cbn [fst snd IdGenerator.deterministicCounter IdGenerator.deterministicPrefix].
    rewrite Hl. reflexivity.
Qed.

Lemma deterministic_ids_are_distinct_up_to_2_53_witness :
  fst (generate_ids 3 IdGenerator.initial) = ["test-0001"; "test-0002"; "test-0003"]%string
  /\ NoDup (fst (generate_ids 3 IdGenerator.initial)).
Proof.
  split; [reflexivity|].
  apply (deterministic_ids_are_distinct_up_to_2_53 IdGenerator.initial 3).
  vm_compute. discriminate.
Defined.
